(** * mcp-aggregate: the routing and resilience core of the MCP proxy

    A shallow embedding of the metrics manager, the health monitor and the
    request handlers of the aggregating proxy, with the properties the
    specification states about them.

    Conventions of the embedding.
    - JavaScript numbers that count things ([errorCount], [totalRequests],
      the consecutive-failure counters, timestamps in ms) are [Z]; numbers
      that hold ratios or smoothed values ([responseTime], [successRate],
      [loadFactor], the scores) are exact rationals [Q].  Rational division
      by zero is 0 where JavaScript gives an infinity or NaN, so every
      division whose divisor can be zero is written out at its use.
      JavaScript computes with IEEE doubles, which are rationals, and rounds
      the result of every operation.  Where a property depends on the
      rounding (which of two servers scores higher, the averages of the
      dashboard), the definition takes the rounding as a parameter [fl] and
      the property is proved for every rounding, or for every rounding that
      keeps the order of the numbers it rounds.
    - An error is its message.
    - Objects held by reference (the connected clients) live in a list and
      are referred to by their position in it; the list of clients is not
      shortened while the proxy runs.
    - [Date.now()] is the [clock] of the world; an upstream is a script of
      the outcomes of its successive requests, each with the time it takes.
    - One request is handled at a time.  The promises of a fan-out are run
      one after the other, in the order in which they settle, each from the
      time the fan-out starts; the order is a parameter of the handler.  The
      promises of different upstreams work on different keys of the shared
      maps, but for the routing table, where the last writer wins.  The
      consecutive-failure counters are kept by name, so two clients of the
      same name share one, and the order of the log depends on how the
      promises interleave: the bookkeeping of the retry wrapper is therefore
      stated for one attempt, and for runs that follow one another. *)

From Stdlib Require Import ZArith QArith Qminmax Qround Qabs Qpower String List Lia.
From stdpp Require Import gmap strings list.

Close Scope Q_scope.
Open Scope string_scope.
Open Scope list_scope.
Open Scope Z_scope.

(** ** Strings *)

(** [String.prototype.includes]: [includes needle hay] holds when [needle]
    occurs in [hay] as a contiguous, case-sensitive substring. *)
Fixpoint includes (needle hay : string) : bool :=
  String.prefix needle hay ||
  match hay with
  | EmptyString => false
  | String _ rest => includes needle rest
  end.

(** Truthiness of an optional string: [undefined] and the empty string are
    falsy. *)
Definition truthy (s : option string) : bool :=
  match s with
  | Some (String _ _) => true
  | _ => false
  end.

(** [s || fallback] on an optional string. *)
Definition orElse (s : option string) (fallback : string) : string :=
  match s with
  | Some (String a r) => String a r
  | _ => fallback
  end.

(** ** Error classification (mcp-proxy, [executeWithRetry] and the handlers) *)

Definition isToolNotFound (errorMessage : string) : bool :=
  includes "Tool" errorMessage && includes "not found" errorMessage.

Definition isInvalidParams (errorMessage : string) : bool :=
  includes "Invalid parameters" errorMessage.

Definition isRobotsTxtError (errorMessage : string) : bool :=
  includes "robots.txt" errorMessage || includes "robots" errorMessage.

(** Computed by the wrapper, used only to choose a log line. *)
Definition isBusinessError (errorMessage : string) : bool :=
  isToolNotFound errorMessage || isInvalidParams errorMessage
  || isRobotsTxtError errorMessage.

Definition isConnectionError (errorMessage : string) : bool :=
  includes "Connection" errorMessage
  || includes "timeout" errorMessage
  || includes "ECONNREFUSED" errorMessage
  || includes "ENOTFOUND" errorMessage.

(** ** Metrics manager (metrics-manager.ts) *)

Record MCPServerMetrics := {
  serverName : string;
  responseTime : Q;
  successRate : Q;
  errorCount : Z;
  totalRequests : Z;
  lastUsed : Z;
  isHealthy : bool;
  loadFactor : Q;
  capabilityScore : Q
}.

Record MCPQualityScore := {
  qs_serverName : string;
  overallScore : Q;
  performanceScore : Q;
  reliabilityScore : Q;
  qs_capabilityScore : Q;
  loadScore : Q;
  lastUpdated : Z
}.

Record MetricsManager := {
  metrics : gmap string MCPServerMetrics;
  qualityScores : gmap string MCPQualityScore
}.

Module Metrics.

Definition empty : MetricsManager :=
  {| metrics := ∅; qualityScores := ∅ |}.

Definition calculatePerformanceScore (m : MCPServerMetrics) : Q :=
  let maxResponseTime := 5000%Q in
  Qmax 0 (1 - responseTime m / maxResponseTime)%Q.

Definition calculateReliabilityScore (m : MCPServerMetrics) : Q :=
  if negb (isHealthy m) then 0%Q else successRate m.

Definition calculateLoadScore (m : MCPServerMetrics) : Q :=
  (1 - loadFactor m)%Q.

Definition updateQualityScore (now : Z) (name : string) (mm : MetricsManager)
  : MetricsManager :=
  match metrics mm !! name with
  | None => mm
  | Some m =>
      let performance := calculatePerformanceScore m in
      let reliability := calculateReliabilityScore m in
      let load := calculateLoadScore m in
      let qualityScore :=
        {| qs_serverName := name;
           overallScore :=
             (performance * 0.3 + reliability * 0.3
              + capabilityScore m * 0.2 + load * 0.2)%Q;
           performanceScore := performance;
           reliabilityScore := reliability;
           qs_capabilityScore := capabilityScore m;
           loadScore := load;
           lastUpdated := now |} in
      {| metrics := metrics mm;
         qualityScores := <[name := qualityScore]> (qualityScores mm) |}
  end.

Definition setMetrics (name : string) (m : MCPServerMetrics)
  (mm : MetricsManager) : MetricsManager :=
  {| metrics := <[name := m]> (metrics mm);
     qualityScores := qualityScores mm |}.

Definition initializeServer (now : Z) (name : string) (mm : MetricsManager)
  : MetricsManager :=
  let initialMetrics :=
    {| serverName := name;
       responseTime := 0;
       successRate := 1;
       errorCount := 0;
       totalRequests := 0;
       lastUsed := now;
       isHealthy := true;
       loadFactor := 0;
       capabilityScore := 1 |} in
  updateQualityScore now name (setMetrics name initialMetrics mm).

(** The load factor after a request that brought the number of requests to
    [total], [now - lastUsed] ms after the previous one.  With a gap of 0 ms
    the JavaScript quotient [total / 0] is [Infinity] for the positive
    [total] the counter has there, and [Math.min(1, Infinity)] is 1. *)
Definition nextLoadFactor (now : Z) (total : Z) (m : MCPServerMetrics) : Q :=
  let timeWindow := 60000 in
  let maxRequestsPerMinute := 100%Q in
  if total =? 0 then 0%Q
  else
    let timeSinceLastRequest := now - lastUsed m in
    if timeSinceLastRequest <? timeWindow then
      let newLoadFactor :=
        if timeSinceLastRequest =? 0 then 1%Q
        else
          let requestsPerMinute :=
            (inject_Z total
             / (inject_Z timeSinceLastRequest / inject_Z timeWindow))%Q in
          Qmin 1 (requestsPerMinute / maxRequestsPerMinute)%Q in
      if total =? 1 then newLoadFactor
      else (0.7 * newLoadFactor + (1 - 0.7) * loadFactor m)%Q
    else Qmax 0 (loadFactor m * 0.9)%Q.

(** The record after one request, for a record that exists. *)
Definition recorded (now : Z) (elapsed : Q) (success : bool)
  (m : MCPServerMetrics) : MCPServerMetrics :=
  let total := totalRequests m + 1 in
  let smoothed :=
    if total =? 1 then elapsed
    else (0.3 * elapsed + (1 - 0.3) * responseTime m)%Q in
  let errors := if negb success then errorCount m + 1 else errorCount m in
  {| serverName := serverName m;
     responseTime := smoothed;
     successRate := (1 - inject_Z errors / inject_Z total)%Q;
     errorCount := errors;
     totalRequests := total;
     lastUsed := now;
     isHealthy := isHealthy m;
     loadFactor := nextLoadFactor now total m;
     capabilityScore := capabilityScore m |}.

(** [recordRequest] of the metrics manager the proxy imports: a missing
    record is initialised first and the sample is then counted on it. *)
Definition recordRequest (now : Z) (name : string) (elapsed : Q)
  (success : bool) (mm : MetricsManager) : MetricsManager :=
  let mm0 :=
    match metrics mm !! name with
    | Some _ => mm
    | None => initializeServer now name mm
    end in
  match metrics mm0 !! name with
  | None => mm0
  | Some m =>
      updateQualityScore now name
        (setMetrics name (recorded now elapsed success m) mm0)
  end.

Definition withHealth (healthy : bool) (m : MCPServerMetrics)
  : MCPServerMetrics :=
  {| serverName := serverName m;
     responseTime := responseTime m;
     successRate := successRate m;
     errorCount := errorCount m;
     totalRequests := totalRequests m;
     lastUsed := lastUsed m;
     isHealthy := healthy;
     loadFactor := loadFactor m;
     capabilityScore := capabilityScore m |}.

(** The optional error message of [markServerUnhealthy] is not used by the
    manager, so it is not a parameter here. *)
Definition markServerUnhealthy (now : Z) (name : string) (mm : MetricsManager)
  : MetricsManager :=
  match metrics mm !! name with
  | Some m => updateQualityScore now name (setMetrics name (withHealth false m) mm)
  | None => mm
  end.

Definition markServerHealthy (now : Z) (name : string) (mm : MetricsManager)
  : MetricsManager :=
  match metrics mm !! name with
  | Some m => updateQualityScore now name (setMetrics name (withHealth true m) mm)
  | None => mm
  end.

Definition withCapability (score : Q) (m : MCPServerMetrics)
  : MCPServerMetrics :=
  {| serverName := serverName m;
     responseTime := responseTime m;
     successRate := successRate m;
     errorCount := errorCount m;
     totalRequests := totalRequests m;
     lastUsed := lastUsed m;
     isHealthy := isHealthy m;
     loadFactor := loadFactor m;
     capabilityScore := Qmax 0 (Qmin 1 score) |}.

Definition updateCapabilityScore (now : Z) (name : string) (score : Q)
  (mm : MetricsManager) : MetricsManager :=
  match metrics mm !! name with
  | Some m =>
      updateQualityScore now name (setMetrics name (withCapability score m) mm)
  | None => mm
  end.

(** Records not used for 24 hours are dropped with their quality score. *)
Definition expired (now : Z) (m : MCPServerMetrics) : bool :=
  let maxAge := 24 * 60 * 60 * 1000 in
  maxAge <? now - lastUsed m.

Definition cleanupOldData (now : Z) (mm : MetricsManager) : MetricsManager :=
  {| metrics := filter (λ kv, expired now kv.2 = false) (metrics mm);
     qualityScores :=
       filter (λ kv, (match metrics mm !! kv.1 with
                      | Some m => expired now m
                      | None => false
                      end) = false) (qualityScores mm) |}.

End Metrics.

(** The older copy of the manager kept under [src/src]: it differs from the
    one above in [recordRequest] only. *)
Module LegacyMetrics.

(** [now] is the time [lastUsed] is set to and [later] the reading of
    [Date.now()] taken after it, from which the load factor is computed. *)
Definition recorded (now later : Z) (elapsed : Q) (success : bool)
  (m : MCPServerMetrics) : MCPServerMetrics :=
  let alpha := 0.1%Q in
  let total := totalRequests m + 1 in
  let errors := if negb success then errorCount m + 1 else errorCount m in
  let timeSinceLastRequest := later - now in
  {| serverName := serverName m;
     responseTime := (alpha * elapsed + (1 - alpha) * responseTime m)%Q;
     successRate := (1 - inject_Z errors / inject_Z total)%Q;
     errorCount := errors;
     totalRequests := total;
     lastUsed := now;
     isHealthy := isHealthy m;
     loadFactor :=
       Qmin 1 (inject_Z total
               / Qmax 1 (inject_Z timeSinceLastRequest / 1000))%Q;
     capabilityScore := capabilityScore m |}.

Definition recordRequest (now later : Z) (name : string) (elapsed : Q)
  (success : bool) (mm : MetricsManager) : MetricsManager :=
  match metrics mm !! name with
  | None => Metrics.initializeServer now name mm
  | Some m =>
      Metrics.updateQualityScore now name
        (Metrics.setMetrics name (recorded now later elapsed success m) mm)
  end.

End LegacyMetrics.

(** ** Connected clients (client.ts) *)

Record ConnectedClient := {
  name : string;
  isConnected : bool;
  lastError : option string;
  lastErrorLogged : bool
}.

(** [client.isConnected = false; client.lastError = message], the demotion
    the transport callbacks and the request handlers perform. *)
Definition disconnected (message : string) (client : ConnectedClient)
  : ConnectedClient :=
  {| name := name client;
     isConnected := false;
     lastError := Some message;
     lastErrorLogged := lastErrorLogged client |}.

(** The transport callbacks installed when a client connects: [onerror]
    with the error's message, [onclose], and the periodic look at the
    [readyState] of a server-sent-events transport. *)
Definition onTransportError (message : string) (client : ConnectedClient)
  : ConnectedClient :=
  {| name := name client;
     isConnected := false;
     lastError := Some message;
     lastErrorLogged := true |}.

Definition onTransportClose (client : ConnectedClient) : ConnectedClient :=
  onTransportError "Connection closed" client.

Definition checkSSEConnection (readyState : Z) (client : ConnectedClient)
  : ConnectedClient :=
  if isConnected client && (readyState =? 2)
  then disconnected "SSE connection closed" client
  else client.

(** ** Health monitor (health-monitor.ts) *)

Record MCPHealthCheck := {
  hc_serverName : string;
  hc_isHealthy : bool;
  lastCheck : Z;
  errorMessage : option string;
  hc_responseTime : option Z
}.

Module Health.

(** [startMonitoring]: every connected client starts with a healthy check
    record. *)
Definition startMonitoring (now : Z) (clients : list ConnectedClient)
  (checks : gmap string MCPHealthCheck) : gmap string MCPHealthCheck :=
  foldl (λ acc client,
           <[name client :=
               {| hc_serverName := name client;
                  hc_isHealthy := true;
                  lastCheck := now;
                  errorMessage := None;
                  hc_responseTime := None |}]> acc)
        checks clients.

(** The verdict of the periodic check: health bit and error message.  The
    extra look at [lastError] is made for the one server name the source
    names. *)
Definition periodicVerdict (client : ConnectedClient) : bool * option string :=
  if negb (isConnected client) then
    (false, Some (orElse (lastError client) "Connection lost"))
  else if String.eqb (name client) "Example Server 3" then
    if truthy (lastError client) then (false, lastError client)
    else (true, None)
  else (true, None).

(** The verdict of the manual trigger. *)
Definition manualVerdict (client : ConnectedClient) : bool * option string :=
  if negb (isConnected client) then
    (false, Some (orElse (lastError client) "Connection lost"))
  else (true, None).

(** What both checks do with a verdict: overwrite the check record of the
    server and flip the health bit in the metrics manager.  The checks run
    without a suspension point, so their response time is 0 on the clock of
    the model. *)
Definition conclude (now : Z) (client : ConnectedClient)
  (verdict : bool * option string)
  (checks : gmap string MCPHealthCheck) (mm : MetricsManager)
  : gmap string MCPHealthCheck * MetricsManager :=
  let healthCheck :=
    {| hc_serverName := name client;
       hc_isHealthy := verdict.1;
       lastCheck := now;
       errorMessage := verdict.2;
       hc_responseTime := Some 0 |} in
  (<[name client := healthCheck]> checks,
   if verdict.1 then Metrics.markServerHealthy now (name client) mm
   else Metrics.markServerUnhealthy now (name client) mm).

Definition checkServerHealth (now : Z) (client : ConnectedClient)
  (checks : gmap string MCPHealthCheck) (mm : MetricsManager)
  : gmap string MCPHealthCheck * MetricsManager :=
  conclude now client (periodicVerdict client) checks mm.

Definition triggerHealthCheck (now : Z) (client : ConnectedClient)
  (checks : gmap string MCPHealthCheck) (mm : MetricsManager)
  : gmap string MCPHealthCheck * MetricsManager :=
  conclude now client (manualVerdict client) checks mm.

(** [performHealthChecks]: the periodic round over all clients. *)
Definition performHealthChecks (now : Z) (clients : list ConnectedClient)
  (checks : gmap string MCPHealthCheck) (mm : MetricsManager)
  : gmap string MCPHealthCheck * MetricsManager :=
  foldl (λ acc client, checkServerHealth now client acc.1 acc.2)
        (checks, mm) clients.

Definition shouldMarkUnhealthy (checks : gmap string MCPHealthCheck)
  (server : string) (consecutiveFailures : Z) : bool :=
  match checks !! server with
  | None => false
  | Some _ =>
      let maxConsecutiveFailures := 5 in
      maxConsecutiveFailures <=? consecutiveFailures
  end.

Definition canRecover (now : Z) (checks : gmap string MCPHealthCheck)
  (server : string) : bool :=
  match checks !! server with
  | None => false
  | Some healthCheck =>
      let recoveryWindowMs := 60000 in
      recoveryWindowMs <? now - lastCheck healthCheck
  end.

End Health.

(** ** Upstreams and the world an operation runs in *)

Inductive Method :=
  | ToolsList | ToolsCall | PromptsList | PromptsGet
  | ResourcesList | ResourcesRead | TemplatesList.

Global Instance Method_eq_dec : EqDecision Method.
Proof. solve_decision. Defined.

(** A listed tool, prompt, resource or resource template. *)
Record Descriptor := {
  d_name : string;
  d_uri : string;
  d_description : option string
}.

(** What an upstream answers: a listing (whose array may be absent) or the
    content of a call, a prompt or a resource. *)
Inductive Payload :=
  | Listing (entries : option (list Descriptor))
  | Content (body : string).

Definition entriesOf (result : Payload) : option (list Descriptor) :=
  match result with
  | Listing entries => entries
  | Content _ => None
  end.

(** The result of an awaited promise. *)
Inductive Res (A : Type) :=
  | Ok (value : A)
  | Err (message : string).
Arguments Ok {A} value.
Arguments Err {A} message.

(** One scripted answer of an upstream: it settles [latency] ms after the
    request was sent. *)
Record Outcome := {
  latency : Z;
  settled : Res Payload
}.

Record World := {
  upstream : gmap nat (list Outcome);
  clock : Z;
  metricsManager : MetricsManager
}.

Definition setClock (t : Z) (w : World) : World :=
  {| upstream := upstream w; clock := t;
     metricsManager := metricsManager w |}.

Definition setManager (mm : MetricsManager) (w : World) : World :=
  {| upstream := upstream w; clock := clock w;
     metricsManager := mm |}.

(** The work passed to the retry wrapper. *)
Definition Operation := World → World * Res Payload.

(** [Promise.race([client.request(...), timeoutPromise])]: a request is
    sent to upstream [c]; its next scripted outcome is taken if it settles
    before the timer, and the race rejects with 'Request timeout' otherwise.
    An upstream whose script is used up never answers.  The script does not
    depend on the method asked for: a handler asks one upstream for one
    method. *)
Definition request (c : nat) (timeoutMs : Z) : Operation :=
  λ w,
    let script := default [] (upstream w !! c) in
    let answer :=
      match script with
      | outcome :: _ =>
          if latency outcome <? timeoutMs
          then (latency outcome, settled outcome)
          else (timeoutMs, Err "Request timeout")
      | [] => (timeoutMs, Err "Request timeout")
      end in
    ({| upstream := <[c := tail script]> (upstream w);
        clock := clock w + answer.1;
        metricsManager := metricsManager w |},
     answer.2).

(** ** Proxy state (mcp-proxy.ts, [createServer]) *)

(** What the retry wrapper does, as the [log] of the state keeps it (most
    recent first): the outcome of each attempt, with the upstream method the
    attempt asked for, each call of [markServerUnhealthy] and each wait. *)
Inductive Event :=
  | EvSuccess (server : string) (method : Method) (attempt : nat)
  | EvFailure (server : string) (method : Method) (attempt : nat)
      (message : string)
  | EvMarkUnhealthy (server : string) (failures : Z)
  | EvBackoff (server : string) (attempt : nat) (ms : Z).

Record State := {
  world : World;
  connectedClients : list ConnectedClient;
  toolToClientMap : gmap string nat;
  resourceToClientMap : gmap string nat;
  promptToClientMap : gmap string nat;
  failureCounts : gmap string Z;
  healthChecks : gmap string MCPHealthCheck;
  log : list Event
}.

Definition setWorld (w : World) (st : State) : State :=
  {| world := w; connectedClients := connectedClients st;
     toolToClientMap := toolToClientMap st;
     resourceToClientMap := resourceToClientMap st;
     promptToClientMap := promptToClientMap st;
     failureCounts := failureCounts st; healthChecks := healthChecks st;
     log := log st |}.

Definition setClients (clients : list ConnectedClient) (st : State) : State :=
  {| world := world st; connectedClients := clients;
     toolToClientMap := toolToClientMap st;
     resourceToClientMap := resourceToClientMap st;
     promptToClientMap := promptToClientMap st;
     failureCounts := failureCounts st; healthChecks := healthChecks st;
     log := log st |}.

Definition setTools (table : gmap string nat) (st : State) : State :=
  {| world := world st; connectedClients := connectedClients st;
     toolToClientMap := table;
     resourceToClientMap := resourceToClientMap st;
     promptToClientMap := promptToClientMap st;
     failureCounts := failureCounts st; healthChecks := healthChecks st;
     log := log st |}.

Definition setResources (table : gmap string nat) (st : State) : State :=
  {| world := world st; connectedClients := connectedClients st;
     toolToClientMap := toolToClientMap st;
     resourceToClientMap := table;
     promptToClientMap := promptToClientMap st;
     failureCounts := failureCounts st; healthChecks := healthChecks st;
     log := log st |}.

Definition setPrompts (table : gmap string nat) (st : State) : State :=
  {| world := world st; connectedClients := connectedClients st;
     toolToClientMap := toolToClientMap st;
     resourceToClientMap := resourceToClientMap st;
     promptToClientMap := table;
     failureCounts := failureCounts st; healthChecks := healthChecks st;
     log := log st |}.

Definition setFailureCounts (counts : gmap string Z) (st : State) : State :=
  {| world := world st; connectedClients := connectedClients st;
     toolToClientMap := toolToClientMap st;
     resourceToClientMap := resourceToClientMap st;
     promptToClientMap := promptToClientMap st;
     failureCounts := counts; healthChecks := healthChecks st;
     log := log st |}.

Definition setHealthChecks (checks : gmap string MCPHealthCheck) (st : State)
  : State :=
  {| world := world st; connectedClients := connectedClients st;
     toolToClientMap := toolToClientMap st;
     resourceToClientMap := resourceToClientMap st;
     promptToClientMap := promptToClientMap st;
     failureCounts := failureCounts st; healthChecks := checks;
     log := log st |}.

Definition logEvent (e : Event) (st : State) : State :=
  {| world := world st; connectedClients := connectedClients st;
     toolToClientMap := toolToClientMap st;
     resourceToClientMap := resourceToClientMap st;
     promptToClientMap := promptToClientMap st;
     failureCounts := failureCounts st; healthChecks := healthChecks st;
     log := e :: log st |}.

Definition now (st : State) : Z := clock (world st).

(** [failureCounts.get(server) || 0] *)
Definition failureCount (st : State) (server : string) : Z :=
  default 0 (failureCounts st !! server).

Module Proxy.

(** [createServer]: metrics are initialised and health monitoring started
    for every client that connected; the routing tables and the failure
    counters start empty. *)
Definition createServer (start : Z) (clients : list ConnectedClient)
  (scripts : gmap nat (list Outcome)) : State :=
  {| world :=
       {| upstream := scripts; clock := start;
          metricsManager :=
            foldl (λ mm client, Metrics.initializeServer start (name client) mm)
                  Metrics.empty clients |};
     connectedClients := clients;
     toolToClientMap := ∅;
     resourceToClientMap := ∅;
     promptToClientMap := ∅;
     failureCounts := ∅;
     healthChecks := Health.startMonitoring start clients ∅;
     log := [] |}.

(** [getHealthyClients]: the clients whose [isConnected] is true, each with
    its position in [connectedClients]. *)
Definition getHealthyClients (st : State) : list (nat * string) :=
  (λ ic : nat * ConnectedClient, (ic.1, name ic.2))
    <$> filter (λ ic : nat * ConnectedClient, isConnected ic.2 = true)
               (imap pair (connectedClients st)).

(** [client.isConnected = false; client.lastError = message] on the client
    object at position [i]. *)
Definition demote (i : nat) (message : string) (st : State) : State :=
  setClients (alter (disconnected message) i (connectedClients st)) st.

(** [healthMonitor.triggerHealthCheck(client)] for the client at position
    [i]; the method has no suspension point, so it has run to its end when
    the call returns. *)
Definition triggerHealthCheck (i : nat) (st : State) : State :=
  match connectedClients st !! i with
  | None => st
  | Some client =>
      let r := Health.triggerHealthCheck (now st) client (healthChecks st)
                 (metricsManager (world st)) in
      setHealthChecks r.1 (setWorld (setManager r.2 (world st)) st)
  end.

(** The backoff before the next attempt. *)
Definition backoffMs (attempt : nat) : Z := 2 ^ Z.of_nat attempt * 1000.

(** What the wrapper does with a failed attempt before it decides whether to
    try again: only a connection error is counted, and the server is marked
    unhealthy when the health monitor says so. *)
Definition noteFailure (server : string) (method : Method) (attempt : nat)
  (errorMessage : string) (st : State) : State :=
  let st := logEvent (EvFailure server method attempt errorMessage) st in
  if isConnectionError errorMessage then
    let currentFailures := failureCount st server in
    let st := setFailureCounts
                (<[server := currentFailures + 1]> (failureCounts st)) st in
    if Health.shouldMarkUnhealthy (healthChecks st) server (currentFailures + 1)
    then
      logEvent (EvMarkUnhealthy server (currentFailures + 1))
        (setWorld
           (setManager
              (Metrics.markServerUnhealthy (now st) server
                 (metricsManager (world st)))
              (world st))
           st)
    else st
  else st.

(** The loop of [executeWithRetry] from attempt number [attempt] on, with
    [retriesLeft = maxRetries - attempt] attempts after this one. *)
Fixpoint attemptLoop (retriesLeft attempt : nat) (server : string)
  (method : Method) (operation : Operation) (st : State)
  : State * Res Payload :=
  let r := operation (world st) in
  let st := setWorld r.1 st in
  match r.2 with
  | Ok result =>
      (logEvent (EvSuccess server method attempt)
         (setFailureCounts (<[server := 0]> (failureCounts st)) st),
       Ok result)
  | Err errorMessage =>
      let st := noteFailure server method attempt errorMessage st in
      match retriesLeft with
      | O => (st, Err errorMessage)
      | S retriesLeft' =>
          if negb (isConnectionError errorMessage) then (st, Err errorMessage)
          else
            let st := logEvent (EvBackoff server attempt (backoffMs attempt)) st in
            let st := setWorld (setClock (now st + backoffMs attempt) (world st)) st in
            attemptLoop retriesLeft' (S attempt) server method operation st
      end
  end.

Definition defaultMaxRetries : nat := 2.

(** [method] names the upstream method [operation] asks for; the wrapper
    keeps it in the log and does nothing else with it. *)
Definition executeWithRetry (server : string) (method : Method)
  (operation : Operation) (maxRetries : nat) (st : State)
  : State * Res Payload :=
  attemptLoop maxRetries 0 server method operation st.

(** *** Fan-out *)

(** The body of one [healthyClients.map(async ...)] promise: it never
    rejects, and fulfils with the descriptors it contributes. *)
Definition Task := nat → string → State → State * list Descriptor.

(** [Promise.allSettled] over the tasks of the clients in [order], the order
    in which the promises settle.  Every task starts at the time the fan-out
    starts, and the fan-out ends when the last one has settled. *)
Fixpoint runTasks (task : Task) (start finish : Z) (order : list (nat * string))
  (results : gmap nat (list Descriptor)) (st : State)
  : State * gmap nat (list Descriptor) :=
  match order with
  | [] => (setWorld (setClock finish (world st)) st, results)
  | (i, server) :: rest =>
      let r := task i server (setWorld (setClock start (world st)) st) in
      runTasks task start (Z.max finish (now r.1)) rest
        (<[i := r.2]> results) r.1
  end.

Definition allSettled (task : Task) (order : list (nat * string)) (st : State)
  : State * gmap nat (list Descriptor) :=
  runTasks task (now st) (now st) order ∅ st.

(** [results.forEach(...)]: the fulfilled values, in the order of
    [healthyClients]. *)
Definition collect (healthyClients : list (nat * string))
  (results : gmap nat (list Descriptor)) : list Descriptor :=
  concat ((λ ic : nat * string, default [] (results !! ic.1)) <$> healthyClients).

Definition prefixed (server text : string) : string :=
  "[" +:+ server +:+ "] " +:+ text.

Record ListResponse := {
  listed : list Descriptor;
  nextCursor : option string
}.

(** *** tools/list *)

Definition withDescription (server : string) (d : Descriptor) : Descriptor :=
  {| d_name := d_name d; d_uri := d_uri d;
     d_description :=
       Some (prefixed server (orElse (d_description d) EmptyString)) |}.

Definition listToolsTask : Task := λ i server st,
  let r := executeWithRetry server ToolsList (request i 10000)
             defaultMaxRetries st in
  match r.2 with
  | Ok result =>
      match entriesOf result with
      | Some tools =>
          (foldl (λ s tool,
                    setTools (<[d_name tool := i]> (toolToClientMap s)) s)
                 r.1 tools,
           withDescription server <$> tools)
      | None => (r.1, [])
      end
  | Err errorMessage =>
      if isConnectionError errorMessage
      then (triggerHealthCheck i (demote i errorMessage r.1), [])
      else (r.1, [])
  end.

Definition listTools (order : list (nat * string)) (st : State)
  : State * ListResponse :=
  let st := setTools ∅ st in
  let healthyClients := getHealthyClients st in
  match healthyClients with
  | [] => (st, {| listed := []; nextCursor := None |})
  | _ =>
      let r := allSettled listToolsTask order st in
      (r.1, {| listed := collect healthyClients r.2; nextCursor := None |})
  end.

(** *** tools/call *)

Definition rebuildToolsTask : Task := λ i server st,
  let r := executeWithRetry server ToolsList (request i 10000)
             defaultMaxRetries st in
  match r.2 with
  | Ok result =>
      match entriesOf result with
      | Some tools =>
          (foldl (λ s tool,
                    setTools (<[d_name tool := i]> (toolToClientMap s)) s)
                 r.1 tools,
           tools)
      | None => (r.1, [])
      end
  | Err _ => (r.1, [])
  end.

(** The operation of a tool call: the request is timed and recorded in the
    metrics manager, as a success or as a failure, before its result is
    handed to the wrapper. *)
Definition toolCallOperation (i : nat) (server : string) : Operation :=
  λ w,
    let startTime := clock w in
    let r := request i 60000 w in
    let responseTime := clock r.1 - startTime in
    let success := match r.2 with Ok _ => true | Err _ => false end in
    (setManager
       (Metrics.recordRequest (clock r.1) server (inject_Z responseTime)
          success (metricsManager r.1))
       r.1,
     r.2).

(** The client a routing table entry refers to. *)
Definition resolve (st : State) (entry : option nat)
  : option (nat * ConnectedClient) :=
  i ← entry; client ← connectedClients st !! i; Some (i, client).

Definition callTool (order : list (nat * string)) (tool : string) (st : State)
  : State * Res Payload :=
  let st :=
    match toolToClientMap st !! tool with
    | Some _ => st
    | None => (allSettled rebuildToolsTask order (setTools ∅ st)).1
    end in
  match resolve st (toolToClientMap st !! tool) with
  | None =>
      (st, Err ("Tool '" +:+ tool +:+ "' is not available on any connected server. Please check if the tool exists and the server is running."))
  | Some (i, clientForTool) =>
      let server := name clientForTool in
      let r := executeWithRetry server ToolsCall (toolCallOperation i server)
                 1 st in
      match r.2 with
      | Ok result => (r.1, Ok result)
      | Err errorMessage =>
          if isToolNotFound errorMessage then
            (setTools (delete tool (toolToClientMap r.1)) r.1,
             Err ("Tool '" +:+ tool +:+ "' is not supported by server " +:+ server))
          else if isConnectionError errorMessage then
            (triggerHealthCheck i (demote i errorMessage r.1), Err errorMessage)
          else (r.1, Err errorMessage)
      end
  end.

(** *** prompts/list and prompts/get *)

Definition listPromptsTask : Task := λ i server st,
  let r := executeWithRetry server PromptsList (request i 10000)
             defaultMaxRetries st in
  match r.2 with
  | Ok result =>
      match entriesOf result with
      | Some prompts =>
          (foldl (λ s prompt,
                    setPrompts (<[d_name prompt := i]> (promptToClientMap s)) s)
                 r.1 prompts,
           withDescription server <$> prompts)
      | None => (r.1, [])
      end
  | Err errorMessage =>
      (triggerHealthCheck i (demote i errorMessage r.1), [])
  end.

Definition listPrompts (order : list (nat * string)) (cursor : option string)
  (st : State) : State * ListResponse :=
  let st := setPrompts ∅ st in
  let healthyClients := getHealthyClients st in
  match healthyClients with
  | [] => (st, {| listed := []; nextCursor := cursor |})
  | _ =>
      let r := allSettled listPromptsTask order st in
      (r.1, {| listed := collect healthyClients r.2; nextCursor := cursor |})
  end.

Definition rebuildPromptsTask : Task := λ i server st,
  let r := executeWithRetry server PromptsList (request i 10000)
             defaultMaxRetries st in
  match r.2 with
  | Ok result =>
      match entriesOf result with
      | Some prompts =>
          (foldl (λ s prompt,
                    setPrompts (<[d_name prompt := i]> (promptToClientMap s)) s)
                 r.1 prompts,
           prompts)
      | None => (r.1, [])
      end
  | Err _ => (r.1, [])
  end.

Definition getPrompt (order : list (nat * string)) (prompt : string)
  (st : State) : State * Res Payload :=
  let st :=
    match promptToClientMap st !! prompt with
    | Some _ => st
    | None => (allSettled rebuildPromptsTask order (setPrompts ∅ st)).1
    end in
  match resolve st (promptToClientMap st !! prompt) with
  | None =>
      (st, Err ("Prompt '" +:+ prompt +:+ "' is not available on any connected server. Please check if the prompt exists and the server is running."))
  | Some (i, clientForPrompt) =>
      let r := executeWithRetry (name clientForPrompt)
                 PromptsGet (request i 15000) defaultMaxRetries st in
      match r.2 with
      | Ok result => (r.1, Ok result)
      | Err errorMessage =>
          (triggerHealthCheck i (demote i errorMessage r.1), Err errorMessage)
      end
  end.

(** *** resources/list and resources/read *)

Definition withName (server : string) (d : Descriptor) : Descriptor :=
  {| d_name := prefixed server (d_name d); d_uri := d_uri d;
     d_description := d_description d |}.

Definition listResourcesTask : Task := λ i server st,
  let r := executeWithRetry server ResourcesList (request i 10000)
             defaultMaxRetries st in
  match r.2 with
  | Ok result =>
      match entriesOf result with
      | Some resources =>
          (foldl (λ s resource,
                    setResources
                      (<[d_uri resource := i]> (resourceToClientMap s)) s)
                 r.1 resources,
           withName server <$> resources)
      | None => (r.1, [])
      end
  | Err errorMessage =>
      (triggerHealthCheck i (demote i errorMessage r.1), [])
  end.

Definition listResources (order : list (nat * string)) (st : State)
  : State * ListResponse :=
  let st := setResources ∅ st in
  let healthyClients := getHealthyClients st in
  match healthyClients with
  | [] => (st, {| listed := []; nextCursor := None |})
  | _ =>
      let r := allSettled listResourcesTask order st in
      (r.1, {| listed := collect healthyClients r.2; nextCursor := None |})
  end.

Definition rebuildResourcesTask : Task := λ i server st,
  let r := executeWithRetry server ResourcesList (request i 10000)
             defaultMaxRetries st in
  match r.2 with
  | Ok result =>
      match entriesOf result with
      | Some resources =>
          (foldl (λ s resource,
                    setResources
                      (<[d_uri resource := i]> (resourceToClientMap s)) s)
                 r.1 resources,
           resources)
      | None => (r.1, [])
      end
  | Err _ => (r.1, [])
  end.

Definition readResource (order : list (nat * string)) (uri : string)
  (st : State) : State * Res Payload :=
  let st :=
    match resourceToClientMap st !! uri with
    | Some _ => st
    | None => (allSettled rebuildResourcesTask order (setResources ∅ st)).1
    end in
  match resolve st (resourceToClientMap st !! uri) with
  | None =>
      (st, Err ("Resource '" +:+ uri +:+ "' is not available on any connected server. Please check if the resource exists and the server is running."))
  | Some (i, clientForResource) =>
      let r := executeWithRetry (name clientForResource)
                 ResourcesRead (request i 15000) defaultMaxRetries st in
      match r.2 with
      | Ok result => (r.1, Ok result)
      | Err errorMessage =>
          (triggerHealthCheck i (demote i errorMessage r.1), Err errorMessage)
      end
  end.

(** *** resources/templates/list *)

Definition asTemplate (server : string) (d : Descriptor) : Descriptor :=
  {| d_name := prefixed server (d_name d); d_uri := d_uri d;
     d_description :=
       if truthy (d_description d)
       then Some (prefixed server (orElse (d_description d) EmptyString))
       else None |}.

Definition listTemplatesTask : Task := λ i server st,
  let r := executeWithRetry server TemplatesList (request i 10000)
             defaultMaxRetries st in
  match r.2 with
  | Ok result =>
      match entriesOf result with
      | Some templates => (r.1, asTemplate server <$> templates)
      | None => (r.1, [])
      end
  | Err errorMessage =>
      (triggerHealthCheck i (demote i errorMessage r.1), [])
  end.

Definition listResourceTemplates (order : list (nat * string))
  (cursor : option string) (st : State) : State * ListResponse :=
  let healthyClients := getHealthyClients st in
  match healthyClients with
  | [] => (st, {| listed := []; nextCursor := cursor |})
  | _ =>
      let r := allSettled listTemplatesTask order st in
      (r.1, {| listed := collect healthyClients r.2; nextCursor := cursor |})
  end.

(** *** The handlers the server registers *)

Inductive Request :=
  | ListToolsRequest
  | CallToolRequest (tool : string)
  | ListPromptsRequest (cursor : option string)
  | GetPromptRequest (prompt : string)
  | ListResourcesRequest
  | ReadResourceRequest (uri : string)
  | ListResourceTemplatesRequest (cursor : option string).

(** The state after the handler of [request] has run, its fan-out (if it has
    one) settling in [order]. *)
Definition handle (order : list (nat * string)) (request : Request)
  (st : State) : State :=
  match request with
  | ListToolsRequest => (listTools order st).1
  | CallToolRequest tool => (callTool order tool st).1
  | ListPromptsRequest cursor => (listPrompts order cursor st).1
  | GetPromptRequest prompt => (getPrompt order prompt st).1
  | ListResourcesRequest => (listResources order st).1
  | ReadResourceRequest uri => (readResource order uri st).1
  | ListResourceTemplatesRequest cursor =>
      (listResourceTemplates order cursor st).1
  end.

(** The periodic round of the health monitor, on the state of the proxy. *)
Definition healthRound (st : State) : State :=
  let r := Health.performHealthChecks (now st) (connectedClients st)
             (healthChecks st) (metricsManager (world st)) in
  setHealthChecks r.1 (setWorld (setManager r.2 (world st)) st).

End Proxy.

From Stdlib Require Import Lqa.

(** ** Selection strategies (selection-strategies.ts) *)

(** What the strategies read of a request: [request.params?.timeout] and
    [request.params?.priority]. *)
Record SelectionRequest := {
  timeout : option Q;
  priority : option string
}.

Record MCPSelectionResult := {
  selectedServer : option string;
  confidence : Q;
  reason : string;
  alternatives : list string;
  estimatedResponseTime : Q;
  strategy : string
}.

Module Selection.

(** [a < b] and [a > b] on numbers. *)
Definition lt (a b : Q) : bool := negb (Qle_bool b a).

(** [array.reduce(f)] without an initial value, on an array that may be
    empty (the strategies call it on non-empty arrays only). *)
Definition reduce {A} (f : A → A → A) (xs : list A) : option A :=
  match xs with
  | [] => None
  | x :: rest => Some (foldl f x rest)
  end.

(** The score all three classes compute with a private
    [calculateOverallScore]: unlike the metrics manager's, its reliability
    term is the success rate whatever the health bit. *)
Definition calculateOverallScore (m : MCPServerMetrics) : Q :=
  let performanceScore := Qmax 0 (1 - responseTime m / 5000)%Q in
  let reliabilityScore := successRate m in
  let loadScore := (1 - loadFactor m)%Q in
  (performanceScore * 0.3 + reliabilityScore * 0.3
   + capabilityScore m * 0.2 + loadScore * 0.2)%Q.

(** [array.sort((a, b) => score(b) - score(a))]: the sort is stable, so the
    result is the one insertion from the right gives, each element going in
    front of the first one whose score is not greater than its own. *)
Fixpoint insertByScore (x : MCPServerMetrics) (sorted : list MCPServerMetrics)
  : list MCPServerMetrics :=
  match sorted with
  | [] => [x]
  | y :: rest =>
      if Qle_bool (calculateOverallScore y) (calculateOverallScore x)
      then x :: y :: rest
      else y :: insertByScore x rest
  end.

Definition sortByScore (servers : list MCPServerMetrics)
  : list MCPServerMetrics :=
  foldr insertByScore [] servers.

Definition healthyOf (servers : list MCPServerMetrics) : list MCPServerMetrics :=
  filter (λ s, isHealthy s = true) servers.

(** [x || null] on a server name. *)
Definition nameOrNull (s : string) : option string :=
  match s with
  | EmptyString => None
  | _ => Some s
  end.

(** [QualityBasedStrategy.selectServer] *)
Definition selectQuality (availableServers : list MCPServerMetrics)
  : option string :=
  match availableServers with
  | [] => None
  | _ =>
      match sortByScore (healthyOf availableServers) with
      | [] => None
      | best :: _ => nameOrNull (serverName best)
      end
  end.

Definition faster (fastest current : MCPServerMetrics) : MCPServerMetrics :=
  if lt (responseTime current) (responseTime fastest) then current else fastest.

(** [PerformanceBasedStrategy.selectServer] *)
Definition selectPerformance (availableServers : list MCPServerMetrics)
  : option string :=
  match availableServers with
  | [] => None
  | _ => serverName <$> reduce faster (healthyOf availableServers)
  end.

Definition lessLoaded (least current : MCPServerMetrics) : MCPServerMetrics :=
  if lt (loadFactor current) (loadFactor least) then current else least.

(** [LoadBalancedStrategy.selectServer] *)
Definition selectLoadBalanced (availableServers : list MCPServerMetrics)
  : option string :=
  match availableServers with
  | [] => None
  | _ => serverName <$> reduce lessLoaded (healthyOf availableServers)
  end.

(** [RoundRobinStrategy.selectServer], with the [currentIndex] of the
    strategy object before and after. *)
Definition selectRoundRobin (currentIndex : nat)
  (availableServers : list MCPServerMetrics) : option string * nat :=
  match healthyOf availableServers with
  | [] => (None, currentIndex)
  | healthyServers =>
      (serverName
         <$> healthyServers !! (currentIndex `mod` length healthyServers)%nat,
       ((currentIndex + 1) `mod` length healthyServers)%nat)
  end.

Inductive RequestType := PerformanceCritical | ReliabilityCritical | Balanced.

(** A number is truthy unless it is 0. *)
Definition truthyNumber (x : option Q) : bool :=
  match x with
  | Some q => negb (Qeq_bool q 0)
  | None => false
  end.

(** [AdaptiveStrategy.detectRequestType] *)
Definition detectRequestType (request : SelectionRequest) : RequestType :=
  if truthyNumber (timeout request)
     && match timeout request with
        | Some t => lt t 1000
        | None => false
        end
  then PerformanceCritical
  else if match priority request with
          | Some p => String.eqb p "high"
          | None => false
          end
  then ReliabilityCritical
  else Balanced.

Definition moreReliable (most current : MCPServerMetrics) : MCPServerMetrics :=
  if lt (successRate most) (successRate current) then current else most.

Definition betterScore (best current : MCPServerMetrics) : MCPServerMetrics :=
  if lt (calculateOverallScore best) (calculateOverallScore current)
  then current else best.

(** [AdaptiveStrategy.selectServer] *)
Definition selectAdaptive (request : SelectionRequest)
  (availableServers : list MCPServerMetrics) : option string :=
  match healthyOf availableServers with
  | [] => None
  | healthyServers =>
      match detectRequestType request with
      | PerformanceCritical => serverName <$> reduce faster healthyServers
      | ReliabilityCritical => serverName <$> reduce moreReliable healthyServers
      | Balanced => serverName <$> reduce betterScore healthyServers
      end
  end.

(** The strategies the selector registers. *)
Inductive Strategy :=
  | Quality | Performance | LoadBalanced | RoundRobin | Adaptive.

Definition strategyName (s : Strategy) : string :=
  match s with
  | Quality => "Quality-Based Selection"
  | Performance => "Performance-Based Selection"
  | LoadBalanced => "Load-Balanced Selection"
  | RoundRobin => "Round-Robin Selection"
  | Adaptive => "Adaptive Selection"
  end.

Definition strategyDescription (s : Strategy) : string :=
  match s with
  | Quality => "选择综合质量评分最高的服务器"
  | Performance => "选择响应时间最短的服务器"
  | LoadBalanced => "选择负载最低的服务器"
  | RoundRobin => "轮询选择服务器"
  | Adaptive => "根据请求类型和服务器特性自适应选择"
  end.

(** [this.strategies.get(strategyName) || this.defaultStrategy] *)
Definition lookupStrategy (name : string) : Strategy :=
  if String.eqb name "quality" then Quality
  else if String.eqb name "performance" then Performance
  else if String.eqb name "load-balanced" then LoadBalanced
  else if String.eqb name "round-robin" then RoundRobin
  else Adaptive.

(** The selector's only state is the index of its round-robin strategy. *)
Definition runStrategy (s : Strategy) (currentIndex : nat)
  (request : SelectionRequest) (availableServers : list MCPServerMetrics)
  : option string * nat :=
  match s with
  | Quality => (selectQuality availableServers, currentIndex)
  | Performance => (selectPerformance availableServers, currentIndex)
  | LoadBalanced => (selectLoadBalanced availableServers, currentIndex)
  | RoundRobin => selectRoundRobin currentIndex availableServers
  | Adaptive => (selectAdaptive request availableServers, currentIndex)
  end.

(** [findIndex], -1 when nothing is found. *)
Fixpoint findIndex {A} (p : A → bool) (xs : list A) : Z :=
  match xs with
  | [] => -1
  | x :: rest =>
      if p x then 0
      else let i := findIndex p rest in if i <? 0 then -1 else i + 1
  end.

(** [SmartSelector.calculateConfidence] *)
Definition calculateConfidence (selectedMetrics : option MCPServerMetrics)
  (allServers : list MCPServerMetrics) : Q :=
  match selectedMetrics with
  | None => 0%Q
  | Some selected =>
      match healthyOf allServers with
      | [] => 0%Q
      | healthyServers =>
          let sortedServers := sortByScore healthyServers in
          let rank :=
            findIndex (λ s, String.eqb (serverName s) (serverName selected))
              sortedServers in
          Qmax 0 (1 - inject_Z rank
                      / inject_Z (Z.of_nat (length healthyServers)))%Q
      end
  end.

(** [SmartSelector.getAlternatives] *)
Definition getAlternatives (selected : string)
  (availableServers : list MCPServerMetrics) : list string :=
  serverName
    <$> take 3
          (sortByScore
             (filter (λ s, isHealthy s = true ∧ serverName s ≠ selected)
                     availableServers)).

(** [SmartSelector.selectServer] *)
Definition selectServer (strategyKey : string) (currentIndex : nat)
  (request : SelectionRequest) (availableServers : list MCPServerMetrics)
  : MCPSelectionResult * nat :=
  let s := lookupStrategy strategyKey in
  let r := runStrategy s currentIndex request availableServers in
  match r.1 ≫= nameOrNull with
  | None =>
      ({| selectedServer := None;
          confidence := 0;
          reason := "No healthy servers available";
          alternatives := [];
          estimatedResponseTime := 0;
          strategy := strategyName s |},
       r.2)
  | Some selected =>
      let serverMetrics :=
        find (λ m, String.eqb (serverName m) selected) availableServers in
      ({| selectedServer := Some selected;
          confidence := calculateConfidence serverMetrics availableServers;
          reason := "Selected using " +:+ strategyName s +:+ ": "
                    +:+ strategyDescription s;
          alternatives := getAlternatives selected availableServers;
          estimatedResponseTime :=
            match serverMetrics with
            | Some m => responseTime m
            | None => 0%Q
            end;
          strategy := strategyName s |},
       r.2)
  end.

End Selection.

(** ** The strategies that rank by score, in the arithmetic of the machine *)

(** JavaScript computes the score in IEEE doubles: every operation returns
    its exact result rounded to a double, and the constants 0.3 and 0.2 of
    the source are the doubles nearest to them.  [fl] is that rounding.
    Two records whose exact scores are equal can so get different scores,
    which decides which of them a strategy picks.  The strategies that
    compare scores are given here over the rounded score; a comparison of
    two doubles, and the sign of their difference, is that of the numbers
    they stand for. *)
Module Ranking.

Section Rounding.

Variable fl : Q → Q.

Definition calculateOverallScore (m : MCPServerMetrics) : Q :=
  let performanceScore := Qmax 0 (fl (1 - fl (responseTime m / 5000)))%Q in
  let reliabilityScore := successRate m in
  let loadScore := fl (1 - loadFactor m)%Q in
  fl (fl (fl (fl (performanceScore * fl 0.3)
              + fl (reliabilityScore * fl 0.3))
          + fl (capabilityScore m * fl 0.2))
      + fl (loadScore * fl 0.2))%Q.

(** [array.sort((a, b) => score(b) - score(a))], stable. *)
Fixpoint insertByScore (x : MCPServerMetrics) (sorted : list MCPServerMetrics)
  : list MCPServerMetrics :=
  match sorted with
  | [] => [x]
  | y :: rest =>
      if Qle_bool (calculateOverallScore y) (calculateOverallScore x)
      then x :: y :: rest
      else y :: insertByScore x rest
  end.

Definition sortByScore (servers : list MCPServerMetrics)
  : list MCPServerMetrics :=
  foldr insertByScore [] servers.

(** [QualityBasedStrategy.selectServer] *)
Definition selectQuality (availableServers : list MCPServerMetrics)
  : option string :=
  match availableServers with
  | [] => None
  | _ =>
      match sortByScore (Selection.healthyOf availableServers) with
      | [] => None
      | best :: _ => Selection.nameOrNull (serverName best)
      end
  end.

Definition betterScore (best current : MCPServerMetrics) : MCPServerMetrics :=
  if Selection.lt (calculateOverallScore best) (calculateOverallScore current)
  then current else best.

(** [AdaptiveStrategy.selectServer] *)
Definition selectAdaptive (request : SelectionRequest)
  (availableServers : list MCPServerMetrics) : option string :=
  match Selection.healthyOf availableServers with
  | [] => None
  | healthyServers =>
      match Selection.detectRequestType request with
      | Selection.PerformanceCritical =>
          serverName <$> Selection.reduce Selection.faster healthyServers
      | Selection.ReliabilityCritical =>
          serverName <$> Selection.reduce Selection.moreReliable healthyServers
      | Selection.Balanced =>
          serverName <$> Selection.reduce betterScore healthyServers
      end
  end.

End Rounding.

End Ranking.

(** ** The helpers of the proxy that pick clients (mcp-proxy.ts) *)

(** [getStrictlyHealthyClients]: the connected clients whose health check
    record says healthy, each with its position. *)
Definition getStrictlyHealthyClients (st : State) : list (nat * string) :=
  (λ ic : nat * ConnectedClient, (ic.1, name ic.2))
    <$> filter (λ ic : nat * ConnectedClient,
                  isConnected ic.2
                  && match healthChecks st !! name ic.2 with
                     | Some healthStatus => hc_isHealthy healthStatus
                     | None => false
                     end = true)
               (imap pair (connectedClients st)).

(** [selectBestServer]: the selector runs on the metrics records of the
    connected clients that have one. *)
Definition selectBestServer (strategyKey : string) (currentIndex : nat)
  (request : SelectionRequest) (availableClients : list ConnectedClient)
  (mm : MetricsManager) : MCPSelectionResult * nat :=
  match filter (λ client, isConnected client = true) availableClients with
  | [] =>
      ({| selectedServer := None;
          confidence := 0;
          reason := "No connected servers available";
          alternatives := [];
          estimatedResponseTime := 0;
          strategy := strategyKey |},
       currentIndex)
  | healthyClients =>
      let availableMetrics :=
        omap (λ client, metrics mm !! name client) healthyClients in
      Selection.selectServer strategyKey currentIndex request availableMetrics
  end.

(** ** The averages of the monitoring dashboard (monitoring-dashboard.ts) *)

Module Dashboard.

Section Rounding.

(** The averages are computed in IEEE doubles: [fl] rounds the exact result
    of an operation to the double JavaScript returns.  The request and
    error counters are integers, which doubles hold exactly, so their sums
    and differences are not rounded. *)
Variable fl : Q → Q.

(** [calculateAverageResponseTime]: the mean response time of the servers
    that have handled requests, weighted by their number of requests. *)
Definition calculateAverageResponseTime (allMetrics : list MCPServerMetrics)
  : Q :=
  match allMetrics with
  | [] => 0%Q
  | _ =>
      match filter (λ m, 0 < totalRequests m) allMetrics with
      | [] => 0%Q
      | serversWithRequests =>
          let total :=
            foldl (λ sum m, sum + totalRequests m) 0 serversWithRequests in
          let weightedSum :=
            foldl (λ sum m,
                     fl (sum
                         + fl (responseTime m * inject_Z (totalRequests m)))%Q)
                  0%Q serversWithRequests in
          fl (weightedSum / inject_Z total)%Q
      end
  end.

(** [calculateAverageSuccessRate]: successful requests over requests, over
    the servers that have handled requests; 1 when none has. *)
Definition calculateAverageSuccessRate (allMetrics : list MCPServerMetrics)
  : Q :=
  match allMetrics with
  | [] => 0%Q
  | _ =>
      match filter (λ m, 0 < totalRequests m) allMetrics with
      | [] => 1%Q
      | serversWithRequests =>
          let total :=
            foldl (λ sum m, sum + totalRequests m) 0 serversWithRequests in
          let totalSuccessfulRequests :=
            foldl (λ sum m, sum + (totalRequests m - errorCount m)) 0
                  serversWithRequests in
          fl (inject_Z totalSuccessfulRequests / inject_Z total)%Q
      end
  end.

End Rounding.

End Dashboard.

(** ** Connecting to the configured servers (client.ts) *)

Module Client.

Inductive TransportConfig :=
  | SSEConfig (url : string)
  | StdioConfig (command : string) (args : list string)
      (env : option (list string)).

Record ServerConfig := {
  sc_name : string;
  transport : TransportConfig
}.

Inductive Transport :=
  | SSEClientTransport (url : string)
  | StdioClientTransport (command : string) (args : list string)
      (env : option (gmap string string)).

(** The [env] handed to a stdio transport: [reduce] over the listed
    variable names, whose callback returns an object with the one key [v]
    and does not spread the accumulator [o] into it. *)
Definition stdioEnv (processEnv : gmap string string)
  (env : option (list string)) : option (gmap string string) :=
  (λ vars,
     foldl (λ (o : gmap string string) v,
              {[ v := default EmptyString (processEnv !! v) ]})
           ∅ vars)
    <$> env.

(** What the model takes from outside: whether [new URL(url)] accepts a
    string, the environment of the process, and whether the attempt
    numbered [count] to connect to the server at position [i] succeeds. *)
Record Host := {
  validURL : string → bool;
  processEnv : gmap string string;
  connect : nat → nat → bool
}.

(** [createClient]: the transport, or nothing if creating it threw. *)
Definition createClient (host : Host) (server : ServerConfig)
  : option Transport :=
  match transport server with
  | SSEConfig url =>
      if validURL host url then Some (SSEClientTransport url) else None
  | StdioConfig command args env =>
      Some (StdioClientTransport command args (stdioEnv (processEnv host) env))
  end.

Definition waitFor : Z := 2500.
Definition retries : nat := 3.

(** What [createClients] has done so far: the clients pushed, the time
    (only the waits between attempts take time here), and the connection
    attempts made (server position and attempt number, most recent
    first). *)
Record Progress := {
  clients : list ConnectedClient;
  time : Z;
  attempts : list (nat * nat)
}.

(** The [while (retry)] loop for the server at position [i], entered with
    [count] failed attempts.  [fuel] bounds the number of iterations; the
    loop leaves by itself before [retries] iterations are made. *)
Fixpoint connectLoop (host : Host) (fuel count i : nat)
  (server : ServerConfig) (p : Progress) : Progress :=
  match fuel with
  | O => p
  | S fuel' =>
      match createClient host server with
      | None => p
      | Some _ =>
          let p := {| clients := clients p; time := time p;
                      attempts := (i, count) :: attempts p |} in
          if connect host i count then
            {| clients :=
                 clients p
                 ++ [{| name := sc_name server; isConnected := true;
                        lastError := None; lastErrorLogged := false |}];
               time := time p;
               attempts := attempts p |}
          else
            let count := S count in
            if (count <? retries)%nat then
              connectLoop host fuel' count i server
                {| clients := clients p; time := time p + waitFor;
                   attempts := attempts p |}
            else p
      end
  end.

(** [createClients] *)
Definition createClients (host : Host) (start : Z)
  (servers : list ServerConfig) : Progress :=
  foldl (λ p (entry : nat * ServerConfig),
           connectLoop host retries 0 entry.1 entry.2 p)
        {| clients := []; time := start; attempts := [] |}
        (imap pair servers).

End Client.

(** ** The functional health monitor (functional-health-monitor.ts) *)

Module Functional.

(** The part of [FunctionalTestConfig] the tests read. *)
Record FunctionalTestConfig := {
  timeoutMs : Z;
  enableToolsTest : bool;
  enablePromptsTest : bool;
  enableResourcesTest : bool
}.

(** The configuration the constructor starts from. *)
Definition defaultConfig : FunctionalTestConfig :=
  {| timeoutMs := 10000; enableToolsTest := true;
     enablePromptsTest := false; enableResourcesTest := false |}.

Record TestResult := {
  success : bool;
  tr_responseTime : Z;
  tr_errorMessage : option string
}.

Record FunctionalTestResult := {
  ft_serverName : string;
  timestamp : Z;
  ft_isHealthy : bool;
  ft_errorMessage : option string;
  ft_responseTime : Z;
  tools : option TestResult;
  prompts : option TestResult;
  resources : option TestResult
}.

Definition passed (startTime : Z) (w : World) : World * TestResult :=
  (w, {| success := true; tr_responseTime := clock w - startTime;
         tr_errorMessage := None |}).

Definition failed (startTime : Z) (message : string) (w : World)
  : World * TestResult :=
  (w, {| success := false; tr_responseTime := clock w - startTime;
         tr_errorMessage := Some message |}).

(** [executeWithTimeout(promise, timeoutMs)]: the request to upstream [c]
    has been sent when the timer is started, so the timer does not fire
    before an answer that takes [timeoutMs] ms arrives: that answer wins
    the race, and only a later one loses it.  (In the handlers of the proxy
    the timer is started first, see [request].) *)
Definition executeWithTimeout (c : nat) (timeoutMs : Z) : Operation :=
  λ w,
    let script := default [] (upstream w !! c) in
    let answer :=
      match script with
      | outcome :: _ =>
          if latency outcome <=? timeoutMs
          then (latency outcome, settled outcome)
          else (timeoutMs, Err "Request timeout")
      | [] => (timeoutMs, Err "Request timeout")
      end in
    ({| upstream := <[c := tail script]> (upstream w);
        clock := clock w + answer.1;
        metricsManager := metricsManager w |},
     answer.2).

(** [testToolsFunctionality] on upstream [i]. *)
Definition testToolsFunctionality (config : FunctionalTestConfig) (i : nat)
  (w : World) : World * TestResult :=
  let startTime := clock w in
  let r := executeWithTimeout i (timeoutMs config) w in
  match r.2 with
  | Err message => failed startTime message r.1
  | Ok toolsResult =>
      match entriesOf toolsResult with
      | None | Some [] => failed startTime "没有可用的工具" r.1
      | Some (firstTool :: _) =>
          match d_name firstTool with
          | EmptyString => passed startTime r.1
          | _ =>
              let r' := executeWithTimeout i (timeoutMs config) r.1 in
              match r'.2 with
              | Ok _ => passed startTime r'.1
              | Err errorMessage =>
                  if negb (includes "Connection" errorMessage)
                     && negb (includes "timeout" errorMessage)
                  then passed startTime r'.1
                  else failed startTime ("工具调用失败: " +:+ errorMessage) r'.1
              end
          end
      end
  end.

(** [testPromptsFunctionality] and [testResourcesFunctionality] *)
Definition testListFunctionality (config : FunctionalTestConfig) (i : nat)
  (w : World) : World * TestResult :=
  let startTime := clock w in
  let r := executeWithTimeout i (timeoutMs config) w in
  match r.2 with
  | Ok _ => passed startTime r.1
  | Err message => failed startTime message r.1
  end.

Definition testPromptsFunctionality := testListFunctionality.
Definition testResourcesFunctionality := testListFunctionality.

(** [`${label}: ${test.errorMessage}`] *)
Definition blame (label : string) (test : TestResult) : option string :=
  Some (label +:+ ": " +:+ default "undefined" (tr_errorMessage test)).

(** [testServerFunctionality] for the client named [server] at position
    [i]. *)
Definition testServerFunctionality (config : FunctionalTestConfig) (i : nat)
  (server : string) (w : World) : World * FunctionalTestResult :=
  let startTime := clock w in
  let t :=
    if enableToolsTest config
    then let r := testToolsFunctionality config i w in (r.1, Some r.2)
    else (w, None) in
  let healthy1 := default true (success <$> t.2) in
  let message1 := if healthy1 then None else t.2 ≫= blame "工具测试失败" in
  let p :=
    if enablePromptsTest config && healthy1
    then let r := testPromptsFunctionality config i t.1 in (r.1, Some r.2)
    else (t.1, None) in
  let healthy2 := healthy1 && default true (success <$> p.2) in
  let message2 :=
    if default true (success <$> p.2) then message1
    else p.2 ≫= blame "提示测试失败" in
  let q :=
    if enableResourcesTest config && healthy2
    then let r := testResourcesFunctionality config i p.1 in (r.1, Some r.2)
    else (p.1, None) in
  let healthy3 := healthy2 && default true (success <$> q.2) in
  let message3 :=
    if default true (success <$> q.2) then message2
    else q.2 ≫= blame "资源测试失败" in
  (q.1,
   {| ft_serverName := server;
      timestamp := clock q.1;
      ft_isHealthy := healthy3;
      ft_errorMessage := message3;
      ft_responseTime := clock q.1 - startTime;
      tools := t.2;
      prompts := p.2;
      resources := q.2 |}).

End Functional.

(** ** Vocabulary of the properties *)

(** The states a metrics manager can be in: it starts empty and is changed
    through its methods only. *)
Inductive ManagerReachable : MetricsManager → Prop :=
  | reach_empty : ManagerReachable Metrics.empty
  | reach_initialize now server mm :
      ManagerReachable mm →
      ManagerReachable (Metrics.initializeServer now server mm)
  | reach_record now server elapsed success mm :
      ManagerReachable mm →
      ManagerReachable (Metrics.recordRequest now server elapsed success mm)
  | reach_record_legacy now later server elapsed success mm :
      ManagerReachable mm →
      ManagerReachable
        (LegacyMetrics.recordRequest now later server elapsed success mm)
  | reach_unhealthy now server mm :
      ManagerReachable mm →
      ManagerReachable (Metrics.markServerUnhealthy now server mm)
  | reach_healthy now server mm :
      ManagerReachable mm →
      ManagerReachable (Metrics.markServerHealthy now server mm)
  | reach_capability now server score mm :
      ManagerReachable mm →
      ManagerReachable (Metrics.updateCapabilityScore now server score mm)
  | reach_cleanup now mm :
      ManagerReachable mm →
      ManagerReachable (Metrics.cleanupOldData now mm).

(** Two records that differ in the health bit at most. *)
Definition sameButHealth (m m' : MCPServerMetrics) : Prop :=
  serverName m' = serverName m
  ∧ errorCount m' = errorCount m
  ∧ totalRequests m' = totalRequests m
  ∧ successRate m' = successRate m
  ∧ responseTime m' = responseTime m
  ∧ loadFactor m' = loadFactor m
  ∧ lastUsed m' = lastUsed m
  ∧ capabilityScore m' = capabilityScore m.

(** Two managers with the same servers, whose records differ in the health
    bit at most. *)
Definition healthFrame (mm mm' : MetricsManager) : Prop :=
  ∀ server,
    match metrics mm !! server, metrics mm' !! server with
    | Some m, Some m' => sameButHealth m m'
    | None, None => True
    | _, _ => False
    end.

(** The quality score the specification derives from a record. *)
Definition scoreMatches (m : MCPServerMetrics) (q : MCPQualityScore) : Prop :=
  performanceScore q = Qmax 0 (1 - responseTime m / 5000)%Q
  ∧ reliabilityScore q = (if isHealthy m then successRate m else 0%Q)
  ∧ loadScore q = (1 - loadFactor m)%Q
  ∧ qs_capabilityScore q = capabilityScore m
  ∧ (overallScore q ==
       0.30 * performanceScore q + 0.30 * reliabilityScore q
       + 0.20 * qs_capabilityScore q + 0.20 * loadScore q)%Q.

(** The invariant of the manager: the counters of every record are ordered,
    and every record has a quality score derived from it. *)
Definition managerInvariant (mm : MetricsManager) : Prop :=
  ∀ server m,
    metrics mm !! server = Some m →
    0 ≤ errorCount m ≤ totalRequests m
    ∧ ∃ q, qualityScores mm !! server = Some q ∧ scoreMatches m q.


(** What one recorded request does to the counters of a record. *)
Definition countedOnce (success : bool) (m m' : MCPServerMetrics) : Prop :=
  0 ≤ errorCount m' ≤ totalRequests m'
  ∧ 0 < totalRequests m'
  ∧ successRate m'
    = (1 - inject_Z (errorCount m') / inject_Z (totalRequests m'))%Q
  ∧ totalRequests m' = totalRequests m + 1
  ∧ errorCount m' = (if success then errorCount m else errorCount m + 1).

(** A manager with one freshly initialised server, for the examples. *)
Definition oneServer : MetricsManager :=
  Metrics.initializeServer 0 "A" Metrics.empty.


(** *** The retry wrapper *)

(** The attempts among some events, each with its number and its outcome
    ([None] for a success, the error message for a failure). *)
Fixpoint attemptsOf (events : list Event) : list (nat * option string) :=
  match events with
  | [] => []
  | EvSuccess _ _ attempt :: rest => (attempt, None) :: attemptsOf rest
  | EvFailure _ _ attempt message :: rest =>
      (attempt, Some message) :: attemptsOf rest
  | _ :: rest => attemptsOf rest
  end.

(** The attempts of one run of the wrapper, first to last: they are numbered
    from [attempt] on; an attempt that is followed by another is a failure
    with a connection error and had a retry left; the last one decides the
    result, and if it is a connection error no retry is left. *)
Fixpoint runFrom (retriesLeft attempt : nat)
  (attempts : list (nat * option string)) (result : Res Payload) : Prop :=
  match attempts with
  | [] => False
  | (a, outcome) :: later =>
      a = attempt
      ∧ match later with
        | [] =>
            match outcome with
            | None => ∃ value, result = Ok value
            | Some message =>
                result = Err message
                ∧ (isConnectionError message = true → retriesLeft = O)
            end
        | _ :: _ =>
            ∃ message retriesLeft',
              outcome = Some message
              ∧ isConnectionError message = true
              ∧ retriesLeft = S retriesLeft'
              ∧ runFrom retriesLeft' (S attempt) later result
        end
  end.

(** What a failed attempt leaves of the world for what comes next: the
    upstreams and the clock are as the operation left them, and so is the
    metrics manager, unless the server has been marked unhealthy in it. *)
Definition afterFailure (server : string) (w w' : World) : Prop :=
  upstream w' = upstream w
  ∧ clock w' = clock w
  ∧ (metricsManager w' = metricsManager w
     ∨ metricsManager w'
       = Metrics.markServerUnhealthy (clock w) server (metricsManager w)).

(** One run of the wrapper as the calls of [operation] it makes, for the
    attempts it logs (first to last): every attempt is one call of
    [operation], on the world the run starts in or on the world the failed
    attempt before it left, [2^attempt × 1000] ms later; its outcome is the
    outcome of that call.  A call that returns a value ends the run with
    that value; a call that fails with a business error, or with no retry
    left, ends it with the error of that call; [final] is the world the run
    ends in. *)
Fixpoint callsFrom (operation : Operation) (server : string)
  (retriesLeft : nat) (w : World) (attempts : list (nat * option string))
  (result : Res Payload) (final : World) : Prop :=
  match attempts with
  | [] => False
  | (attempt, outcome) :: later =>
      match (operation w).2 with
      | Ok value =>
          outcome = None ∧ later = [] ∧ result = Ok value
          ∧ final = (operation w).1
      | Err message =>
          outcome = Some message
          ∧ ∃ w',
              afterFailure server (operation w).1 w'
              ∧ match retriesLeft with
                | S retriesLeft' =>
                    if isConnectionError message
                    then callsFrom operation server retriesLeft'
                           (setClock (clock w' + 2 ^ Z.of_nat attempt * 1000) w')
                           later result final
                    else later = [] ∧ result = Err message ∧ final = w'
                | O => later = [] ∧ result = Err message ∧ final = w'
                end
      end
  end.

(** The retry budget of an attempt: at most one retry for a tool call, at
    most two for every other upstream method. *)
Definition budgetOf (method : Method) : nat :=
  match method with
  | ToolsCall => 1
  | _ => 2
  end.

Definition withinBudget (e : Event) : Prop :=
  match e with
  | EvSuccess _ method attempt => (attempt ≤ budgetOf method)%nat
  | EvFailure _ method attempt _ => (attempt ≤ budgetOf method)%nat
  | _ => True
  end.

(** *** The bookkeeping of consecutive failures, in the specification's
    words *)








(** *** The states of the proxy *)

(** What happens to a client object from outside the handlers. *)
Inductive TransportEvent :=
  | TransportError (message : string)
  | TransportClose
  | SSEProbe (readyState : Z).

Definition applyTransport (ev : TransportEvent) : ConnectedClient → ConnectedClient :=
  match ev with
  | TransportError message => onTransportError message
  | TransportClose => onTransportClose
  | SSEProbe readyState => checkSSEConnection readyState
  end.

(** The states the proxy can be in: it starts from [createServer]; a request
    is handled, the promises of its fan-out settling in some order; the
    health monitor makes its round, or is triggered by hand for one client;
    a transport reports an error or a close; the metrics manager drops its
    old records; time passes. *)
Inductive Reachable : State → Prop :=
  | reach_start start clients scripts :
      Reachable (Proxy.createServer start clients scripts)
  | reach_handle order request st :
      Reachable st →
      order ≡ₚ Proxy.getHealthyClients st →
      Reachable (Proxy.handle order request st)
  | reach_round st :
      Reachable st → Reachable (Proxy.healthRound st)
  | reach_trigger i st :
      Reachable st → Reachable (Proxy.triggerHealthCheck i st)
  | reach_transport i ev st :
      Reachable st →
      Reachable
        (setClients (alter (applyTransport ev) i (connectedClients st)) st)
  | reach_cleanup_metrics st :
      Reachable st →
      Reachable
        (setWorld
           (setManager
              (Metrics.cleanupOldData (now st) (metricsManager (world st)))
              (world st))
           st)
  | reach_time dt st :
      Reachable st → 0 ≤ dt →
      Reachable (setWorld (setClock (now st + dt) (world st)) st).

(** The marks a failed attempt calls for. *)
Definition marksFor (server : string) (errorMessage : string) (st : State)
  : list Event :=
  if isConnectionError errorMessage
     && Health.shouldMarkUnhealthy (healthChecks st) server
          (failureCount st server + 1)
  then [EvMarkUnhealthy server (failureCount st server + 1)]
  else [].


(** *** How a handler moves the state *)

(** A step that leaves the log and the failure counters alone, forgets no
    health check and renames no client. *)
Definition silent (st st' : State) : Prop :=
  log st' = log st
  ∧ failureCounts st' = failureCounts st
  ∧ dom (healthChecks st) ⊆ dom (healthChecks st')
  ∧ name <$> connectedClients st' = name <$> connectedClients st.

(** A handler moves the state by silent steps and by runs of the retry
    wrapper, each for a server that [known] holds of, and with no more
    retries than the method it asks for is allowed. *)
Inductive Grows (known : string → Prop) (st1 : State) : State → Prop :=
  | grows_refl : Grows known st1 st1
  | grows_silent st2 st3 :
      Grows known st1 st2 → silent st2 st3 → Grows known st1 st3
  | grows_run st2 server method operation maxRetries :
      Grows known st1 st2 →
      known server →
      (maxRetries ≤ budgetOf method)%nat →
      Grows known st1
        (Proxy.executeWithRetry server method operation maxRetries st2).1.

(** *** States for the examples *)

Definition clientA : ConnectedClient :=
  {| name := "A"; isConnected := true; lastError := None;
     lastErrorLogged := false |}.

Definition clientB : ConnectedClient :=
  {| name := "B"; isConnected := true; lastError := None;
     lastErrorLogged := false |}.

(** An upstream that refuses every connection. *)
Definition refusing : list Outcome :=
  replicate 6 {| latency := 5; settled := Err "ECONNREFUSED" |}.

(** One upstream, A, that refuses every connection and is routed to for
    the tool [t1] and the prompt [p1]. *)
Definition routedToRefusing : State :=
  setPrompts {[ "p1" := 0%nat ]}
    (setTools {[ "t1" := 0%nat ]}
       (Proxy.createServer 0 [clientA] {[ 0%nat := refusing ]})).




(** An upstream, A, that lists the tool [t1] once and refuses every
    connection from then on. *)
Definition toolT1 : Descriptor :=
  {| d_name := "t1"; d_uri := "urn:t1"; d_description := Some "does X" |}.

Definition listsThenRefuses : list Outcome :=
  {| latency := 5; settled := Ok (Listing (Some [toolT1])) |} :: refusing.

Definition started : State :=
  Proxy.createServer 0 [clientA] {[ 0%nat := listsThenRefuses ]}.

(** [tools/list], then three calls of [t1]. *)
Definition afterThreeCalls : State :=
  Proxy.handle [] (Proxy.CallToolRequest "t1")
    (Proxy.handle [] (Proxy.CallToolRequest "t1")
       (Proxy.handle [(0%nat, "A")] (Proxy.CallToolRequest "t1")
          (Proxy.handle [(0%nat, "A")] Proxy.ListToolsRequest started))).

(** *** Listings *)

(** The script upstream [i] still has to play. *)
Definition scriptOf (st : State) (i : nat) : list Outcome :=
  default [] (upstream (world st) !! i).

(** What a request sent through the retry wrapper comes to, for an upstream
    that plays [script]: its first answer in time that is a value, or the
    error the wrapper stops at. *)
Fixpoint scriptResult (retriesLeft : nat) (timeoutMs : Z)
  (script : list Outcome) : Res Payload :=
  let answer :=
    match script with
    | outcome :: _ =>
        if latency outcome <? timeoutMs then settled outcome
        else Err "Request timeout"
    | [] => Err "Request timeout"
    end in
  match answer with
  | Ok value => Ok value
  | Err message =>
      match retriesLeft with
      | O => Err message
      | S retriesLeft' =>
          if isConnectionError message
          then scriptResult retriesLeft' timeoutMs (tail script)
          else Err message
      end
  end.

(** Whether upstream [i] succeeds on a list request made in state [st]. *)
Definition succeeds (st : State) (i : nat) : Prop :=
  ∃ result,
    scriptResult Proxy.defaultMaxRetries 10000 (scriptOf st i) = Ok result.

(** The descriptors upstream [i] returns to a list request made in state
    [st]: those of its listing when it succeeds, none when it fails. *)
Definition returned (st : State) (i : nat) : list Descriptor :=
  match scriptResult Proxy.defaultMaxRetries 10000 (scriptOf st i) with
  | Ok result => default [] (entriesOf result)
  | Err _ => []
  end.

(** The shape the tasks of the four list handlers share. *)
Definition listTask (method : Method)
  (store : nat → list Descriptor → State → State)
  (decorate : string → Descriptor → Descriptor)
  (onError : nat → string → State → State) : Proxy.Task :=
  λ i server st,
    let r := Proxy.executeWithRetry server method (request i 10000)
               Proxy.defaultMaxRetries st in
    match r.2 with
    | Ok result =>
        match entriesOf result with
        | Some entries => (store i entries r.1, decorate server <$> entries)
        | None => (r.1, [])
        end
    | Err errorMessage => (onError i errorMessage r.1, [])
    end.

(** The entries of a routing table after upstream [i] returned [entries]. *)
Definition routed (key : Descriptor → string) (i : nat)
  (entries : list Descriptor) (table : gmap string nat) : gmap string nat :=
  foldl (λ t d, <[key d := i]> t) table entries.

(** The names a listing was asked for, in the order of [healthyClients]. *)
Definition merged (decorate : string → Descriptor → Descriptor) (st : State)
  (healthyClients : list (nat * string)) : list Descriptor :=
  concat ((λ ic : nat * string, decorate ic.2 <$> returned st ic.1)
            <$> healthyClients).

(** A routing table holds exactly the names the connected upstreams
    returned: every entry routes a name to a connected upstream that
    returned it, and every name a connected upstream returned has an entry.
    (An upstream that fails returns nothing, see [returned].) *)
Definition rebuiltFrom (key : Descriptor → string) (st : State)
  (healthyClients : list (nat * string)) (table : gmap string nat) : Prop :=
  (∀ n i, table !! n = Some i →
     ∃ server, (i, server) ∈ healthyClients ∧ n ∈ key <$> returned st i)
  ∧ (∀ n i server, (i, server) ∈ healthyClients →
       n ∈ key <$> returned st i → is_Some (table !! n)).

(** An upstream, A, that lists one resource template, in a state whose
    resource table has an entry left from before. *)
Definition templateX : Descriptor :=
  {| d_name := "tpl"; d_uri := "file:///{path}"; d_description := None |}.

Definition withStaleResource : State :=
  setResources {[ "stale" := 0%nat ]}
    (Proxy.createServer 0 [clientA]
       {[ 0%nat := [ {| latency := 5;
                        settled := Ok (Listing (Some [templateX])) |} ] ]}).

(** The parts of the four list tasks, named for the proofs. *)
Definition storeTools (i : nat) (entries : list Descriptor) (st : State) : State :=
  foldl (λ s tool, setTools (<[d_name tool := i]> (toolToClientMap s)) s)
        st entries.

Definition storePrompts (i : nat) (entries : list Descriptor) (st : State)
  : State :=
  foldl (λ s prompt, setPrompts (<[d_name prompt := i]> (promptToClientMap s)) s)
        st entries.

Definition storeResources (i : nat) (entries : list Descriptor) (st : State)
  : State :=
  foldl (λ s resource,
           setResources (<[d_uri resource := i]> (resourceToClientMap s)) s)
        st entries.

Definition storeNothing (i : nat) (entries : list Descriptor) (st : State)
  : State := st.

Definition demoteAlways (i : nat) (errorMessage : string) (st : State) : State :=
  Proxy.triggerHealthCheck i (Proxy.demote i errorMessage st).

Definition demoteOnConnectionError (i : nat) (errorMessage : string)
  (st : State) : State :=
  if isConnectionError errorMessage then demoteAlways i errorMessage st else st.

(** Two upstreams: A lists the tool [t1]; B refuses the connection and then
    stays silent. *)
Definition oneUpOneDown : State :=
  Proxy.createServer 0 [clientA; clientB]
    {[ 0%nat := [ {| latency := 5; settled := Ok (Listing (Some [toolT1])) |} ];
       1%nat := [ {| latency := 5; settled := Err "ECONNREFUSED" |} ] ]}.

(** One upstream, A, that answers its next request with a business error. *)
Definition rejectsParameters : State :=
  Proxy.createServer 0 [clientA]
    {[ 0%nat := [ {| latency := 5; settled := Err "Invalid parameters" |} ] ]}.



(** ** Vocabulary of the further properties *)

(** [y] is the first best element of [l]: those before it are strictly
    worse, those after it are not better, where [better a b] reads "[a] is
    strictly better than [b]". *)
Definition firstBest {A} (better : A → A → Prop) (l : list A) (y : A) : Prop :=
  ∃ before after,
    l = before ++ y :: after
    ∧ (∀ z, z ∈ before → better y z)
    ∧ (∀ z, z ∈ after → ¬ better z y).

Definition fasterThan (a b : MCPServerMetrics) : Prop :=
  (responseTime a < responseTime b)%Q.

Definition lighterThan (a b : MCPServerMetrics) : Prop :=
  (loadFactor a < loadFactor b)%Q.

Definition moreReliableThan (a b : MCPServerMetrics) : Prop :=
  (successRate b < successRate a)%Q.

Definition scoresAbove (a b : MCPServerMetrics) : Prop :=
  (Selection.calculateOverallScore b < Selection.calculateOverallScore a)%Q.

(** [a] ranks above [b] by the score the machine computes, with [fl]
    rounding the result of every operation. *)
Definition ranksAbove (fl : Q → Q) (a b : MCPServerMetrics) : Prop :=
  (Ranking.calculateOverallScore fl b < Ranking.calculateOverallScore fl a)%Q.

(** The step of a [reduce] that keeps the better of two elements, the
    earlier one when neither is better. *)
Definition keep {A} (betterb : A → A → bool) (acc cur : A) : A :=
  if betterb cur acc then cur else acc.

(** [s] is a healthy server of [servers] that no healthy server of [servers]
    is better than, and the first such one. *)
Definition bestHealthy (better : MCPServerMetrics → MCPServerMetrics → Prop)
  (servers : list MCPServerMetrics) (s : MCPServerMetrics) : Prop :=
  s ∈ servers
  ∧ isHealthy s = true
  ∧ firstBest better (Selection.healthyOf servers) s
  ∧ ∀ z, z ∈ servers → isHealthy z = true → ¬ better z s.

(** Successive selections of the round-robin strategy on the same servers. *)
Fixpoint roundRobinRun (calls currentIndex : nat)
  (servers : list MCPServerMetrics) : list (option string) * nat :=
  match calls with
  | O => ([], currentIndex)
  | S calls' =>
      let r := Selection.selectRoundRobin currentIndex servers in
      let rest := roundRobinRun calls' r.2 servers in
      (r.1 :: rest.1, rest.2)
  end.

(** Three servers for the examples: X fast, Y reliable, Z unhealthy. *)
Definition serverX : MCPServerMetrics :=
  {| serverName := "X"; responseTime := 100; successRate := 0.95;
     errorCount := 5; totalRequests := 100; lastUsed := 0;
     isHealthy := true; loadFactor := 0.5; capabilityScore := 1 |}.

Definition serverY : MCPServerMetrics :=
  {| serverName := "Y"; responseTime := 800; successRate := 0.999;
     errorCount := 1; totalRequests := 1000; lastUsed := 0;
     isHealthy := true; loadFactor := 0.2; capabilityScore := 1 |}.

Definition serverZ : MCPServerMetrics :=
  {| serverName := "Z"; responseTime := 10; successRate := 1;
     errorCount := 0; totalRequests := 10; lastUsed := 0;
     isHealthy := false; loadFactor := 0; capabilityScore := 1 |}.

(** The request carries a timeout that is not 0 and is below one second. *)
Definition urgent (request : SelectionRequest) : Prop :=
  ∃ t, timeout request = Some t ∧ ¬ (t == 0)%Q ∧ (t < 1000)%Q.

(** The order the adaptive strategy optimises for a request. *)
Definition adaptiveOrder (fl : Q → Q) (request : SelectionRequest)
  (better : MCPServerMetrics → MCPServerMetrics → Prop) : Prop :=
  (urgent request → better = fasterThan)
  ∧ (¬ urgent request → priority request = Some "high" →
       better = moreReliableThan)
  ∧ (¬ urgent request → priority request ≠ Some "high" →
       better = ranksAbove fl).

(** *** Roundings for the examples *)

(** The integer nearest to [q], the even one of the two when [q] lies
    halfway between them. *)
Definition roundEven (q : Q) : Z :=
  let below := Qfloor q in
  match (q - inject_Z below ?= 1 # 2)%Q with
  | Lt => below
  | Gt => below + 1
  | Eq => if Z.even below then below else below + 1
  end.

(** Rounding to the nearest number with a significand of 53 bits, ties to
    even: the rounding of IEEE doubles, away from overflow and underflow.
    [exponent] is the integer with [2^exponent ≤ |q| < 2^(exponent + 1)]. *)
Definition binary64 (q : Q) : Q :=
  if Qeq_bool q 0 then 0%Q
  else
    let magnitude := Qabs q in
    let guess := Z.log2 (Qnum magnitude) - Z.log2 (Zpos (Qden magnitude)) in
    let exponent :=
      if Qle_bool (Qpower 2 guess) magnitude then guess else guess - 1 in
    let scale := Qpower 2 (52 - exponent) in
    Qred (inject_Z (roundEven (q * scale)) / scale)%Q.

(** Rounding to the nearest multiple of 1/1024, halves upwards. *)
Definition toGrid (q : Q) : Q :=
  (inject_Z (Qfloor (q * 1024 + (1 # 2))) / 1024)%Q.

(** Two healthy servers whose exact scores are both 0.9: in doubles T1
    scores 0.3 + 0.3 + 0.1 + 0.2 = 0.8999999999999999 and T2 scores
    0.3 + 0.3 + 0.2 + 0.1 = 0.9. *)
Definition serverT1 : MCPServerMetrics :=
  {| serverName := "T1"; responseTime := 0; successRate := 1;
     errorCount := 0; totalRequests := 10; lastUsed := 0;
     isHealthy := true; loadFactor := 0; capabilityScore := 0.5 |}.

Definition serverT2 : MCPServerMetrics :=
  {| serverName := "T2"; responseTime := 0; successRate := 1;
     errorCount := 0; totalRequests := 10; lastUsed := 0;
     isHealthy := true; loadFactor := 0.5; capabilityScore := 1 |}.

(** The record as the metrics manager scores it: the success rate of a
    server that is marked unhealthy counts as 0. *)
Definition asScored (m : MCPServerMetrics) : MCPServerMetrics :=
  if isHealthy m then m
  else
    {| serverName := serverName m;
       responseTime := responseTime m;
       successRate := 0;
       errorCount := errorCount m;
       totalRequests := totalRequests m;
       lastUsed := lastUsed m;
       isHealthy := isHealthy m;
       loadFactor := loadFactor m;
       capabilityScore := capabilityScore m |}.

(** Every record of the manager has a quality score, and its overall score
    is the number the strategies compute for [asScored] of the record. *)
Definition scoredAsRanked (mm : MetricsManager) : Prop :=
  ∀ server m,
    metrics mm !! server = Some m →
    ∃ q, qualityScores mm !! server = Some q
         ∧ overallScore q = Selection.calculateOverallScore (asScored m).

(** Every record of the manager is stored under its own server name. *)
Definition storedUnderName (mm : MetricsManager) : Prop :=
  ∀ server m, metrics mm !! server = Some m → serverName m = server.

(** The states of the metrics manager under a clock that does not run
    backwards, with the time of the latest call; the durations it is given
    are not negative. *)
Inductive ManagerAt : Z → MetricsManager → Prop :=
  | at_empty now : ManagerAt now Metrics.empty
  | at_later now now' mm :
      ManagerAt now mm → now ≤ now' → ManagerAt now' mm
  | at_initialize now server mm :
      ManagerAt now mm →
      ManagerAt now (Metrics.initializeServer now server mm)
  | at_record now server elapsed success mm :
      ManagerAt now mm → (0 <= elapsed)%Q →
      ManagerAt now (Metrics.recordRequest now server elapsed success mm)
  | at_unhealthy now server mm :
      ManagerAt now mm →
      ManagerAt now (Metrics.markServerUnhealthy now server mm)
  | at_healthy now server mm :
      ManagerAt now mm →
      ManagerAt now (Metrics.markServerHealthy now server mm)
  | at_capability now server score mm :
      ManagerAt now mm →
      ManagerAt now (Metrics.updateCapabilityScore now server score mm)
  | at_cleanup now mm :
      ManagerAt now mm → ManagerAt now (Metrics.cleanupOldData now mm).

Definition unitInterval (x : Q) : Prop := (0 <= x <= 1)%Q.

Definition recordInRange (now : Z) (m : MCPServerMetrics) : Prop :=
  0 ≤ errorCount m ≤ totalRequests m
  ∧ lastUsed m ≤ now
  ∧ (0 <= responseTime m)%Q
  ∧ unitInterval (successRate m)
  ∧ unitInterval (loadFactor m)
  ∧ unitInterval (capabilityScore m).

Definition scoreInRange (q : MCPQualityScore) : Prop :=
  unitInterval (overallScore q)
  ∧ unitInterval (performanceScore q)
  ∧ unitInterval (reliabilityScore q)
  ∧ unitInterval (qs_capabilityScore q)
  ∧ unitInterval (loadScore q).

Definition managerInRange (now : Z) (mm : MetricsManager) : Prop :=
  (∀ server m, metrics mm !! server = Some m → recordInRange now m)
  ∧ (∀ server q, qualityScores mm !! server = Some q → scoreInRange q).

(** 24 hours, in ms. *)
Definition maxAge : Z := 86400000.

(** *** Sums over servers *)

Definition sumZ {A} (f : A → Z) (l : list A) : Z :=
  foldr (λ x sum, f x + sum) 0 l.

Definition withRequests (l : list MCPServerMetrics) : list MCPServerMetrics :=
  filter (λ m, 0 < totalRequests m) l.

(** What the averages need of a rounding: it keeps the order of the
    numbers it rounds, and it leaves 0 and 1 as they are.  The rounding of
    IEEE doubles does both. *)
Definition monotone (fl : Q → Q) : Prop :=
  ∀ x y, (x <= y)%Q → (fl x <= fl y)%Q.

Definition exactAt (fl : Q → Q) (x : Q) : Prop := (fl x == x)%Q.

(** [m'] is the record [m] with a response time that is not lower. *)
Definition notFaster (m m' : MCPServerMetrics) : Prop :=
  totalRequests m' = totalRequests m
  ∧ (responseTime m <= responseTime m')%Q.

(** A server whose response time is the double nearest to 0.72, after
    three requests. *)
Definition serverR : MCPServerMetrics :=
  {| serverName := "R"; responseTime := binary64 0.72; successRate := 1;
     errorCount := 0; totalRequests := 3; lastUsed := 0;
     isHealthy := true; loadFactor := 0; capabilityScore := 1 |}.

(** The success rate of a record is the one its counters give. *)
Definition rateMatches (m : MCPServerMetrics) : Prop :=
  0 < totalRequests m →
  successRate m
  = (1 - inject_Z (errorCount m) / inject_Z (totalRequests m))%Q.

(** *** Connecting at startup *)

(** The number of the first attempt at which the server at position [i]
    connects, if its transport can be created and one of the attempts the
    loop makes succeeds. *)
Definition connectsAt (host : Client.Host) (i : nat)
  (server : Client.ServerConfig) : option nat :=
  match Client.createClient host server with
  | None => None
  | Some _ => find (Client.connect host i) (seq 0 Client.retries)
  end.

(** The connection attempts made for a server, and the waits between
    them. *)
Definition attemptsMade (host : Client.Host) (i : nat)
  (server : Client.ServerConfig) : nat :=
  match Client.createClient host server with
  | None => 0
  | Some _ =>
      match connectsAt host i server with
      | Some k => S k
      | None => Client.retries
      end
  end.

Definition waitsMade (host : Client.Host) (entry : nat * Client.ServerConfig)
  : Z :=
  Z.of_nat (Nat.pred (attemptsMade host entry.1 entry.2)).

(** The client object pushed for a server that connected. *)
Definition freshClient (server : Client.ServerConfig) : ConnectedClient :=
  {| name := Client.sc_name server; isConnected := true; lastError := None;
     lastErrorLogged := false |}.

Definition connectedEntry (host : Client.Host)
  (entry : nat * Client.ServerConfig) : option ConnectedClient :=
  match connectsAt host entry.1 entry.2 with
  | Some _ => Some (freshClient entry.2)
  | None => None
  end.


(** *** The periodic round of the health monitor *)

(** The client checked last among those named [server]. *)
Definition lastNamed (server : string) (clients : list ConnectedClient)
  : option ConnectedClient :=
  last (filter (λ client, name client = server) clients).

(** The check record the periodic check writes for a client. *)
Definition periodicRecord (now : Z) (client : ConnectedClient)
  : MCPHealthCheck :=
  {| hc_serverName := name client;
     hc_isHealthy := (Health.periodicVerdict client).1;
     lastCheck := now;
     errorMessage := (Health.periodicVerdict client).2;
     hc_responseTime := Some 0 |}.

(** *** What no step of the proxy does *)

(** A client object at a later time: it has kept its name, and if it is
    connected nothing of it has changed. *)
Definition laterClient (c c' : ConnectedClient) : Prop :=
  name c' = name c ∧ (isConnected c' = true → c' = c).

(** A step that adds, drops, renames or reconnects no client and moves the
    metrics manager within the relation [M]. *)
Definition settlesBy (M : MetricsManager → MetricsManager → Prop)
  (st st' : State) : Prop :=
  Forall2 laterClient (connectedClients st) (connectedClients st')
  ∧ M (metricsManager (world st)) (metricsManager (world st')).

(** An operation that moves the metrics manager within [M]. *)
Definition tameBy (M : MetricsManager → MetricsManager → Prop)
  (operation : Operation) : Prop :=
  ∀ w, M (metricsManager w) (metricsManager (operation w).1).

(** The manager is changed through its methods only. *)
Definition byMethods (mm mm' : MetricsManager) : Prop :=
  ManagerReachable mm → ManagerReachable mm'.

(** One step of the proxy: a request is handled, the health monitor makes
    its round or is triggered for one client, a transport reports, the
    metrics manager drops its old records, time passes. *)
Inductive Step : State → State → Prop :=
  | step_handle order request st :
      order ≡ₚ Proxy.getHealthyClients st →
      Step st (Proxy.handle order request st)
  | step_round st : Step st (Proxy.healthRound st)
  | step_trigger i st : Step st (Proxy.triggerHealthCheck i st)
  | step_transport i ev st :
      Step st
        (setClients (alter (applyTransport ev) i (connectedClients st)) st)
  | step_cleanup_metrics st :
      Step st
        (setWorld
           (setManager
              (Metrics.cleanupOldData (now st) (metricsManager (world st)))
              (world st))
           st)
  | step_time dt st :
      0 ≤ dt → Step st (setWorld (setClock (now st + dt) (world st)) st).

(** The state without its client objects. *)
Definition forgetClients (st : State) : State := setClients [] st.

(** The state in which the client at position [i] has been disconnected
    with [message]. *)
Definition withDisconnected (i : nat) (message : string) (st : State)
  : State :=
  setClients (alter (disconnected message) i (connectedClients st)) st.

(** The rebuild a call handler makes for a name it has no route for keeps
    the descriptors as they are and does nothing about an upstream that
    fails. *)
Definition asListed (server : string) (d : Descriptor) : Descriptor := d.

Definition ignoreError (i : nat) (errorMessage : string) (st : State)
  : State := st.

(** *** What the metrics count *)

Definition requestsOf (mm : MetricsManager) (server : string) : Z :=
  default 0 (totalRequests <$> metrics mm !! server).

Definition errorsOf (mm : MetricsManager) (server : string) : Z :=
  default 0 (errorCount <$> metrics mm !! server).

(** The failed ones among some attempts. *)
Definition failuresIn (attempts : list (nat * option string)) : nat :=
  length (filter (λ a : nat * option string, is_Some a.2) attempts).

(** Two upstreams, A and B, that both list the tool [t1]. *)
Definition bothListT1 : State :=
  Proxy.createServer 0 [clientA; clientB]
    {[ 0%nat := [ {| latency := 5; settled := Ok (Listing (Some [toolT1])) |} ];
       1%nat := [ {| latency := 9; settled := Ok (Listing (Some [toolT1])) |} ] ]}.

(** *** The functional tests *)

(** What an upstream that plays [script] answers in time to a request of
    the monitor: its next answer if that takes no more than [timeoutMs] ms,
    and a timeout otherwise. *)
Definition answer (timeoutMs : Z) (script : list Outcome) : Res Payload :=
  match script with
  | outcome :: _ =>
      if decide (latency outcome ≤ timeoutMs) then settled outcome
      else Err "Request timeout"
  | [] => Err "Request timeout"
  end.

(** An upstream whose answers take exactly [ms] ms: it lists the tool [t1]
    and then answers the call of it. *)
Definition answersAfter (ms : Z) : World :=
  {| upstream :=
       {[ 0%nat := [ {| latency := ms;
                        settled := Ok (Listing (Some [toolT1])) |};
                     {| latency := ms; settled := Ok (Content "done") |} ] ]};
     clock := 0;
     metricsManager := Metrics.empty |}.

(** The functional monitor's own reading of an error as a connection
    error. *)
Definition blamesConnection (errorMessage : string) : bool :=
  includes "Connection" errorMessage || includes "timeout" errorMessage.

(** The tools test passes on [script]: the list request is answered in
    time with at least one tool, and the call of the first tool, if it has
    a name, is answered in time or fails with an error the monitor does not
    read as a connection error. *)
Definition toolsPass (timeoutMs : Z) (script : list Outcome) : Prop :=
  ∃ toolsResult firstTool more,
    answer timeoutMs script = Ok toolsResult
    ∧ entriesOf toolsResult = Some (firstTool :: more)
    ∧ (d_name firstTool = EmptyString
       ∨ (∃ result, answer timeoutMs (tail script) = Ok result)
       ∨ ∃ errorMessage,
           answer timeoutMs (tail script) = Err errorMessage
           ∧ blamesConnection errorMessage = false).

(** One upstream, A, routed to for the prompt [p1] and the tool [t1], that
    answers its next request with a business error. *)
Definition rejectsPrompt : State :=
  setTools {[ "t1" := 0%nat ]}
    (setPrompts {[ "p1" := 0%nat ]}
       (Proxy.createServer 0 [clientA]
          {[ 0%nat := [ {| latency := 5;
                           settled := Err "Invalid parameters" |} ] ]})).

(** *** What a rebuild asks the upstreams *)

(** An event that is an attempt is an attempt of [method]. *)
Definition asksFor (method : Method) (e : Event) : Prop :=
  match e with
  | EvSuccess _ asked _ | EvFailure _ asked _ _ => asked = method
  | _ => True
  end.

(** *** The clients the proxy starts with *)

(** A client as [createClients] pushes it: connected, with no error. *)
Definition fresh (client : ConnectedClient) : Prop :=
  isConnected client = true ∧ lastError client = None.




(** * Properties *)

(** ** Strings *)

Section StringFacts.

Lemma prefix_spec (a b : string) :
  String.prefix a b = true ↔ ∃ rest, b = a +:+ rest.
Proof.
  revert b. induction a as [|c a IH]; intros b; simpl.
  - destruct b; split; eauto.
  - destruct b as [|d b]; simpl.
    + split; [done|]. by intros [rest Hrest].
    + destruct (Ascii.ascii_dec c d) as [->|Hne].
      * rewrite IH. split; intros [rest Hrest]; exists rest.
        -- by rewrite Hrest.
        -- by injection Hrest.
      * split; [done|]. intros [rest Hrest]. injection Hrest as -> _. done.
Qed.

Lemma includes_unfold (needle hay : string) :
  includes needle hay
  = String.prefix needle hay
    || match hay with
       | EmptyString => false
       | String _ rest => includes needle rest
       end.
Proof. by destruct hay. Qed.

(** [includes needle hay] holds exactly when [hay] is some text, then
    [needle], then some text. *)
Lemma includes_spec (needle hay : string) :
  includes needle hay = true
  ↔ ∃ before after, hay = before +:+ needle +:+ after.
Proof.
  split.
  - induction hay as [|c hay IH]; rewrite includes_unfold, orb_true_iff;
      intros [H|H]; try done.
    + apply prefix_spec in H as [after ->]. by exists EmptyString, after.
    + apply prefix_spec in H as [after ->]. by exists EmptyString, after.
    + destruct (IH H) as (before & after & ->).
      by exists (String c before), after.
  - intros (before & after & ->).
    induction before as [|c before IH]; rewrite includes_unfold, orb_true_iff.
    + left. apply prefix_spec. by exists after.
    + right. exact IH.
Qed.

End StringFacts.



(** ** Metrics manager *)

Section MetricsFacts.

Local Ltac unfold_ops :=
  unfold Metrics.recordRequest, LegacyMetrics.recordRequest,
    Metrics.initializeServer, Metrics.markServerUnhealthy,
    Metrics.markServerHealthy, Metrics.updateCapabilityScore,
    Metrics.updateQualityScore, Metrics.setMetrics in *; simpl in *.

Lemma updateQualityScore_metrics now server mm :
  metrics (Metrics.updateQualityScore now server mm) = metrics mm.
Proof. unfold Metrics.updateQualityScore. by destruct (metrics mm !! server). Qed.

Lemma initializeServer_lookup now server mm :
  ∃ m, metrics (Metrics.initializeServer now server mm) !! server = Some m
       ∧ totalRequests m = 0 ∧ errorCount m = 0 ∧ successRate m = 1%Q
       ∧ responseTime m = 0%Q ∧ isHealthy m = true.
Proof.
  unfold Metrics.initializeServer.
  rewrite updateQualityScore_metrics. simpl. rewrite lookup_insert_eq.
  eexists; split; [reflexivity|]. simpl. by repeat split.
Qed.

Lemma recordRequest_lookup now server elapsed success mm m :
  metrics mm !! server = Some m →
  metrics (Metrics.recordRequest now server elapsed success mm) !! server
  = Some (Metrics.recorded now elapsed success m).
Proof.
  intros Hm. unfold Metrics.recordRequest. rewrite Hm. simpl. rewrite Hm.
  rewrite updateQualityScore_metrics. simpl. by rewrite lookup_insert_eq.
Qed.

Lemma legacy_recordRequest_lookup now later server elapsed success mm m :
  metrics mm !! server = Some m →
  metrics (LegacyMetrics.recordRequest now later server elapsed success mm)
    !! server
  = Some (LegacyMetrics.recorded now later elapsed success m).
Proof.
  intros Hm. unfold LegacyMetrics.recordRequest. rewrite Hm.
  rewrite updateQualityScore_metrics. simpl. by rewrite lookup_insert_eq.
Qed.

Lemma store_invariant now server m' mm :
  managerInvariant mm →
  0 ≤ errorCount m' ≤ totalRequests m' →
  managerInvariant
    (Metrics.updateQualityScore now server (Metrics.setMetrics server m' mm)).
Proof.
  intros Hinv Hc n m. unfold Metrics.updateQualityScore. simpl.
  rewrite lookup_insert_eq. simpl.
  destruct (decide (server = n)) as [->|Hne].
  - rewrite !lookup_insert_eq. intros [= <-]. split; [done|].
    eexists; split; [reflexivity|].
    unfold scoreMatches, Metrics.calculatePerformanceScore,
      Metrics.calculateReliabilityScore, Metrics.calculateLoadScore. simpl.
    repeat split; try reflexivity.
    + by destruct (isHealthy m').
    + ring.
  - rewrite !lookup_insert_ne by done. apply Hinv.
Qed.

Lemma initializeServer_invariant now server mm :
  managerInvariant mm → managerInvariant (Metrics.initializeServer now server mm).
Proof. intros H. apply store_invariant; [done|simpl; lia]. Qed.

Lemma recorded_counts now elapsed success m :
  0 ≤ errorCount m ≤ totalRequests m →
  0 ≤ errorCount (Metrics.recorded now elapsed success m)
    ≤ totalRequests (Metrics.recorded now elapsed success m).
Proof. simpl. destruct success; simpl; lia. Qed.

Lemma legacy_recorded_counts now later elapsed success m :
  0 ≤ errorCount m ≤ totalRequests m →
  0 ≤ errorCount (LegacyMetrics.recorded now later elapsed success m)
    ≤ totalRequests (LegacyMetrics.recorded now later elapsed success m).
Proof. simpl. destruct success; simpl; lia. Qed.

Lemma reachable_invariant mm : ManagerReachable mm → managerInvariant mm.
Proof.
  induction 1 as [|now server mm _ IH|now server elapsed success mm _ IH
                  |now later server elapsed success mm _ IH
                  |now server mm _ IH|now server mm _ IH
                  |now server score mm _ IH|now mm _ IH].
  - intros n m. simpl. by rewrite lookup_empty.
  - by apply initializeServer_invariant.
  - unfold Metrics.recordRequest.
    destruct (metrics mm !! server) as [m|] eqn:Hm; simpl.
    + rewrite Hm. apply store_invariant; [done|].
      apply recorded_counts. by apply (IH server m).
    + pose proof (initializeServer_invariant now server mm IH) as Hi.
      destruct (metrics (Metrics.initializeServer now server mm) !! server)
        as [m|] eqn:Hm'; [|done].
      apply store_invariant; [done|].
      apply recorded_counts. by apply (Hi server m).
  - unfold LegacyMetrics.recordRequest.
    destruct (metrics mm !! server) as [m|] eqn:Hm.
    + apply store_invariant; [done|].
      apply legacy_recorded_counts. by apply (IH server m).
    + by apply initializeServer_invariant.
  - unfold Metrics.markServerUnhealthy.
    destruct (metrics mm !! server) as [m|] eqn:Hm; [|done].
    apply store_invariant; [done|]. simpl. by apply (IH server m).
  - unfold Metrics.markServerHealthy.
    destruct (metrics mm !! server) as [m|] eqn:Hm; [|done].
    apply store_invariant; [done|]. simpl. by apply (IH server m).
  - unfold Metrics.updateCapabilityScore.
    destruct (metrics mm !! server) as [m|] eqn:Hm; [|done].
    apply store_invariant; [done|]. simpl. by apply (IH server m).
  - intros n m. unfold Metrics.cleanupOldData. simpl.
    rewrite map_lookup_filter_Some. simpl. intros [Hm Hexp].
    destruct (IH n m Hm) as [Hc (q & Hq & Hs)]. split; [done|].
    exists q. split; [|done].
    rewrite map_lookup_filter_Some. simpl. by rewrite Hm.
Qed.

Lemma oneServer_reachable : ManagerReachable oneServer.
Proof. apply reach_initialize, reach_empty. Qed.

Lemma recorded_countedOnce now elapsed success m :
  0 ≤ errorCount m ≤ totalRequests m →
  countedOnce success m (Metrics.recorded now elapsed success m).
Proof.
  intros Hc. unfold countedOnce. simpl.
  destruct success; simpl; repeat split; lia.
Qed.

Lemma legacy_recorded_countedOnce now later elapsed success m :
  0 ≤ errorCount m ≤ totalRequests m →
  countedOnce success m (LegacyMetrics.recorded now later elapsed success m).
Proof.
  intros Hc. unfold countedOnce. simpl.
  destruct success; simpl; repeat split; lia.
Qed.

(** C6. For a server that has a record, in any state the manager can be in,
    a call of [recordRequest] (of the manager the proxy imports and of the
    older copy alike) leaves a record with [0 ≤ errorCount ≤ totalRequests]
    and [successRate = 1 − errorCount/totalRequests]; [totalRequests] has
    grown by exactly 1, and [errorCount] by exactly 1 when the request
    failed and by nothing when it succeeded. *)
Theorem recordRequest_counters now later server elapsed success mm m :
  ManagerReachable mm →
  metrics mm !! server = Some m →
  (∃ m', metrics (Metrics.recordRequest now server elapsed success mm) !! server
         = Some m' ∧ countedOnce success m m')
  ∧ (∃ m', metrics
             (LegacyMetrics.recordRequest now later server elapsed success mm)
             !! server = Some m' ∧ countedOnce success m m').
Proof.
  intros Hr Hm.
  destruct (reachable_invariant mm Hr server m Hm) as [Hc _].
  split.
  - exists (Metrics.recorded now elapsed success m). split.
    + by apply recordRequest_lookup.
    + by apply recorded_countedOnce.
  - exists (LegacyMetrics.recorded now later elapsed success m). split.
    + by apply legacy_recordRequest_lookup.
    + by apply legacy_recorded_countedOnce.
Qed.

Lemma oneServer_record :
  metrics oneServer !! "A"
  = Some {| serverName := "A"; responseTime := 0; successRate := 1;
            errorCount := 0; totalRequests := 0; lastUsed := 0;
            isHealthy := true; loadFactor := 0; capabilityScore := 1 |}.
Proof. reflexivity. Qed.

Lemma recordRequest_counters_witness :
  (∃ m', metrics (Metrics.recordRequest 10 "A" 250 false oneServer) !! "A"
         = Some m' ∧ errorCount m' = 1 ∧ totalRequests m' = 1
           ∧ successRate m' = (1 - 1 / 1)%Q)
  ∧ (∃ m', metrics (LegacyMetrics.recordRequest 10 11 "A" 250 true oneServer)
             !! "A" = Some m' ∧ errorCount m' = 0 ∧ totalRequests m' = 1).
Proof.
  destruct (recordRequest_counters 10 11 "A" 250 false oneServer _
              oneServer_reachable oneServer_record)
    as [(m1 & H1 & _ & _ & Hs & Ht & He) _].
  destruct (recordRequest_counters 10 11 "A" 250 true oneServer _
              oneServer_reachable oneServer_record)
    as [_ (m2 & H2 & _ & _ & _ & Ht2 & He2)].
  simpl in *. split.
  - exists m1. rewrite Hs, He, Ht. by repeat split.
  - exists m2. by repeat split.
Defined.

Lemma sameButHealth_withHealth healthy m :
  sameButHealth m (Metrics.withHealth healthy m).
Proof. by repeat split. Qed.

Lemma sameButHealth_refl m : sameButHealth m m.
Proof. by repeat split. Qed.

Lemma sameButHealth_trans m1 m2 m3 :
  sameButHealth m1 m2 → sameButHealth m2 m3 → sameButHealth m1 m3.
Proof.
  unfold sameButHealth. intros (?&?&?&?&?&?&?&?) (?&?&?&?&?&?&?&?).
  repeat split; congruence.
Qed.

Lemma healthFrame_refl mm : healthFrame mm mm.
Proof.
  intros n. destruct (metrics mm !! n); [apply sameButHealth_refl|done].
Qed.

Lemma healthFrame_trans mm1 mm2 mm3 :
  healthFrame mm1 mm2 → healthFrame mm2 mm3 → healthFrame mm1 mm3.
Proof.
  intros H12 H23 n. specialize (H12 n). specialize (H23 n).
  destruct (metrics mm1 !! n), (metrics mm2 !! n), (metrics mm3 !! n);
    try done.
  by eapply sameButHealth_trans.
Qed.

Lemma setHealth_frame now server healthy mm m :
  metrics mm !! server = Some m →
  healthFrame mm
    (Metrics.updateQualityScore now server
       (Metrics.setMetrics server (Metrics.withHealth healthy m) mm)).
Proof.
  intros Hm n. rewrite updateQualityScore_metrics. simpl.
  destruct (decide (server = n)) as [->|Hne].
  - rewrite lookup_insert_eq, Hm. apply sameButHealth_withHealth.
  - rewrite lookup_insert_ne by done.
    destruct (metrics mm !! n); [apply sameButHealth_refl|done].
Qed.

Lemma markServerUnhealthy_frame now server mm :
  healthFrame mm (Metrics.markServerUnhealthy now server mm).
Proof.
  unfold Metrics.markServerUnhealthy.
  destruct (metrics mm !! server) eqn:Hm;
    [by apply setHealth_frame|apply healthFrame_refl].
Qed.

Lemma markServerHealthy_frame now server mm :
  healthFrame mm (Metrics.markServerHealthy now server mm).
Proof.
  unfold Metrics.markServerHealthy.
  destruct (metrics mm !! server) eqn:Hm;
    [by apply setHealth_frame|apply healthFrame_refl].
Qed.

Lemma conclude_frame now client verdict checks mm :
  healthFrame mm (Health.conclude now client verdict checks mm).2.
Proof.
  unfold Health.conclude. simpl. destruct verdict.1.
  - apply markServerHealthy_frame.
  - apply markServerUnhealthy_frame.
Qed.

Lemma performHealthChecks_frame now clients checks mm :
  healthFrame mm (Health.performHealthChecks now clients checks mm).2.
Proof.
  unfold Health.performHealthChecks.
  change mm with ((checks, mm).2) at 1.
  generalize (checks, mm). clear checks mm.
  induction clients as [|client clients IH]; intros acc.
  - apply healthFrame_refl.
  - simpl. eapply healthFrame_trans; [|apply IH].
    apply conclude_frame.
Qed.

Lemma mark_sets_bit now server healthy mm m :
  metrics mm !! server = Some m →
  ∃ m' q,
    metrics (Metrics.updateQualityScore now server
               (Metrics.setMetrics server (Metrics.withHealth healthy m) mm))
      !! server = Some m'
    ∧ isHealthy m' = healthy
    ∧ qualityScores
        (Metrics.updateQualityScore now server
           (Metrics.setMetrics server (Metrics.withHealth healthy m) mm))
        !! server = Some q
    ∧ reliabilityScore q = (if healthy then successRate m else 0%Q).
Proof.
  intros Hm. unfold Metrics.updateQualityScore. simpl.
  rewrite lookup_insert_eq. simpl. rewrite !lookup_insert_eq.
  do 2 eexists. repeat split.
  unfold Metrics.calculateReliabilityScore. simpl. by destruct healthy.
Qed.

(** C7. [markServerHealthy] and [markServerUnhealthy], called directly or by
    the outcome of a health check (the periodic check of one server, the
    periodic round over all servers, the manual trigger), leave the set of
    records as it is and change nothing in a record but its [isHealthy] bit:
    [errorCount], [totalRequests], [successRate], [responseTime],
    [loadFactor] and [lastUsed] are the same before and after.  On the
    record of the named server the bit is set as asked and the reliability
    score is derived again from it. *)
Theorem health_marks_touch_only_the_bit now server client clients checks mm :
  healthFrame mm (Metrics.markServerHealthy now server mm)
  ∧ healthFrame mm (Metrics.markServerUnhealthy now server mm)
  ∧ healthFrame mm (Health.checkServerHealth now client checks mm).2
  ∧ healthFrame mm (Health.triggerHealthCheck now client checks mm).2
  ∧ healthFrame mm (Health.performHealthChecks now clients checks mm).2
  ∧ (∀ m, metrics mm !! server = Some m →
       (∃ m' q,
          metrics (Metrics.markServerHealthy now server mm) !! server = Some m'
          ∧ isHealthy m' = true
          ∧ qualityScores (Metrics.markServerHealthy now server mm) !! server
            = Some q
          ∧ reliabilityScore q = successRate m)
       ∧ (∃ m' q,
            metrics (Metrics.markServerUnhealthy now server mm) !! server
            = Some m'
            ∧ isHealthy m' = false
            ∧ qualityScores (Metrics.markServerUnhealthy now server mm)
                !! server = Some q
            ∧ reliabilityScore q = 0%Q)).
Proof.
  split; [apply markServerHealthy_frame|].
  split; [apply markServerUnhealthy_frame|].
  split; [apply conclude_frame|].
  split; [apply conclude_frame|].
  split; [apply performHealthChecks_frame|].
  intros m Hm. split.
  - unfold Metrics.markServerHealthy. rewrite Hm.
    by apply (mark_sets_bit now server true mm m).
  - unfold Metrics.markServerUnhealthy. rewrite Hm.
    by apply (mark_sets_bit now server false mm m).
Qed.

Lemma health_marks_touch_only_the_bit_witness :
  ∃ m' q,
    metrics (Metrics.markServerUnhealthy 3 "A" oneServer) !! "A" = Some m'
    ∧ isHealthy m' = false
    ∧ errorCount m' = 0 ∧ totalRequests m' = 0
    ∧ qualityScores (Metrics.markServerUnhealthy 3 "A" oneServer) !! "A"
      = Some q
    ∧ reliabilityScore q = 0%Q.
Proof.
  destruct (health_marks_touch_only_the_bit 3 "A" clientA [] ∅ oneServer)
    as (_ & Hframe & _ & _ & _ & Hbit).
  destruct (Hbit _ oneServer_record) as [_ (m' & q & Hm & Hh & Hq & Hr)].
  specialize (Hframe "A"). rewrite oneServer_record, Hm in Hframe.
  destruct Hframe as (_ & He & Ht & _).
  exists m', q. by repeat split.
Defined.

(** C8. In every state the manager can be in, the quality score kept for a
    record [m] is the one derived from it: performance
    [max(0, 1 − responseTime/5000)], reliability [successRate] for a healthy
    record and 0 for an unhealthy one, load [1 − loadFactor], capability the
    record's [capabilityScore], and overall
    [0.30·performance + 0.30·reliability + 0.20·capability + 0.20·load].
    In particular an unhealthy record has reliability 0. *)
Theorem quality_score_derivation mm server m :
  ManagerReachable mm →
  metrics mm !! server = Some m →
  ∃ q, qualityScores mm !! server = Some q
       ∧ scoreMatches m q
       ∧ (isHealthy m = false → reliabilityScore q = 0%Q).
Proof.
  intros Hr Hm.
  destruct (reachable_invariant mm Hr server m Hm) as [_ (q & Hq & Hs)].
  exists q. split; [done|]. split; [done|].
  intros Hh. destruct Hs as (_ & Hrel & _). by rewrite Hrel, Hh.
Qed.

Lemma quality_score_derivation_witness :
  ∃ q, qualityScores (Metrics.markServerUnhealthy 5 "A" oneServer) !! "A"
       = Some q
       ∧ reliabilityScore q = 0%Q
       ∧ performanceScore q = Qmax 0 (1 - 0 / 5000)%Q.
Proof.
  destruct (quality_score_derivation
              (Metrics.markServerUnhealthy 5 "A" oneServer) "A"
              {| serverName := "A"; responseTime := 0; successRate := 1;
                 errorCount := 0; totalRequests := 0; lastUsed := 0;
                 isHealthy := false; loadFactor := 0; capabilityScore := 1 |}
              (reach_unhealthy 5 "A" oneServer oneServer_reachable)
              eq_refl)
    as (q & Hq & (Hp & _) & Hrel).
  exists q. split; [exact Hq|]. split; [by apply Hrel|exact Hp].
Defined.

(** C10. In the older copy of the manager, [recordRequest] for a server
    that has no record does what [initializeServer] does and nothing more:
    the fresh record has [totalRequests = 0], [errorCount = 0],
    [successRate = 1], [responseTime = 0] and [isHealthy = true], so the
    elapsed time and the success flag of that call are not counted. *)
Theorem legacy_recordRequest_discards_first_sample
  now later server elapsed success mm :
  metrics mm !! server = None →
  LegacyMetrics.recordRequest now later server elapsed success mm
  = Metrics.initializeServer now server mm
  ∧ (∃ m, metrics
            (LegacyMetrics.recordRequest now later server elapsed success mm)
            !! server = Some m
          ∧ totalRequests m = 0 ∧ errorCount m = 0 ∧ successRate m = 1%Q
          ∧ responseTime m = 0%Q ∧ isHealthy m = true)
  ∧ (∀ elapsed' success',
       LegacyMetrics.recordRequest now later server elapsed' success' mm
       = LegacyMetrics.recordRequest now later server elapsed success mm).
Proof.
  intros Hm. unfold LegacyMetrics.recordRequest. rewrite Hm.
  split; [done|]. split; [apply initializeServer_lookup|done].
Qed.

Lemma legacy_recordRequest_discards_first_sample_witness :
  ∃ m, metrics (LegacyMetrics.recordRequest 7 8 "B" 1234 false oneServer)
         !! "B" = Some m
       ∧ totalRequests m = 0 ∧ errorCount m = 0 ∧ successRate m = 1%Q
       ∧ responseTime m = 0%Q ∧ isHealthy m = true.
Proof.
  exact (proj1 (proj2 (legacy_recordRequest_discards_first_sample
                         7 8 "B" 1234 false oneServer eq_refl))).
Defined.

End MetricsFacts.

(** ** Health monitor *)

Section HealthFacts.


End HealthFacts.

(** ** The retry wrapper *)

Section WrapperFacts.

Import Proxy.

Lemma attemptsOf_app (xs ys : list Event) :
  attemptsOf (xs ++ ys) = attemptsOf xs ++ attemptsOf ys.
Proof.
  induction xs as [|[] xs IH]; simpl; try done; by rewrite IH.
Qed.

Lemma noteFailure_log server method attempt errorMessage st :
  log (noteFailure server method attempt errorMessage st)
  = marksFor server errorMessage st
    ++ EvFailure server method attempt errorMessage :: log st.
Proof.
  unfold noteFailure, marksFor. simpl.
  destruct (isConnectionError errorMessage); simpl; [|done].
  change (failureCount (logEvent _ st) server) with (failureCount st server).
  by destruct (Health.shouldMarkUnhealthy _ _ _).
Qed.


(** The parts of the state a failed attempt leaves alone. *)
Lemma noteFailure_frame server method attempt errorMessage st :
  let st' := noteFailure server method attempt errorMessage st in
  connectedClients st' = connectedClients st
  ∧ toolToClientMap st' = toolToClientMap st
  ∧ resourceToClientMap st' = resourceToClientMap st
  ∧ promptToClientMap st' = promptToClientMap st
  ∧ healthChecks st' = healthChecks st
  ∧ upstream (world st') = upstream (world st)
  ∧ clock (world st') = clock (world st).
Proof.
  unfold noteFailure. simpl.
  destruct (isConnectionError errorMessage); simpl; [|done].
  by destruct (Health.shouldMarkUnhealthy _ _ _).
Qed.


Lemma attemptLoop_eq retriesLeft attempt server method operation st :
  attemptLoop retriesLeft attempt server method operation st
  = let r := operation (world st) in
    let st1 := setWorld r.1 st in
    match r.2 with
    | Ok result =>
        (logEvent (EvSuccess server method attempt)
           (setFailureCounts (<[server := 0]> (failureCounts st1)) st1),
         Ok result)
    | Err errorMessage =>
        let st2 := noteFailure server method attempt errorMessage st1 in
        match retriesLeft with
        | O => (st2, Err errorMessage)
        | S retriesLeft' =>
            if negb (isConnectionError errorMessage) then (st2, Err errorMessage)
            else
              attemptLoop retriesLeft' (S attempt) server method operation
                (setWorld
                   (setClock (now st2 + backoffMs attempt) (world st2))
                   (logEvent (EvBackoff server attempt (backoffMs attempt)) st2))
        end
    end.
Proof. destruct retriesLeft; reflexivity. Qed.

(** The attempts one run of the loop adds to the log. *)
Lemma attemptLoop_attempts retriesLeft :
  ∀ attempt server method operation st,
    ∃ new,
      log (attemptLoop retriesLeft attempt server method operation st).1
      = new ++ log st
      ∧ runFrom retriesLeft attempt (rev (attemptsOf new))
          (attemptLoop retriesLeft attempt server method operation st).2.
Proof.
  induction retriesLeft as [|k IH]; intros attempt server method operation st;
    rewrite attemptLoop_eq; simpl;
    destruct (operation (world st)) as [w [result|errorMessage]]; simpl.
  - exists [EvSuccess server method attempt]. simpl. eauto.
  - exists (marksFor server errorMessage (setWorld w st)
            ++ [EvFailure server method attempt errorMessage]).
    rewrite noteFailure_log. split; [by rewrite <- app_assoc|].
    rewrite attemptsOf_app. unfold marksFor.
    destruct (_ && _); simpl; eauto.
  - exists [EvSuccess server method attempt]. simpl. eauto.
  - destruct (isConnectionError errorMessage) eqn:Hconn; simpl.
    + match goal with |- context [attemptLoop k (S attempt) _ _ _ ?s] =>
        destruct (IH (S attempt) server method operation s)
          as (new & Hlog & Hrun) end.
      simpl in Hlog. rewrite noteFailure_log in Hlog.
      exists (new ++ EvBackoff server attempt (backoffMs attempt)
                  :: marksFor server errorMessage (setWorld w st)
                  ++ [EvFailure server method attempt errorMessage]).
      split.
      { rewrite Hlog. rewrite <- !app_assoc. simpl.
        by rewrite <- app_assoc. }
      rewrite !attemptsOf_app. simpl. rewrite attemptsOf_app.
      replace (attemptsOf (marksFor server errorMessage (setWorld w st)))
        with (@nil (nat * option string))
        by (unfold marksFor; by destruct (_ && _)).
      simpl. rewrite rev_app_distr. simpl. split; [done|].
      destruct (rev (attemptsOf new)) as [|next later] eqn:Hrev.
      { by simpl in Hrun. }
      exists errorMessage, k. by repeat split.
    + exists (marksFor server errorMessage (setWorld w st)
              ++ [EvFailure server method attempt errorMessage]).
      rewrite noteFailure_log. split; [by rewrite <- app_assoc|].
      rewrite attemptsOf_app. unfold marksFor. rewrite Hconn. simpl.
      repeat split; congruence.
Qed.

Lemma runFrom_facts attempts :
  ∀ retriesLeft attempt result,
    runFrom retriesLeft attempt attempts result →
    (1 ≤ length attempts ≤ retriesLeft + 1)%nat
    ∧ attempts.*1 = seq attempt (length attempts)
    ∧ (∀ k o, attempts !! k = Some o → (k + 1 < length attempts)%nat →
         ∃ message, o.2 = Some message ∧ isConnectionError message = true)
    ∧ (∀ o, last attempts = Some o →
         match o.2 with
         | None => ∃ value, result = Ok value
         | Some message =>
             result = Err message
             ∧ (isConnectionError message = true →
                length attempts = S retriesLeft)
         end).
Proof.
  induction attempts as [|[a outcome] later IH];
    intros retriesLeft attempt result Hrun; [done|].
  destruct later as [|next later'].
  - destruct Hrun as [-> Hlast]. simpl.
    split; [lia|]. split; [done|]. split.
    + intros k o _ Hk. lia.
    + intros o [= <-]. simpl. destruct outcome as [message|]; [|done].
      destruct Hlast as [-> Hex]. split; [done|].
      intros Hc. by rewrite (Hex Hc).
  - destruct Hrun as [-> (message & k & -> & Hconn & -> & Hrest)].
    destruct (IH k (S attempt) result Hrest) as (Hlen & Hnum & Hmid & Hlast).
    split; [simpl in *; lia|]. split; [|split].
    + change ((attempt, Some message) :: next :: later')
        with ([(attempt, Some message)] ++ next :: later').
      rewrite fmap_app, Hnum. reflexivity.
    + intros [|i] o Hi Hlt.
      * injection Hi as <-. eauto.
      * apply (Hmid i o Hi). simpl in *. lia.
    + intros o Ho. change (last (next :: later') = Some o) in Ho.
      specialize (Hlast o Ho). destruct (o.2); [|done].
      destruct Hlast as [-> Hex]. split; [done|].
      intros Hc. specialize (Hex Hc). simpl in *. lia.
Qed.

Lemma attemptsOf_marksFor server errorMessage st :
  attemptsOf (marksFor server errorMessage st) = [].
Proof. unfold marksFor. by destruct (_ && _). Qed.

(** What a failed attempt does to the world: nothing, or one call of
    [markServerUnhealthy] for the server. *)
Lemma noteFailure_world server method attempt errorMessage st :
  afterFailure server (world st)
    (world (noteFailure server method attempt errorMessage st)).
Proof.
  unfold noteFailure, afterFailure. cbn [world logEvent].
  destruct (isConnectionError errorMessage); [|auto].
  destruct (Health.shouldMarkUnhealthy _ _ _); simpl; auto.
Qed.

(** Every attempt one run of the loop logs is one call of the operation. *)
Lemma attemptLoop_calls retriesLeft :
  ∀ attempt server method operation st,
    ∃ new,
      log (attemptLoop retriesLeft attempt server method operation st).1
      = new ++ log st
      ∧ callsFrom operation server retriesLeft (world st)
          (rev (attemptsOf new))
          (attemptLoop retriesLeft attempt server method operation st).2
          (world (attemptLoop retriesLeft attempt server method operation st).1).
Proof.
  induction retriesLeft as [|k IH]; intros attempt server method operation st;
    rewrite attemptLoop_eq; cbv zeta;
    destruct (operation (world st)) as [w [result|errorMessage]] eqn:Hop;
    cbn [fst snd].
  - exists [EvSuccess server method attempt]. split; [done|].
    simpl. by rewrite Hop.
  - exists (marksFor server errorMessage (setWorld w st)
            ++ [EvFailure server method attempt errorMessage]).
    rewrite noteFailure_log. split; [by rewrite <- app_assoc|].
    rewrite attemptsOf_app, attemptsOf_marksFor. simpl. rewrite Hop. simpl.
    split; [done|]. eexists. split; [|done].
    apply (noteFailure_world server method attempt errorMessage (setWorld w st)).
  - exists [EvSuccess server method attempt]. split; [done|].
    simpl. by rewrite Hop.
  - pose proof (noteFailure_world server method attempt errorMessage
                  (setWorld w st)) as Hw.
    destruct (isConnectionError errorMessage) eqn:Hconn; cbn [negb fst snd].
    + match goal with |- context [attemptLoop k (S attempt) _ _ _ ?s] =>
        destruct (IH (S attempt) server method operation s)
          as (new & Hlog & Hcalls) end.
      cbn [log setWorld logEvent] in Hlog. rewrite noteFailure_log in Hlog.
      exists (new ++ EvBackoff server attempt (backoffMs attempt)
                  :: marksFor server errorMessage (setWorld w st)
                  ++ [EvFailure server method attempt errorMessage]).
      split.
      { rewrite Hlog. rewrite <- !app_assoc. simpl.
        by rewrite <- app_assoc. }
      rewrite !attemptsOf_app. simpl.
      rewrite attemptsOf_app, attemptsOf_marksFor. simpl.
      rewrite rev_app_distr. simpl. rewrite Hop. simpl.
      split; [done|]. eexists. split; [exact Hw|].
      rewrite Hconn. exact Hcalls.
    + exists (marksFor server errorMessage (setWorld w st)
              ++ [EvFailure server method attempt errorMessage]).
      rewrite noteFailure_log. split; [by rewrite <- app_assoc|].
      rewrite attemptsOf_app, attemptsOf_marksFor. simpl. rewrite Hop. simpl.
      split; [done|]. eexists. split; [exact Hw|]. by rewrite Hconn.
Qed.

End WrapperFacts.

(** ** Handlers as sequences of wrapper runs *)

Section GrowsFacts.

Import Proxy.

Lemma attemptLoop_frame retriesLeft :
  ∀ attempt server method operation st,
    let st' := (attemptLoop retriesLeft attempt server method operation st).1 in
    connectedClients st' = connectedClients st
    ∧ toolToClientMap st' = toolToClientMap st
    ∧ resourceToClientMap st' = resourceToClientMap st
    ∧ promptToClientMap st' = promptToClientMap st
    ∧ healthChecks st' = healthChecks st.
Proof.
  induction retriesLeft as [|k IH]; intros attempt server method operation st;
    rewrite attemptLoop_eq; simpl;
    destruct (operation (world st)) as [w [result|errorMessage]]; simpl;
    try done.
  - pose proof (noteFailure_frame server method attempt errorMessage
                  (setWorld w st)) as H. simpl in H. tauto.
  - pose proof (noteFailure_frame server method attempt errorMessage
                  (setWorld w st)) as H. simpl in H.
    destruct (isConnectionError errorMessage); simpl; [|tauto].
    match goal with |- context [attemptLoop k (S attempt) _ _ _ ?s] =>
      pose proof (IH (S attempt) server method operation s) as H' end.
    simpl in H'. destruct H as (G1 & G2 & G3 & G4 & G5 & _).
    destruct H' as (H1 & H2 & H3 & H4 & H5).
    repeat split; congruence.
Qed.

Lemma attemptLoop_budget retriesLeft :
  ∀ attempt server method operation st,
    (attempt + retriesLeft ≤ budgetOf method)%nat →
    ∃ new,
      log (attemptLoop retriesLeft attempt server method operation st).1
      = new ++ log st
      ∧ Forall withinBudget new.
Proof.
  induction retriesLeft as [|k IH];
    intros attempt server method operation st Hb;
    rewrite attemptLoop_eq; simpl;
    destruct (operation (world st)) as [w [result|errorMessage]]; simpl.
  - exists [EvSuccess server method attempt]. split; [done|].
    repeat constructor. simpl. lia.
  - exists (marksFor server errorMessage (setWorld w st)
            ++ [EvFailure server method attempt errorMessage]).
    rewrite noteFailure_log. split; [by rewrite <- app_assoc|].
    apply Forall_app. split.
    + unfold marksFor. destruct (_ && _); repeat constructor.
    + repeat constructor. simpl. lia.
  - exists [EvSuccess server method attempt]. split; [done|].
    repeat constructor. simpl. lia.
  - assert (Forall withinBudget
              (marksFor server errorMessage (setWorld w st)
               ++ [EvFailure server method attempt errorMessage])) as Hhere.
    { apply Forall_app. split.
      - unfold marksFor. destruct (_ && _); repeat constructor.
      - repeat constructor. simpl. lia. }
    destruct (isConnectionError errorMessage); simpl.
    + match goal with |- context [attemptLoop k (S attempt) _ _ _ ?s] =>
        destruct (IH (S attempt) server method operation s)
          as (new & Hlog & Hnew) end; [lia|].
      simpl in Hlog. rewrite noteFailure_log in Hlog.
      exists (new ++ EvBackoff server attempt (backoffMs attempt)
                  :: marksFor server errorMessage (setWorld w st)
                  ++ [EvFailure server method attempt errorMessage]).
      split.
      { rewrite Hlog. rewrite <- !app_assoc. simpl. by rewrite <- app_assoc. }
      apply Forall_app. split; [done|]. by constructor.
    + eexists. rewrite noteFailure_log. split; [|exact Hhere].
      by rewrite <- app_assoc.
Qed.




Lemma silent_refl st : silent st st.
Proof. by repeat split. Qed.

Lemma silent_trans st1 st2 st3 : silent st1 st2 → silent st2 st3 → silent st1 st3.
Proof.
  intros (L1 & F1 & D1 & N1) (L2 & F2 & D2 & N2).
  repeat split; [congruence|congruence|set_solver|congruence].
Qed.

Lemma Grows_trans known st1 st2 st3 :
  Grows known st1 st2 → Grows known st2 st3 → Grows known st1 st3.
Proof.
  intros H12 H23. induction H23.
  - done.
  - eapply grows_silent; eauto.
  - eapply grows_run; eauto.
Qed.

Lemma Grows_silent known st st' : silent st st' → Grows known st st'.
Proof. intros H. eapply grows_silent; [apply grows_refl|done]. Qed.

Lemma Grows_names known st st' :
  Grows known st st' →
  name <$> connectedClients st' = name <$> connectedClients st.
Proof.
  induction 1 as [|st2 st3 _ IH (_&_&_&Hn)|st2 server method op k _ IH];
    [done|congruence|].
  unfold executeWithRetry.
  pose proof (attemptLoop_frame k 0 server method op st2) as (-> & _). done.
Qed.


(** Every attempt a handler makes is within the retry budget of the method
    it asks for. *)
Lemma Grows_budget known st st' :
  Grows known st st' →
  ∃ new, log st' = new ++ log st ∧ Forall withinBudget new.
Proof.
  induction 1 as [|st2 st3 _ (new & Hlog & Hnew) (Hl&_)
                  |st2 server method op k _ (new & Hlog & Hnew) _ Hk].
  - exists []. split; [done|constructor].
  - exists new. by rewrite Hl.
  - destruct (attemptLoop_budget k 0 server method op st2) as (more & Hm & Hf);
      [simpl; lia|].
    exists (more ++ new). unfold executeWithRetry. rewrite Hm, Hlog.
    split; [by rewrite app_assoc|]. by apply Forall_app.
Qed.


(** *** The silent steps of the handlers *)

Lemma alter_names f i (clients : list ConnectedClient) :
  (∀ client, name (f client) = name client) →
  name <$> alter f i clients = name <$> clients.
Proof.
  intros Hf. apply list_eq. intros j.
  rewrite !list_lookup_fmap, list_lookup_alter.
  destruct (decide (i = j)) as [->|]; [|done].
  destruct (clients !! j); simpl; [by rewrite Hf|done].
Qed.

Lemma demote_silent i message st : silent st (demote i message st).
Proof.
  repeat split; try done. simpl. by apply alter_names.
Qed.

Lemma triggerHealthCheck_silent i st : silent st (triggerHealthCheck i st).
Proof.
  unfold triggerHealthCheck. destruct (connectedClients st !! i) as [client|];
    [|apply silent_refl].
  repeat split; try done. simpl. set_solver.
Qed.

Lemma setClock_silent t st : silent st (setWorld (setClock t (world st)) st).
Proof. by repeat split. Qed.

Lemma setTools_silent table st : silent st (setTools table st).
Proof. by repeat split. Qed.

Lemma setPrompts_silent table st : silent st (setPrompts table st).
Proof. by repeat split. Qed.

Lemma setResources_silent table st : silent st (setResources table st).
Proof. by repeat split. Qed.

Lemma foldl_silent {A} (f : State → A → State) (xs : list A) st :
  (∀ s x, silent s (f s x)) → silent st (foldl f st xs).
Proof.
  intros Hf. revert st. induction xs as [|x xs IH]; intros st; simpl.
  - apply silent_refl.
  - eapply silent_trans; [apply Hf|apply IH].
Qed.

End GrowsFacts.

(** ** Every handler is a sequence of wrapper runs and silent steps *)

Section HandlerFacts.

Import Proxy.

Variable known : string → Prop.

Local Ltac run_then_silent Hknown :=
  match goal with
  | |- context [executeWithRetry ?s ?m ?op ?k ?st] =>
      let Hrun := fresh "Hrun" in
      assert (Grows known st (executeWithRetry s m op k st).1) as Hrun
        by (apply grows_run; [apply grows_refl|exact Hknown|cbv; lia]);
      destruct (executeWithRetry s m op k st) as [st1 [result|message]];
      simpl in *;
      (eapply Grows_trans; [exact Hrun|]); apply Grows_silent
  end.

Lemma listToolsTask_grows i server st :
  known server → Grows known st (listToolsTask i server st).1.
Proof.
  intros Hk. unfold listToolsTask. run_then_silent Hk.
  - destruct (entriesOf result); simpl; [|apply silent_refl].
    apply foldl_silent. intros. apply setTools_silent.
  - destruct (isConnectionError message); simpl; [|apply silent_refl].
    eapply silent_trans; [apply demote_silent|apply triggerHealthCheck_silent].
Qed.

Lemma rebuildToolsTask_grows i server st :
  known server → Grows known st (rebuildToolsTask i server st).1.
Proof.
  intros Hk. unfold rebuildToolsTask. run_then_silent Hk.
  - destruct (entriesOf result); simpl; [|apply silent_refl].
    apply foldl_silent. intros. apply setTools_silent.
  - apply silent_refl.
Qed.

Lemma listPromptsTask_grows i server st :
  known server → Grows known st (listPromptsTask i server st).1.
Proof.
  intros Hk. unfold listPromptsTask. run_then_silent Hk.
  - destruct (entriesOf result); simpl; [|apply silent_refl].
    apply foldl_silent. intros. apply setPrompts_silent.
  - eapply silent_trans; [apply demote_silent|apply triggerHealthCheck_silent].
Qed.

Lemma rebuildPromptsTask_grows i server st :
  known server → Grows known st (rebuildPromptsTask i server st).1.
Proof.
  intros Hk. unfold rebuildPromptsTask. run_then_silent Hk.
  - destruct (entriesOf result); simpl; [|apply silent_refl].
    apply foldl_silent. intros. apply setPrompts_silent.
  - apply silent_refl.
Qed.

Lemma listResourcesTask_grows i server st :
  known server → Grows known st (listResourcesTask i server st).1.
Proof.
  intros Hk. unfold listResourcesTask. run_then_silent Hk.
  - destruct (entriesOf result); simpl; [|apply silent_refl].
    apply foldl_silent. intros. apply setResources_silent.
  - eapply silent_trans; [apply demote_silent|apply triggerHealthCheck_silent].
Qed.

Lemma rebuildResourcesTask_grows i server st :
  known server → Grows known st (rebuildResourcesTask i server st).1.
Proof.
  intros Hk. unfold rebuildResourcesTask. run_then_silent Hk.
  - destruct (entriesOf result); simpl; [|apply silent_refl].
    apply foldl_silent. intros. apply setResources_silent.
  - apply silent_refl.
Qed.

Lemma listTemplatesTask_grows i server st :
  known server → Grows known st (listTemplatesTask i server st).1.
Proof.
  intros Hk. unfold listTemplatesTask. run_then_silent Hk.
  - destruct (entriesOf result); simpl; apply silent_refl.
  - eapply silent_trans; [apply demote_silent|apply triggerHealthCheck_silent].
Qed.

Lemma runTasks_grows (task : Task) start order :
  (∀ i server st, known server → Grows known st (task i server st).1) →
  (∀ i server, (i, server) ∈ order → known server) →
  ∀ finish results st,
    Grows known st (runTasks task start finish order results st).1.
Proof.
  intros Htask. induction order as [|[i server] order IH];
    intros Hknown finish results st; simpl.
  - apply Grows_silent, setClock_silent.
  - eapply Grows_trans; [|apply IH].
    + eapply Grows_trans; [apply Grows_silent, (setClock_silent start)|].
      apply Htask. apply (Hknown i). left.
    + intros j s Hin. apply (Hknown j). by right.
Qed.

Lemma allSettled_grows (task : Task) order st :
  (∀ i server st, known server → Grows known st (task i server st).1) →
  (∀ i server, (i, server) ∈ order → known server) →
  Grows known st (allSettled task order st).1.
Proof. intros Ht Hk. unfold allSettled. by apply runTasks_grows. Qed.

Lemma resolve_known st entry i client :
  (∀ server, server ∈ name <$> connectedClients st → known server) →
  resolve st entry = Some (i, client) → known (name client).
Proof.
  intros Hk. unfold resolve. destruct entry as [j|]; simpl; [|done].
  destruct (connectedClients st !! j) as [c|] eqn:Hc; simpl; [|done].
  intros [= <- <-]. apply Hk. apply list_elem_of_fmap. exists c.
  split; [done|]. by eapply list_elem_of_lookup_2.
Qed.

Section Handlers.

Variable order : list (nat * string).
Variable st : State.
Hypothesis order_known : ∀ i server, (i, server) ∈ order → known server.
Hypothesis clients_known :
  ∀ server, server ∈ name <$> connectedClients st → known server.

Lemma listTools_grows : Grows known st (listTools order st).1.
Proof.
  unfold listTools.
  destruct (getHealthyClients (setTools ∅ st)); simpl.
  - apply Grows_silent, setTools_silent.
  - eapply Grows_trans; [apply Grows_silent, (setTools_silent ∅)|].
    apply allSettled_grows; [apply listToolsTask_grows|done].
Qed.

Lemma listPrompts_grows cursor : Grows known st (listPrompts order cursor st).1.
Proof.
  unfold listPrompts.
  destruct (getHealthyClients (setPrompts ∅ st)); simpl.
  - apply Grows_silent, setPrompts_silent.
  - eapply Grows_trans; [apply Grows_silent, (setPrompts_silent ∅)|].
    apply allSettled_grows; [apply listPromptsTask_grows|done].
Qed.

Lemma listResources_grows : Grows known st (listResources order st).1.
Proof.
  unfold listResources.
  destruct (getHealthyClients (setResources ∅ st)); simpl.
  - apply Grows_silent, setResources_silent.
  - eapply Grows_trans; [apply Grows_silent, (setResources_silent ∅)|].
    apply allSettled_grows; [apply listResourcesTask_grows|done].
Qed.

Lemma listResourceTemplates_grows cursor :
  Grows known st (listResourceTemplates order cursor st).1.
Proof.
  unfold listResourceTemplates.
  destruct (getHealthyClients st); simpl.
  - apply grows_refl.
  - apply allSettled_grows; [apply listTemplatesTask_grows|done].
Qed.

Local Ltac names_of Hg :=
  intros server; rewrite (Grows_names _ _ _ Hg); apply clients_known.

Lemma callTool_grows tool : Grows known st (callTool order tool st).1.
Proof.
  unfold callTool.
  set (st0 := match toolToClientMap st !! tool with
              | Some _ => st
              | None => (allSettled rebuildToolsTask order (setTools ∅ st)).1
              end).
  assert (Grows known st st0) as Hg.
  { subst st0. destruct (toolToClientMap st !! tool); [apply grows_refl|].
    eapply Grows_trans; [apply Grows_silent, (setTools_silent ∅)|].
    apply allSettled_grows; [apply rebuildToolsTask_grows|done]. }
  destruct (resolve st0 (toolToClientMap st0 !! tool)) as [[i client]|] eqn:Hres;
    simpl; [|done].
  assert (known (name client)) as Hk.
  { eapply resolve_known; [|exact Hres]. names_of Hg. }
  eapply Grows_trans; [exact Hg|].
  run_then_silent Hk; [apply silent_refl|].
  destruct (isToolNotFound message); simpl; [apply setTools_silent|].
  destruct (isConnectionError message); simpl; [|apply silent_refl].
  eapply silent_trans; [apply demote_silent|apply triggerHealthCheck_silent].
Qed.

Lemma getPrompt_grows prompt : Grows known st (getPrompt order prompt st).1.
Proof.
  unfold getPrompt.
  set (st0 := match promptToClientMap st !! prompt with
              | Some _ => st
              | None =>
                  (allSettled rebuildPromptsTask order (setPrompts ∅ st)).1
              end).
  assert (Grows known st st0) as Hg.
  { subst st0. destruct (promptToClientMap st !! prompt); [apply grows_refl|].
    eapply Grows_trans; [apply Grows_silent, (setPrompts_silent ∅)|].
    apply allSettled_grows; [apply rebuildPromptsTask_grows|done]. }
  destruct (resolve st0 (promptToClientMap st0 !! prompt))
    as [[i client]|] eqn:Hres; simpl; [|done].
  assert (known (name client)) as Hk.
  { eapply resolve_known; [|exact Hres]. names_of Hg. }
  eapply Grows_trans; [exact Hg|].
  run_then_silent Hk; [apply silent_refl|].
  eapply silent_trans; [apply demote_silent|apply triggerHealthCheck_silent].
Qed.

Lemma readResource_grows uri : Grows known st (readResource order uri st).1.
Proof.
  unfold readResource.
  set (st0 := match resourceToClientMap st !! uri with
              | Some _ => st
              | None =>
                  (allSettled rebuildResourcesTask order (setResources ∅ st)).1
              end).
  assert (Grows known st st0) as Hg.
  { subst st0. destruct (resourceToClientMap st !! uri); [apply grows_refl|].
    eapply Grows_trans; [apply Grows_silent, (setResources_silent ∅)|].
    apply allSettled_grows; [apply rebuildResourcesTask_grows|done]. }
  destruct (resolve st0 (resourceToClientMap st0 !! uri))
    as [[i client]|] eqn:Hres; simpl; [|done].
  assert (known (name client)) as Hk.
  { eapply resolve_known; [|exact Hres]. names_of Hg. }
  eapply Grows_trans; [exact Hg|].
  run_then_silent Hk; [apply silent_refl|].
  eapply silent_trans; [apply demote_silent|apply triggerHealthCheck_silent].
Qed.

Lemma handle_grows request : Grows known st (handle order request st).
Proof.
  destruct request; simpl.
  - apply listTools_grows.
  - apply callTool_grows.
  - apply listPrompts_grows.
  - apply getPrompt_grows.
  - apply listResources_grows.
  - apply readResource_grows.
  - apply listResourceTemplates_grows.
Qed.

End Handlers.

End HandlerFacts.

(** ** The retry policy *)

Section RetryPolicy.

Import Proxy.

(** C1. (a) The wrapper classifies a failed attempt by its message: it is a
    connection error exactly when the message contains 'Connection',
    'timeout', 'ECONNREFUSED' or 'ENOTFOUND' as a substring (as the proxy's
    own 'Request timeout' does), and a business error otherwise, as the
    messages 'Tool fetch not found', 'Invalid parameters' and 'Blocked by
    robots.txt' are.  (b) One run of the wrapper makes between 1
    and [maxRetries + 1] attempts, numbered from 0; every attempt that is
    followed by another failed with a connection error, so a business error
    ends the run at once; the run returns the value of a last attempt that
    succeeded and raises the error of a last attempt that failed, and a run
    that ends on a connection error has used all its attempts.  Every
    attempt is one call of the operation the wrapper was given, the first
    on the world the run starts in and each later one on the world the
    failed call before it left; the outcome of the attempt is the outcome
    of that call, so the error the run raises is the error the last call
    of the operation raised, and the world the run ends in is the one the
    last call left (see [callsFrom]).  (c) In every handler, the attempts
    for [tools/call] are numbered 0 or 1 and those for any other method 0,
    1 or 2; an upstream that refuses every connection gets exactly two
    attempts of a tool call and exactly three of a prompt request, and has
    answered two requests, respectively three, when the handler returns. *)
Theorem retry_policy :
  (∀ message,
     isConnectionError message = true
     ↔ ∃ token before after,
         token ∈ ["Connection"; "timeout"; "ECONNREFUSED"; "ENOTFOUND"]
         ∧ message = before +:+ token +:+ after)
  ∧ isConnectionError "Request timeout" = true
  ∧ isConnectionError "Tool fetch not found" = false
  ∧ isConnectionError "Invalid parameters" = false
  ∧ isConnectionError "Blocked by robots.txt" = false
  ∧ (∀ server method operation maxRetries st,
       let r := executeWithRetry server method operation maxRetries st in
       ∃ new,
         log r.1 = new ++ log st
         ∧ let attempts := rev (attemptsOf new) in
           (1 ≤ length attempts ≤ maxRetries + 1)%nat
           ∧ attempts.*1 = seq 0 (length attempts)
           ∧ (∀ k o, attempts !! k = Some o →
                (k + 1 < length attempts)%nat →
                ∃ message,
                  o.2 = Some message ∧ isConnectionError message = true)
           ∧ (∀ o, last attempts = Some o →
                match o.2 with
                | None => ∃ value, r.2 = Ok value
                | Some message =>
                    r.2 = Err message
                    ∧ (isConnectionError message = true →
                       length attempts = S maxRetries)
                end)
           ∧ callsFrom operation server maxRetries (world st) attempts
               r.2 (world r.1))
  ∧ (∀ order request st,
       ∃ new, log (handle order request st) = new ++ log st
              ∧ Forall withinBudget new)
  ∧ attemptsOf (log (handle [] (CallToolRequest "t1") routedToRefusing))
    = [(1%nat, Some "ECONNREFUSED"); (0%nat, Some "ECONNREFUSED")]
  ∧ scriptOf (handle [] (CallToolRequest "t1") routedToRefusing) 0
    = drop 2 refusing
  ∧ attemptsOf (log (handle [] (GetPromptRequest "p1") routedToRefusing))
    = [(2%nat, Some "ECONNREFUSED"); (1%nat, Some "ECONNREFUSED");
       (0%nat, Some "ECONNREFUSED")]
  ∧ scriptOf (handle [] (GetPromptRequest "p1") routedToRefusing) 0
    = drop 3 refusing.
Proof.
  split.
  { intros message. unfold isConnectionError.
    rewrite !orb_true_iff, !includes_spec. split.
    - intros [[[H|H]|H]|H]; destruct H as (before & after & ->);
        eexists _, before, after; (split; [|reflexivity]);
        repeat (first [by left|right]).
    - intros (token & before & after & Hin & ->).
      repeat (apply elem_of_cons in Hin as [->|Hin]); eauto 10.
      by apply elem_of_nil in Hin. }
  split; [reflexivity|].
  split; [reflexivity|]. split; [reflexivity|]. split; [reflexivity|].
  split.
  { intros server method operation maxRetries st. simpl.
    unfold executeWithRetry.
    destruct (attemptLoop_attempts maxRetries 0 server method operation st)
      as (new & Hlog & Hrun).
    destruct (attemptLoop_calls maxRetries 0 server method operation st)
      as (new' & Hlog' & Hcalls).
    assert (new' = new) as ->.
    { rewrite Hlog in Hlog'. by apply app_inv_tail in Hlog'. }
    exists new. split; [done|].
    apply runFrom_facts in Hrun as (H1 & H2 & H3 & H4). cbv zeta.
    split; [exact H1|]. split; [exact H2|]. split; [exact H3|].
    split; [exact H4|exact Hcalls]. }
  split.
  { intros order request st.
    apply (Grows_budget (λ _, True)). by apply handle_grows. }
  repeat split; vm_compute; reflexivity.
Qed.


(** *** The bookkeeping of one attempt *)








Lemma afterThreeCalls_reachable : Reachable afterThreeCalls.
Proof.
  unfold afterThreeCalls.
  apply reach_handle; [apply reach_handle; [apply reach_handle;
    [apply reach_handle; [apply reach_start|]|]|]|];
    vm_compute; reflexivity.
Qed.



End RetryPolicy.

(** ** Listings and routing tables *)

Section ListingFacts.

Import Proxy.

Lemma request_result i timeoutMs w :
  (request i timeoutMs w).2
  = match default [] (upstream w !! i) with
    | outcome :: _ =>
        if latency outcome <? timeoutMs then settled outcome
        else Err "Request timeout"
    | [] => Err "Request timeout"
    end.
Proof.
  unfold request. simpl. destruct (default [] (upstream w !! i)); [done|].
  by destruct (latency _ <? timeoutMs).
Qed.

Lemma request_upstream i timeoutMs w :
  upstream (request i timeoutMs w).1
  = <[i := tail (default [] (upstream w !! i))]> (upstream w).
Proof. reflexivity. Qed.

(** The wrapper around a request to upstream [i] returns what the script of
    [i] comes to, and plays the script of no other upstream. *)
Lemma attemptLoop_request i timeoutMs server method retriesLeft :
  ∀ attempt st,
    (attemptLoop retriesLeft attempt server method (request i timeoutMs) st).2
    = scriptResult retriesLeft timeoutMs (scriptOf st i)
    ∧ ∀ j, j ≠ i →
        upstream
          (world (attemptLoop retriesLeft attempt server method
                    (request i timeoutMs) st).1) !! j
        = upstream (world st) !! j.
Proof.
  induction retriesLeft as [|k IH]; intros attempt st;
    rewrite attemptLoop_eq; cbv zeta;
    rewrite request_result; unfold scriptOf;
    set (answer := match default [] (upstream (world st) !! i) with
                   | outcome :: _ =>
                       if latency outcome <? timeoutMs then settled outcome
                       else Err "Request timeout"
                   | [] => Err "Request timeout"
                   end);
    simpl; fold answer; destruct answer as [value|message]; simpl.
  - split; [done|]. intros j Hj. by rewrite lookup_insert_ne.
  - split; [done|]. intros j Hj.
    pose proof (noteFailure_frame server method attempt message
                  (setWorld (request i timeoutMs (world st)).1 st)) as Hf.
    simpl in Hf. destruct Hf as (_ & _ & _ & _ & _ & -> & _).
    by rewrite lookup_insert_ne.
  - split; [done|]. intros j Hj. by rewrite lookup_insert_ne.
  - destruct (isConnectionError message); simpl.
    + match goal with |- context [attemptLoop k (S attempt) _ _ _ ?s] =>
        destruct (IH (S attempt) s) as [Hres Hup] end.
      pose proof (noteFailure_frame server method attempt message
                    (setWorld (request i timeoutMs (world st)).1 st)) as Hf.
      simpl in Hf. destruct Hf as (_ & _ & _ & _ & _ & Hu & _).
      split.
      * rewrite Hres. unfold scriptOf. simpl. rewrite Hu.
        by rewrite lookup_insert_eq.
      * intros j Hj. rewrite (Hup j Hj). simpl. rewrite Hu.
        by rewrite lookup_insert_ne.
    + split; [done|]. intros j Hj.
      pose proof (noteFailure_frame server method attempt message
                    (setWorld (request i timeoutMs (world st)).1 st)) as Hf.
      simpl in Hf. destruct Hf as (_ & _ & _ & _ & _ & -> & _).
      by rewrite lookup_insert_ne.
Qed.

Lemma returned_script st st' i :
  scriptOf st' i = scriptOf st i → returned st' i = returned st i.
Proof. unfold returned. by intros ->. Qed.

Lemma foldl_ext_in {A B} (f g : A → B → A) (l : list B) :
  ∀ a, (∀ a x, x ∈ l → f a x = g a x) → foldl f a l = foldl g a l.
Proof.
  induction l as [|x l IH]; intros a H; simpl; [done|].
  rewrite (H a x) by left. apply IH. intros b y Hy. apply H. by right.
Qed.

Section Generic.

Variable method : Method.
Variable store : nat → list Descriptor → State → State.
Variable decorate : string → Descriptor → Descriptor.
Variable onError : nat → string → State → State.
Variable table : State → gmap string nat.
Variable ins : nat → list Descriptor → gmap string nat → gmap string nat.

Hypothesis table_frame :
  ∀ st st',
    toolToClientMap st' = toolToClientMap st →
    resourceToClientMap st' = resourceToClientMap st →
    promptToClientMap st' = promptToClientMap st →
    table st' = table st.
Hypothesis store_table :
  ∀ i entries st, table (store i entries st) = ins i entries (table st).
Hypothesis store_upstream :
  ∀ i entries st,
    upstream (world (store i entries st)) = upstream (world st).
Hypothesis onError_table :
  ∀ i message st, table (onError i message st) = table st.
Hypothesis onError_upstream :
  ∀ i message st,
    upstream (world (onError i message st)) = upstream (world st).
Hypothesis ins_nil : ∀ i t, ins i [] t = t.

Lemma listTask_effect i server st :
  (listTask method store decorate onError i server st).2
  = decorate server <$> returned st i
  ∧ table (listTask method store decorate onError i server st).1
    = ins i (returned st i) (table st)
  ∧ ∀ j, j ≠ i →
      scriptOf (listTask method store decorate onError i server st).1 j
      = scriptOf st j.
Proof.
  unfold listTask, executeWithRetry, returned.
  destruct (attemptLoop_request i 10000 server method defaultMaxRetries 0 st)
    as [Hres Hup].
  pose proof (attemptLoop_frame defaultMaxRetries 0 server method
                (request i 10000) st) as (_ & Ht & Hr & Hp & _).
  rewrite <- Hres.
  destruct (attemptLoop defaultMaxRetries 0 server method (request i 10000) st)
    as [st1 [result|message]]; simpl in *.
  - destruct (entriesOf result) as [entries|]; simpl.
    + split; [done|]. split.
      * rewrite store_table. f_equal. by apply table_frame.
      * intros j Hj. unfold scriptOf. by rewrite store_upstream, Hup.
    + split; [done|]. split.
      * rewrite ins_nil. by apply table_frame.
      * intros j Hj. unfold scriptOf. by rewrite Hup.
  - split; [done|]. split.
    + rewrite ins_nil, onError_table. by apply table_frame.
    + intros j Hj. unfold scriptOf. by rewrite onError_upstream, Hup.
Qed.

Lemma runTasks_effect start order :
  NoDup order.*1 →
  ∀ finish results st,
    let r := runTasks (listTask method store decorate onError)
               start finish order results st in
    table r.1
    = foldl (λ t ic, ins ic.1 (returned st ic.1) t) (table st) order
    ∧ r.2
      = foldl (λ res ic, <[ic.1 := decorate ic.2 <$> returned st ic.1]> res)
          results order
    ∧ ∀ j, j ∉ order.*1 → scriptOf r.1 j = scriptOf st j.
Proof.
  induction order as [|[i server] order IH]; intros Hnd finish results st;
    simpl.
  - split; [by apply table_frame|]. done.
  - apply NoDup_cons in Hnd as [Hi Hnd].
    set (stc := setWorld (setClock start (world st)) st).
    destruct (listTask_effect i server stc) as (Hval & Htab & Hscr).
    set (r1 := listTask method store decorate onError i server stc) in *.
    destruct (IH Hnd (Z.max finish (now r1.1)) (<[i := r1.2]> results) r1.1)
      as (Ht & Hr & Hs).
    assert (∀ j, j ∈ order.*1 → returned r1.1 j = returned st j) as Hret.
    { intros j Hj. apply returned_script.
      rewrite Hscr; [done|]. intros ->. done. }
    split; [|split].
    + rewrite Ht, Htab.
      replace (table stc) with (table st) by (symmetry; by apply table_frame).
      apply foldl_ext_in. intros t [j s] Hjs. simpl.
      rewrite Hret; [done|]. apply list_elem_of_fmap. by exists (j, s).
    + rewrite Hr, Hval.
      apply foldl_ext_in. intros t [j s] Hjs. simpl.
      rewrite Hret; [done|]. apply list_elem_of_fmap. by exists (j, s).
    + intros j Hj. apply not_elem_of_cons in Hj as [Hne Hj].
      rewrite (Hs j Hj). by apply Hscr.
Qed.

End Generic.

(** *** What the folds of a fan-out leave in a table *)

Lemma routed_lookup_not key i entries :
  ∀ t n, n ∉ key <$> entries → routed key i entries t !! n = t !! n.
Proof.
  unfold routed. induction entries as [|d entries IH]; intros t n Hn; simpl;
    [done|].
  simpl in Hn. apply not_elem_of_cons in Hn as [Hne Hn].
  rewrite IH by done. by rewrite lookup_insert_ne.
Qed.

Lemma routed_lookup_elem key i entries :
  ∀ t n, n ∈ key <$> entries → routed key i entries t !! n = Some i.
Proof.
  induction entries as [|d entries IH]; intros t n Hn; simpl in *.
  - by apply elem_of_nil in Hn.
  - destruct (decide (n ∈ key <$> entries)) as [Hin|Hout].
    + by apply IH.
    + apply elem_of_cons in Hn as [->|Hn]; [|done].
      change (routed key i entries (<[key d := i]> t) !! key d = Some i).
      rewrite routed_lookup_not by done. by rewrite lookup_insert_eq.
Qed.

Lemma routed_is_Some key i entries t n :
  is_Some (t !! n) → is_Some (routed key i entries t !! n).
Proof.
  intros H. destruct (decide (n ∈ key <$> entries)).
  - rewrite routed_lookup_elem by done. eauto.
  - by rewrite routed_lookup_not.
Qed.

Section Rebuilt.

Variable key : Descriptor → string.
Variable ret : nat → list Descriptor.

Lemma rebuilt_lookup order :
  ∀ t n j,
    foldl (λ t (ic : nat * string), routed key ic.1 (ret ic.1) t) t order !! n
    = Some j →
    t !! n = Some j
    ∨ ∃ server, (j, server) ∈ order ∧ n ∈ key <$> ret j.
Proof.
  induction order as [|[i server] order IH]; intros t n j H; simpl in *;
    [by left|].
  destruct (IH _ _ _ H) as [Hh|(s & Hin & Hn)].
  - destruct (decide (n ∈ key <$> ret i)) as [Hi|Hi].
    + rewrite routed_lookup_elem in Hh by done. injection Hh as <-.
      right. exists server. split; [left|done].
    + rewrite routed_lookup_not in Hh by done. by left.
  - right. exists s. split; [by right|done].
Qed.

Lemma rebuilt_is_Some order :
  ∀ t n,
    is_Some (t !! n)
    ∨ (∃ i server, (i, server) ∈ order ∧ n ∈ key <$> ret i) →
    is_Some
      (foldl (λ t (ic : nat * string), routed key ic.1 (ret ic.1) t) t order
         !! n).
Proof.
  induction order as [|[i server] order IH]; intros t n H; simpl.
  - destruct H as [H|(i & s & Hin & _)]; [done|].
    by apply elem_of_nil in Hin.
  - apply IH. destruct H as [H|(j & s & Hin & Hn)].
    + left. by apply routed_is_Some.
    + apply elem_of_cons in Hin as [[= -> ->]|Hin].
      * left. rewrite routed_lookup_elem by done. eauto.
      * right. eauto.
Qed.

End Rebuilt.

Lemma results_lookup_not {A} (f : nat * string → A) order :
  ∀ (results : gmap nat A) i,
    i ∉ order.*1 →
    foldl (λ res ic, <[ic.1 := f ic]> res) results order !! i = results !! i.
Proof.
  induction order as [|[j s] order IH]; intros results i Hi; simpl; [done|].
  simpl in Hi. apply not_elem_of_cons in Hi as [Hne Hi].
  rewrite IH by done. by rewrite lookup_insert_ne.
Qed.

Lemma results_lookup {A} (f : nat * string → A) order :
  NoDup order.*1 →
  ∀ (results : gmap nat A) ic,
    ic ∈ order →
    foldl (λ res ic, <[ic.1 := f ic]> res) results order !! ic.1
    = Some (f ic).
Proof.
  induction order as [|[j s] order IH]; intros Hnd results ic Hin; simpl.
  - by apply elem_of_nil in Hin.
  - simpl in Hnd. apply NoDup_cons in Hnd as [Hj Hnd].
    apply elem_of_cons in Hin as [->|Hin].
    + simpl. rewrite results_lookup_not by done. by rewrite lookup_insert_eq.
    + by apply IH.
Qed.

Lemma getHealthyClients_NoDup st : NoDup (getHealthyClients st).*1.
Proof.
  unfold getHealthyClients. rewrite <- list_fmap_compose.
  eapply (sublist_NoDup _ ((imap pair (connectedClients st)).*1)).
  - rewrite fmap_imap.
    change (NoDup (imap (λ (j : nat) (_ : ConnectedClient), id j)
                     (connectedClients st))).
    rewrite (imap_seq_0 (connectedClients st) id), list_fmap_id.
    apply NoDup_seq.
  - apply fmap_sublist, sublist_filter.
Qed.

Lemma runTasks_ext (task1 task2 : Task) start order :
  (∀ i server st, task1 i server st = task2 i server st) →
  ∀ finish results st,
    runTasks task1 start finish order results st
    = runTasks task2 start finish order results st.
Proof.
  intros H. induction order as [|[i server] order IH];
    intros finish results st; simpl; [done|].
  by rewrite H, IH.
Qed.

(** *** The four list tasks *)

Lemma listToolsTask_shape i server st :
  listToolsTask i server st
  = listTask ToolsList storeTools withDescription demoteOnConnectionError
      i server st.
Proof.
  unfold listToolsTask, listTask, demoteOnConnectionError, demoteAlways.
  destruct (executeWithRetry _ _ _ _ _) as [st1 [result|message]]; simpl;
    [done|].
  by destruct (isConnectionError message).
Qed.

Lemma listPromptsTask_shape i server st :
  listPromptsTask i server st
  = listTask PromptsList storePrompts withDescription demoteAlways i server st.
Proof. reflexivity. Qed.

Lemma listResourcesTask_shape i server st :
  listResourcesTask i server st
  = listTask ResourcesList storeResources withName demoteAlways i server st.
Proof. reflexivity. Qed.

Lemma listTemplatesTask_shape i server st :
  listTemplatesTask i server st
  = listTask TemplatesList storeNothing asTemplate demoteAlways i server st.
Proof. reflexivity. Qed.

Lemma demoteAlways_frame i message st :
  toolToClientMap (demoteAlways i message st) = toolToClientMap st
  ∧ resourceToClientMap (demoteAlways i message st) = resourceToClientMap st
  ∧ promptToClientMap (demoteAlways i message st) = promptToClientMap st
  ∧ upstream (world (demoteAlways i message st)) = upstream (world st).
Proof.
  unfold demoteAlways, triggerHealthCheck.
  by destruct (connectedClients (demote i message st) !! i).
Qed.

Lemma demoteOnConnectionError_frame i message st :
  toolToClientMap (demoteOnConnectionError i message st) = toolToClientMap st
  ∧ resourceToClientMap (demoteOnConnectionError i message st)
    = resourceToClientMap st
  ∧ promptToClientMap (demoteOnConnectionError i message st)
    = promptToClientMap st
  ∧ upstream (world (demoteOnConnectionError i message st))
    = upstream (world st).
Proof.
  unfold demoteOnConnectionError.
  destruct (isConnectionError message); [apply demoteAlways_frame|done].
Qed.

Lemma storeTools_effect i entries :
  ∀ st,
    toolToClientMap (storeTools i entries st)
    = routed d_name i entries (toolToClientMap st)
    ∧ resourceToClientMap (storeTools i entries st) = resourceToClientMap st
    ∧ promptToClientMap (storeTools i entries st) = promptToClientMap st
    ∧ upstream (world (storeTools i entries st)) = upstream (world st).
Proof.
  unfold storeTools, routed.
  induction entries as [|d entries IH]; intros st; simpl; [done|].
  destruct (IH (setTools (<[d_name d := i]> (toolToClientMap st)) st))
    as (-> & -> & -> & ->). done.
Qed.

Lemma storePrompts_effect i entries :
  ∀ st,
    promptToClientMap (storePrompts i entries st)
    = routed d_name i entries (promptToClientMap st)
    ∧ toolToClientMap (storePrompts i entries st) = toolToClientMap st
    ∧ resourceToClientMap (storePrompts i entries st) = resourceToClientMap st
    ∧ upstream (world (storePrompts i entries st)) = upstream (world st).
Proof.
  unfold storePrompts, routed.
  induction entries as [|d entries IH]; intros st; simpl; [done|].
  destruct (IH (setPrompts (<[d_name d := i]> (promptToClientMap st)) st))
    as (-> & -> & -> & ->). done.
Qed.

Lemma storeResources_effect i entries :
  ∀ st,
    resourceToClientMap (storeResources i entries st)
    = routed d_uri i entries (resourceToClientMap st)
    ∧ toolToClientMap (storeResources i entries st) = toolToClientMap st
    ∧ promptToClientMap (storeResources i entries st) = promptToClientMap st
    ∧ upstream (world (storeResources i entries st)) = upstream (world st).
Proof.
  unfold storeResources, routed.
  induction entries as [|d entries IH]; intros st; simpl; [done|].
  destruct (IH (setResources (<[d_uri d := i]> (resourceToClientMap st)) st))
    as (-> & -> & -> & ->). done.
Qed.

(** *** The fan-out of a list handler *)

Lemma Permutation_NoDup_fst (order healthy : list (nat * string)) :
  order ≡ₚ healthy → NoDup healthy.*1 → NoDup order.*1.
Proof. intros Hp Hnd. by rewrite Hp. Qed.

Lemma collect_merged decorate st order healthy :
  order ≡ₚ healthy →
  NoDup healthy.*1 →
  collect healthy
    (foldl (λ res (ic : nat * string),
              <[ic.1 := decorate ic.2 <$> returned st ic.1]> res) ∅ order)
  = merged decorate st healthy.
Proof.
  intros Hp Hnd. unfold collect, merged. f_equal.
  apply list_fmap_ext. intros k ic Hk.
  rewrite (results_lookup
             (λ ic : nat * string, decorate ic.2 <$> returned st ic.1)).
  - done.
  - by eapply Permutation_NoDup_fst.
  - rewrite Hp. by eapply list_elem_of_lookup_2.
Qed.

Lemma rebuiltFrom_fold key st order healthy :
  order ≡ₚ healthy →
  rebuiltFrom key st healthy
    (foldl (λ t (ic : nat * string), routed key ic.1 (returned st ic.1) t)
       ∅ order).
Proof.
  intros Hp. split.
  - intros n i H.
    apply (rebuilt_lookup key (returned st)) in H as [H|(server & Hin & Hn)].
    + by rewrite lookup_empty in H.
    + exists server. by rewrite <- Hp.
  - intros n i server Hin Hn.
    apply (rebuilt_is_Some key (returned st)). right.
    exists i, server. by rewrite Hp.
Qed.

Lemma rebuiltFrom_nil key st : rebuiltFrom key st [] ∅.
Proof.
  split.
  - intros n i H. by rewrite lookup_empty in H.
  - intros n i server H. by apply elem_of_nil in H.
Qed.

Lemma foldl_unchanged {A B} (l : list B) (a : A) : foldl (λ t _, t) a l = a.
Proof. induction l; simpl; done. Qed.

Lemma listTools_rebuilt order st :
  order ≡ₚ getHealthyClients st →
  rebuiltFrom d_name st (getHealthyClients st)
    (toolToClientMap (listTools order st).1)
  ∧ listed (listTools order st).2
    = merged withDescription st (getHealthyClients st).
Proof.
  intros Hp. unfold listTools.
  change (getHealthyClients (setTools ∅ st)) with (getHealthyClients st).
  pose proof (getHealthyClients_NoDup st) as Hnd.
  destruct (getHealthyClients st) as [|ic healthy] eqn:Hh; simpl.
  - split; [apply rebuiltFrom_nil|done].
  - unfold allSettled.
    rewrite (runTasks_ext _ _ _ _ listToolsTask_shape).
    destruct (runTasks_effect ToolsList storeTools withDescription
                demoteOnConnectionError toolToClientMap (routed d_name)
                ltac:(done)
                ltac:(intros; apply storeTools_effect)
                ltac:(intros; apply storeTools_effect)
                ltac:(intros; apply demoteOnConnectionError_frame)
                ltac:(intros; apply demoteOnConnectionError_frame)
                ltac:(done)
                (now (setTools ∅ st)) order
                (Permutation_NoDup_fst _ _ Hp Hnd)
                (now (setTools ∅ st)) ∅ (setTools ∅ st))
      as (Ht & Hr & _).
    rewrite Ht, Hr. split.
    + by apply (rebuiltFrom_fold d_name st order (ic :: healthy)).
    + by apply (collect_merged withDescription st order (ic :: healthy)).
Qed.

Lemma listPrompts_rebuilt order cursor st :
  order ≡ₚ getHealthyClients st →
  rebuiltFrom d_name st (getHealthyClients st)
    (promptToClientMap (listPrompts order cursor st).1)
  ∧ listed (listPrompts order cursor st).2
    = merged withDescription st (getHealthyClients st).
Proof.
  intros Hp. unfold listPrompts.
  change (getHealthyClients (setPrompts ∅ st)) with (getHealthyClients st).
  pose proof (getHealthyClients_NoDup st) as Hnd.
  destruct (getHealthyClients st) as [|ic healthy] eqn:Hh; simpl.
  - split; [apply rebuiltFrom_nil|done].
  - unfold allSettled.
    rewrite (runTasks_ext _ _ _ _ listPromptsTask_shape).
    destruct (runTasks_effect PromptsList storePrompts withDescription
                demoteAlways promptToClientMap (routed d_name)
                ltac:(done)
                ltac:(intros; apply storePrompts_effect)
                ltac:(intros; apply storePrompts_effect)
                ltac:(intros; apply demoteAlways_frame)
                ltac:(intros; apply demoteAlways_frame)
                ltac:(done)
                (now (setPrompts ∅ st)) order
                (Permutation_NoDup_fst _ _ Hp Hnd)
                (now (setPrompts ∅ st)) ∅ (setPrompts ∅ st))
      as (Ht & Hr & _).
    rewrite Ht, Hr. split.
    + by apply (rebuiltFrom_fold d_name st order (ic :: healthy)).
    + by apply (collect_merged withDescription st order (ic :: healthy)).
Qed.

Lemma listResources_rebuilt order st :
  order ≡ₚ getHealthyClients st →
  rebuiltFrom d_uri st (getHealthyClients st)
    (resourceToClientMap (listResources order st).1)
  ∧ listed (listResources order st).2
    = merged withName st (getHealthyClients st).
Proof.
  intros Hp. unfold listResources.
  change (getHealthyClients (setResources ∅ st)) with (getHealthyClients st).
  pose proof (getHealthyClients_NoDup st) as Hnd.
  destruct (getHealthyClients st) as [|ic healthy] eqn:Hh; simpl.
  - split; [apply rebuiltFrom_nil|done].
  - unfold allSettled.
    rewrite (runTasks_ext _ _ _ _ listResourcesTask_shape).
    destruct (runTasks_effect ResourcesList storeResources withName
                demoteAlways resourceToClientMap (routed d_uri)
                ltac:(done)
                ltac:(intros; apply storeResources_effect)
                ltac:(intros; apply storeResources_effect)
                ltac:(intros; apply demoteAlways_frame)
                ltac:(intros; apply demoteAlways_frame)
                ltac:(done)
                (now (setResources ∅ st)) order
                (Permutation_NoDup_fst _ _ Hp Hnd)
                (now (setResources ∅ st)) ∅ (setResources ∅ st))
      as (Ht & Hr & _).
    rewrite Ht, Hr. split.
    + by apply (rebuiltFrom_fold d_uri st order (ic :: healthy)).
    + by apply (collect_merged withName st order (ic :: healthy)).
Qed.

Lemma listResourceTemplates_tables order cursor st
  (table : State → gmap string nat) :
  (∀ st st',
     toolToClientMap st' = toolToClientMap st →
     resourceToClientMap st' = resourceToClientMap st →
     promptToClientMap st' = promptToClientMap st →
     table st' = table st) →
  order ≡ₚ getHealthyClients st →
  table (listResourceTemplates order cursor st).1 = table st
  ∧ listed (listResourceTemplates order cursor st).2
    = merged asTemplate st (getHealthyClients st).
Proof.
  intros Hframe Hp. unfold listResourceTemplates.
  pose proof (getHealthyClients_NoDup st) as Hnd.
  destruct (getHealthyClients st) as [|ic healthy] eqn:Hh; simpl; [done|].
  unfold allSettled.
  rewrite (runTasks_ext _ _ _ _ listTemplatesTask_shape).
  destruct (runTasks_effect TemplatesList storeNothing asTemplate
              demoteAlways table (λ _ _ t, t)
              Hframe
              ltac:(done)
              ltac:(done)
              ltac:(intros; apply Hframe; apply demoteAlways_frame)
              ltac:(intros; apply demoteAlways_frame)
              ltac:(done)
              (now st) order
              (Permutation_NoDup_fst _ _ Hp Hnd)
              (now st) ∅ st)
    as (Ht & Hr & _).
  rewrite Ht, Hr. split.
  - apply foldl_unchanged.
  - by apply (collect_merged asTemplate st order (ic :: healthy)).
Qed.

(** C3, as the claim states it, fails for [resources/templates/list]: an
    upstream succeeds and returns the template [tpl], the handler lists it,
    and yet no routing table is cleared (the resource table keeps its old
    entry) and none holds the name or the URI of the template. *)
Lemma templates_have_no_routing_table :
  let r := listResourceTemplates [(0%nat, "A")] None withStaleResource in
  d_name <$> returned withStaleResource 0 = ["tpl"]
  ∧ d_name <$> listed r.2 = ["[A] tpl"]
  ∧ resourceToClientMap r.1 !! "stale" = Some 0%nat
  ∧ resourceToClientMap r.1 !! "tpl" = None
  ∧ resourceToClientMap r.1 !! "file:///{path}" = None
  ∧ toolToClientMap r.1 !! "tpl" = None
  ∧ promptToClientMap r.1 !! "tpl" = None.
Proof. vm_compute. by repeat split. Qed.

(** C3, amended.  For [tools/list], [prompts/list] and [resources/list],
    when the promises of the fan-out settle in any order: the fan-out runs
    over the clients whose [isConnected] is true; afterwards the routing
    table of the handler (tools and prompts by name, resources by URI) holds
    exactly the names returned by the connected upstreams that succeeded on
    that call, each routed to an upstream that returned it, whatever the
    table held before; an upstream that fails returns nothing, and what the
    others contribute does not depend on it; the listing is what the
    upstreams returned, in the order of the connected clients.
    [resources/templates/list] merges its listing in the same way and leaves
    all three routing tables as they are.  With no connected upstream, each
    of the four handlers returns an empty listing. *)
Theorem list_rebuilds_routing order cursor st :
  order ≡ₚ getHealthyClients st →
  (rebuiltFrom d_name st (getHealthyClients st)
     (toolToClientMap (listTools order st).1)
   ∧ listed (listTools order st).2
     = merged withDescription st (getHealthyClients st))
  ∧ (rebuiltFrom d_name st (getHealthyClients st)
       (promptToClientMap (listPrompts order cursor st).1)
     ∧ listed (listPrompts order cursor st).2
       = merged withDescription st (getHealthyClients st))
  ∧ (rebuiltFrom d_uri st (getHealthyClients st)
       (resourceToClientMap (listResources order st).1)
     ∧ listed (listResources order st).2
       = merged withName st (getHealthyClients st))
  ∧ (toolToClientMap (listResourceTemplates order cursor st).1
     = toolToClientMap st
     ∧ promptToClientMap (listResourceTemplates order cursor st).1
       = promptToClientMap st
     ∧ resourceToClientMap (listResourceTemplates order cursor st).1
       = resourceToClientMap st
     ∧ listed (listResourceTemplates order cursor st).2
       = merged asTemplate st (getHealthyClients st))
  ∧ (∀ i d, d ∈ returned st i → succeeds st i)
  ∧ (getHealthyClients st = [] →
     listed (listTools order st).2 = []
     ∧ listed (listPrompts order cursor st).2 = []
     ∧ listed (listResources order st).2 = []
     ∧ listed (listResourceTemplates order cursor st).2 = []).
Proof.
  intros Hp.
  pose proof (listTools_rebuilt order st Hp) as Htools.
  pose proof (listPrompts_rebuilt order cursor st Hp) as Hprompts.
  pose proof (listResources_rebuilt order st Hp) as Hresources.
  pose proof (listResourceTemplates_tables order cursor st toolToClientMap
                ltac:(done) Hp) as [Ht1 Hl].
  pose proof (listResourceTemplates_tables order cursor st promptToClientMap
                ltac:(done) Hp) as [Ht2 _].
  pose proof (listResourceTemplates_tables order cursor st resourceToClientMap
                ltac:(done) Hp) as [Ht3 _].
  repeat (split; [done|]). split.
  - intros i d. unfold returned, succeeds.
    destruct (scriptResult _ _ _) as [result|message]; [eauto|].
    intros H. by apply elem_of_nil in H.
  - intros Hnone.
    destruct Htools as [_ ->], Hprompts as [_ ->], Hresources as [_ ->].
    rewrite Hl, Hnone. done.
Qed.

Lemma list_rebuilds_routing_witness :
  rebuiltFrom d_name oneUpOneDown (getHealthyClients oneUpOneDown)
    (toolToClientMap
       (listTools [(1%nat, "B"); (0%nat, "A")] oneUpOneDown).1)
  ∧ listed (listTools [(1%nat, "B"); (0%nat, "A")] oneUpOneDown).2
    = [ {| d_name := "t1"; d_uri := "urn:t1";
           d_description := Some "[A] does X" |} ]
  ∧ toolToClientMap (listTools [(1%nat, "B"); (0%nat, "A")] oneUpOneDown).1
      !! "t1" = Some 0%nat.
Proof.
  split; [|split].
  - exact (proj1 (proj1 (list_rebuilds_routing
                           [(1%nat, "B"); (0%nat, "A")] None oneUpOneDown
                           (perm_swap (0%nat, "A") (1%nat, "B") [])))).
  - vm_compute. reflexivity.
  - vm_compute. reflexivity.
Defined.

End ListingFacts.

(** ** Failures in list handlers and in tool calls *)

Section CallFacts.

Import Proxy.

(** C4 at its failing input.  An upstream answers a list request with the
    business error 'Invalid parameters'.  [tools/list] leaves the client as
    it is.  [prompts/list], [resources/list] and [resources/templates/list]
    set its [isConnected] to false, record the message as [lastError] and
    trigger a health check, which finds the client unhealthy and marks it
    unhealthy in the metrics manager. *)
Lemma business_error_demotes_outside_tools_list :
  isConnectionError "Invalid parameters" = false
  ∧ connectedClients (listTools [(0%nat, "A")] rejectsParameters).1
    = [clientA]
  ∧ connectedClients (listPrompts [(0%nat, "A")] None rejectsParameters).1
    = [disconnected "Invalid parameters" clientA]
  ∧ connectedClients (listResources [(0%nat, "A")] rejectsParameters).1
    = [disconnected "Invalid parameters" clientA]
  ∧ connectedClients
      (listResourceTemplates [(0%nat, "A")] None rejectsParameters).1
    = [disconnected "Invalid parameters" clientA]
  ∧ hc_isHealthy
      <$> healthChecks (listPrompts [(0%nat, "A")] None rejectsParameters).1
          !! "A"
    = Some false
  ∧ isHealthy
      <$> metrics
            (metricsManager
               (world (listPrompts [(0%nat, "A")] None rejectsParameters).1))
          !! "A"
    = Some false
  ∧ isHealthy
      <$> metrics
            (metricsManager
               (world (listTools [(0%nat, "A")] rejectsParameters).1))
          !! "A"
    = Some true.
Proof. vm_compute. by repeat split. Qed.






End CallFacts.

(** ** Selection strategies *)

Section SelectionFacts.

Import Selection.

Lemma lt_spec (a b : Q) : lt a b = true ↔ (a < b)%Q.
Proof.
  unfold lt. rewrite negb_true_iff. split.
  - intros H. apply Qnot_le_lt. intros Hle.
    apply Qle_bool_iff in Hle. congruence.
  - intros H. destruct (Qle_bool b a) eqn:Hb; [|done].
    apply Qle_bool_iff in Hb. exfalso. by apply (Qlt_not_le a b).
Qed.

(** *** [reduce] with a "keep the better one" step *)

Section Reduce.

Context {A : Type}.
Variable better : A → A → Prop.
Variable betterb : A → A → bool.
Hypothesis betterb_spec : ∀ a b, betterb a b = true ↔ better a b.
Hypothesis better_trans : ∀ a b c, better a b → better b c → better a c.
Hypothesis better_weak : ∀ a b c, better a b → ¬ better c b → better a c.

Lemma foldl_keep_firstBest rest :
  ∀ before acc mid,
    (∀ z, z ∈ before → better acc z) →
    (∀ z, z ∈ mid → ¬ better z acc) →
    firstBest better (before ++ acc :: mid ++ rest) (foldl (keep betterb) acc rest).
Proof.
  induction rest as [|cur rest IH]; intros before acc mid Hb Hm; simpl.
  - exists before, mid. by rewrite app_nil_r.
  - unfold keep at 2. destruct (betterb cur acc) eqn:Hc.
    + apply betterb_spec in Hc.
      replace (before ++ acc :: mid ++ cur :: rest)
        with ((before ++ acc :: mid) ++ cur :: [] ++ rest)
        by (by rewrite <- app_assoc).
      apply IH.
      * intros z Hz. apply elem_of_app in Hz as [Hz|Hz].
        -- eapply better_trans; [exact Hc|by apply Hb].
        -- apply elem_of_cons in Hz as [->|Hz]; [done|].
           eapply better_weak; [exact Hc|by apply Hm].
      * intros z Hz. by apply elem_of_nil in Hz.
    + replace (before ++ acc :: mid ++ cur :: rest)
        with (before ++ acc :: (mid ++ [cur]) ++ rest)
        by (by rewrite <- app_assoc).
      apply IH; [done|].
      intros z Hz. apply elem_of_app in Hz as [Hz|Hz]; [by apply Hm|].
      apply list_elem_of_singleton in Hz as ->.
      rewrite <- betterb_spec. by rewrite Hc.
Qed.

Lemma reduce_firstBest l y :
  reduce (keep betterb) l = Some y → firstBest better l y.
Proof.
  destruct l as [|x rest]; [done|]. simpl. intros [= <-].
  apply (foldl_keep_firstBest rest [] x []).
  - intros z Hz. by apply elem_of_nil in Hz.
  - intros z Hz. by apply elem_of_nil in Hz.
Qed.

Lemma reduce_None l : reduce (keep betterb) l = None ↔ l = [].
Proof. by destruct l. Qed.

Hypothesis better_irrefl : ∀ a, ¬ better a a.

Lemma firstBest_unique l y1 y2 :
  firstBest better l y1 → firstBest better l y2 → y1 = y2.
Proof.
  intros (b1 & a1 & H1 & Hb1 & Ha1) (b2 & a2 & H2 & Hb2 & Ha2).
  destruct (Nat.lt_trichotomy (length b1) (length b2)) as [Hlt|[Heq|Hgt]].
  - exfalso.
    assert (l !! length b1 = Some y1) as Hy1.
    { rewrite H1. by apply list_lookup_middle. }
    rewrite H2, lookup_app_l in Hy1 by done.
    apply list_elem_of_lookup_2 in Hy1.
    assert (l !! length b2 = Some y2) as Hy2.
    { rewrite H2. by apply list_lookup_middle. }
    rewrite H1 in Hy2. rewrite lookup_app_r in Hy2 by lia.
    destruct (length b2 - length b1)%nat as [|k] eqn:Hk; [lia|].
    simpl in Hy2. apply list_elem_of_lookup_2 in Hy2.
    by apply (Ha1 y2 Hy2), Hb2.
  - rewrite H1 in H2. apply app_inj_1 in H2 as [_ H2]; [|done].
    by injection H2.
  - exfalso.
    assert (l !! length b2 = Some y2) as Hy2.
    { rewrite H2. by apply list_lookup_middle. }
    rewrite H1, lookup_app_l in Hy2 by done.
    apply list_elem_of_lookup_2 in Hy2.
    assert (l !! length b1 = Some y1) as Hy1.
    { rewrite H1. by apply list_lookup_middle. }
    rewrite H2 in Hy1. rewrite lookup_app_r in Hy1 by lia.
    destruct (length b1 - length b2)%nat as [|k] eqn:Hk; [lia|].
    simpl in Hy1. apply list_elem_of_lookup_2 in Hy1.
    by apply (Ha2 y1 Hy1), Hb1.
Qed.

Lemma firstBest_elem l y : firstBest better l y → y ∈ l.
Proof.
  intros (b & a & -> & _). apply elem_of_app. right. left.
Qed.

Lemma firstBest_best l y z : firstBest better l y → z ∈ l → ¬ better z y.
Proof.
  intros (b & a & -> & Hb & Ha) Hz.
  apply elem_of_app in Hz as [Hz|Hz].
  - intros Hzy. apply (better_irrefl y).
    eapply better_trans; [by apply Hb|done].
  - apply elem_of_cons in Hz as [->|Hz]; [apply better_irrefl|by apply Ha].
Qed.

End Reduce.

(** The four orders the strategies use. *)

Lemma Qlt_weak (a b c : Q) : (a < b)%Q → ¬ (c < b)%Q → (a < c)%Q.
Proof. intros H1 H2. eapply Qlt_le_trans; [done|by apply Qnot_lt_le]. Qed.

Section Keyed.

Context {A : Type}.
Variable key : A → Q.

Lemma reduce_min l y :
  reduce (keep (λ cur acc, lt (key cur) (key acc))) l = Some y →
  firstBest (λ a b, (key a < key b)%Q) l y.
Proof.
  apply reduce_firstBest.
  - intros a b. apply lt_spec.
  - intros a b c. apply Qlt_trans.
  - intros a b c. apply Qlt_weak.
Qed.

Lemma reduce_max l y :
  reduce (keep (λ cur acc, lt (key acc) (key cur))) l = Some y →
  firstBest (λ a b, (key b < key a)%Q) l y.
Proof.
  apply reduce_firstBest.
  - intros a b. apply lt_spec.
  - intros a b c H1 H2. by eapply Qlt_trans.
  - intros a b c H1 H2. eapply Qle_lt_trans; [by apply Qnot_lt_le|done].
Qed.

Lemma firstBest_min_least l y z :
  firstBest (λ a b, (key a < key b)%Q) l y → z ∈ l → (key y <= key z)%Q.
Proof.
  intros H Hz. apply Qnot_lt_le.
  eapply (firstBest_best (λ a b, (key a < key b)%Q)); try done.
  - intros a b c. apply Qlt_trans.
  - intros a. apply Qlt_irrefl.
Qed.

Lemma firstBest_max_greatest l y z :
  firstBest (λ a b, (key b < key a)%Q) l y → z ∈ l → (key z <= key y)%Q.
Proof.
  intros H Hz. apply Qnot_lt_le.
  eapply (firstBest_best (λ a b, (key b < key a)%Q)); try done.
  - intros a b c H1 H2. by eapply Qlt_trans.
  - intros a. apply Qlt_irrefl.
Qed.

End Keyed.

Lemma healthyOf_elem servers s :
  s ∈ healthyOf servers ↔ s ∈ servers ∧ isHealthy s = true.
Proof. unfold healthyOf. rewrite list_elem_of_filter. tauto. Qed.

(** *** The stable sort by score *)

Lemma insertByScore_perm x l : insertByScore x l ≡ₚ x :: l.
Proof.
  induction l as [|y l IH]; simpl; [done|].
  destruct (Qle_bool _ _); [done|]. rewrite IH. apply perm_swap.
Qed.

Lemma sortByScore_perm l : sortByScore l ≡ₚ l.
Proof.
  induction l as [|x l IH]; simpl; [done|].
  by rewrite insertByScore_perm, IH.
Qed.

Lemma sortByScore_head l :
  ∀ y t, sortByScore l = y :: t → firstBest scoresAbove l y.
Proof.
  induction l as [|x l IH]; intros y t Hs; simpl in Hs; [done|].
  destruct (sortByScore l) as [|y0 t0] eqn:Hsort.
  - simpl in Hs. injection Hs as <- <-.
    assert (l = []) as ->.
    { apply Permutation_nil_r. by rewrite <- Hsort, sortByScore_perm. }
    exists [], []. split; [done|].
    split; intros z Hz; by apply elem_of_nil in Hz.
  - destruct (IH y0 t0 eq_refl) as (before & after & -> & Hb & Ha).
    simpl in Hs.
    destruct (Qle_bool (calculateOverallScore y0) (calculateOverallScore x))
      eqn:Hle.
    + injection Hs as <- <-. apply Qle_bool_iff in Hle.
      exists [], (before ++ y0 :: after). split; [done|]. split.
      * intros z Hz. by apply elem_of_nil in Hz.
      * intros z Hz. unfold scoresAbove. apply Qle_not_lt.
        apply elem_of_app in Hz as [Hz|Hz].
        -- eapply Qle_trans; [|exact Hle]. apply Qlt_le_weak. by apply Hb.
        -- apply elem_of_cons in Hz as [->|Hz]; [done|].
           eapply Qle_trans; [|exact Hle]. apply Qnot_lt_le. by apply Ha.
    + injection Hs as <- <-.
      exists (x :: before), after. split; [done|]. split; [|done].
      intros z Hz. apply elem_of_cons in Hz as [->|Hz]; [|by apply Hb].
      unfold scoresAbove. apply Qnot_le_lt. intros H.
      apply Qle_bool_iff in H. congruence.
Qed.

(** *** What each strategy selects *)

Lemma firstBest_bestHealthy better servers s :
  (∀ a b c, better a b → better b c → better a c) →
  (∀ a, ¬ better a a) →
  firstBest better (healthyOf servers) s → bestHealthy better servers s.
Proof.
  intros Htrans Hirr H.
  pose proof (firstBest_elem better _ _ H) as Hin.
  apply healthyOf_elem in Hin as [Hin Hh].
  repeat split; try done.
  intros z Hz Hzh. eapply firstBest_best; try done.
  by apply healthyOf_elem.
Qed.

Lemma selectPerformance_eq servers :
  selectPerformance servers = serverName <$> reduce faster (healthyOf servers).
Proof. by destruct servers. Qed.

Lemma selectLoadBalanced_eq servers :
  selectLoadBalanced servers
  = serverName <$> reduce lessLoaded (healthyOf servers).
Proof. by destruct servers. Qed.

Lemma selectAdaptive_eq request servers :
  selectAdaptive request servers
  = match detectRequestType request with
    | PerformanceCritical => serverName <$> reduce faster (healthyOf servers)
    | ReliabilityCritical =>
        serverName <$> reduce moreReliable (healthyOf servers)
    | Balanced => serverName <$> reduce betterScore (healthyOf servers)
    end.
Proof.
  unfold selectAdaptive. destruct (healthyOf servers); [|done].
  by destruct (detectRequestType request).
Qed.

Lemma reduce_faster servers s :
  reduce faster (healthyOf servers) = Some s →
  bestHealthy fasterThan servers s.
Proof.
  intros H. apply firstBest_bestHealthy.
  - intros a b c. apply Qlt_trans.
  - intros a. apply Qlt_irrefl.
  - by apply (reduce_min responseTime).
Qed.

Lemma reduce_lessLoaded servers s :
  reduce lessLoaded (healthyOf servers) = Some s →
  bestHealthy lighterThan servers s.
Proof.
  intros H. apply firstBest_bestHealthy.
  - intros a b c. apply Qlt_trans.
  - intros a. apply Qlt_irrefl.
  - by apply (reduce_min loadFactor).
Qed.

Lemma reduce_moreReliable servers s :
  reduce moreReliable (healthyOf servers) = Some s →
  bestHealthy moreReliableThan servers s.
Proof.
  intros H. apply firstBest_bestHealthy.
  - intros a b c H1 H2. unfold moreReliableThan in *. by eapply Qlt_trans.
  - intros a. apply Qlt_irrefl.
  - by apply (reduce_max successRate).
Qed.

Lemma reduce_betterScore servers s :
  reduce betterScore (healthyOf servers) = Some s →
  bestHealthy scoresAbove servers s.
Proof.
  intros H. apply firstBest_bestHealthy.
  - intros a b c H1 H2. unfold scoresAbove in *. by eapply Qlt_trans.
  - intros a. apply Qlt_irrefl.
  - by apply (reduce_max calculateOverallScore).
Qed.

Lemma fmap_reduce_None {A} (f : A → A → A) (l : list A) (g : A → string) :
  g <$> reduce f l = None ↔ l = [].
Proof. by destruct l. Qed.

Lemma fmap_Some_inv {A B} (g : A → B) (o : option A) b :
  g <$> o = Some b → ∃ a, o = Some a ∧ g a = b.
Proof. destruct o as [a|]; [|done]. intros [= <-]. eauto. Qed.

(** X1. The performance strategy returns no server exactly when no server
    is healthy; otherwise it returns the name of a healthy server whose
    response time no healthy server undercuts, the first such one in the
    order given.  The load-balanced strategy does the same with the load
    factor. *)
Theorem performance_and_load_strategies servers :
  (selectPerformance servers = None ↔ healthyOf servers = [])
  ∧ (∀ selected, selectPerformance servers = Some selected →
       ∃ s, serverName s = selected ∧ bestHealthy fasterThan servers s)
  ∧ (selectLoadBalanced servers = None ↔ healthyOf servers = [])
  ∧ (∀ selected, selectLoadBalanced servers = Some selected →
       ∃ s, serverName s = selected ∧ bestHealthy lighterThan servers s).
Proof.
  rewrite selectPerformance_eq, selectLoadBalanced_eq.
  split; [apply fmap_reduce_None|]. split.
  { intros selected H. apply fmap_Some_inv in H as (s & Hs & <-).
    exists s. split; [done|]. by apply reduce_faster. }
  split; [apply fmap_reduce_None|].
  intros selected H. apply fmap_Some_inv in H as (s & Hs & <-).
  exists s. split; [done|]. by apply reduce_lessLoaded.
Qed.

Lemma performance_and_load_strategies_witness :
  selectPerformance [serverZ; serverY; serverX] = Some "X"
  ∧ selectLoadBalanced [serverZ; serverY; serverX] = Some "Y"
  ∧ ∃ s, serverName s = "X"
         ∧ bestHealthy fasterThan [serverZ; serverY; serverX] s.
Proof.
  split; [reflexivity|]. split; [reflexivity|].
  exact (proj1 (proj2 (performance_and_load_strategies
                         [serverZ; serverY; serverX])) "X" eq_refl).
Defined.

Lemma selectQuality_Some servers selected :
  selectQuality servers = Some selected →
  ∃ s, serverName s = selected ∧ bestHealthy scoresAbove servers s.
Proof.
  intros H. unfold selectQuality in H.
  destruct servers as [|s0 servers0]; [done|].
  destruct (sortByScore (healthyOf (s0 :: servers0))) as [|y t] eqn:Hsort;
    [done|].
  exists y. split.
  - destruct (serverName y); [done|]. by injection H.
  - apply firstBest_bestHealthy.
    + intros a b c H1 H2. unfold scoresAbove in *. by eapply Qlt_trans.
    + intros a. apply Qlt_irrefl.
    + by eapply sortByScore_head.
Qed.

Lemma selectQuality_head servers selected :
  selectQuality servers = Some selected →
  ∃ y t, sortByScore (healthyOf servers) = y :: t ∧ serverName y = selected.
Proof.
  intros H. unfold selectQuality in H.
  destruct servers as [|s0 servers0]; [done|].
  destruct (sortByScore (healthyOf (s0 :: servers0))) as [|y t] eqn:Hsort;
    [done|].
  exists y, t. split; [done|].
  destruct (serverName y); [done|]. by injection H.
Qed.

Lemma detectRequestType_spec request :
  match detectRequestType request with
  | PerformanceCritical => urgent request
  | ReliabilityCritical =>
      ¬ urgent request ∧ priority request = Some "high"
  | Balanced => ¬ urgent request ∧ priority request ≠ Some "high"
  end.
Proof.
  unfold detectRequestType, urgent.
  destruct (timeout request) as [t|] eqn:Ht; simpl.
  - destruct (Qeq_bool t 0) eqn:Hz; simpl.
    + apply Qeq_bool_iff in Hz.
      assert (¬ ∃ t0, Some t = Some t0 ∧ ¬ (t0 == 0)%Q ∧ (t0 < 1000)%Q) as Hn
        by (intros (t0 & [= <-] & Hnz & _); done).
      destruct (priority request) as [p|]; [|done].
      destruct (String.eqb_spec p "high") as [->|Hne]; [done|].
      split; [done|congruence].
    + assert (¬ (t == 0)%Q) as Hnz.
      { intros Hq. apply Qeq_bool_iff in Hq. congruence. }
      destruct (lt t 1000) eqn:Hlt.
      * apply lt_spec in Hlt. eauto.
      * assert (¬ ∃ t0, Some t = Some t0 ∧ ¬ (t0 == 0)%Q ∧ (t0 < 1000)%Q)
          as Hn.
        { intros (t0 & [= <-] & _ & Hl). apply lt_spec in Hl. congruence. }
        destruct (priority request) as [p|]; [|done].
        destruct (String.eqb_spec p "high") as [->|Hne]; [done|].
        split; [done|congruence].
  - assert (¬ ∃ t0, None = Some t0 ∧ ¬ (t0 == 0)%Q ∧ (t0 < 1000)%Q) as Hn
      by (intros (t0 & [=] & _); done).
    destruct (priority request) as [p|]; [|done].
    destruct (String.eqb_spec p "high") as [->|Hne]; [done|].
    split; [done|congruence].
Qed.

(** *** The strategies that rank by the rounded score *)

Section RankingFacts.

Variable fl : Q → Q.

Lemma ranking_insert_perm x l : Ranking.insertByScore fl x l ≡ₚ x :: l.
Proof.
  induction l as [|y l IH]; simpl; [done|].
  destruct (Qle_bool _ _); [done|]. rewrite IH. apply perm_swap.
Qed.

Lemma ranking_sort_perm l : Ranking.sortByScore fl l ≡ₚ l.
Proof.
  induction l as [|x l IH]; simpl; [done|].
  by rewrite ranking_insert_perm, IH.
Qed.

Lemma ranking_sort_head l :
  ∀ y t, Ranking.sortByScore fl l = y :: t → firstBest (ranksAbove fl) l y.
Proof.
  induction l as [|x l IH]; intros y t Hs; simpl in Hs; [done|].
  destruct (Ranking.sortByScore fl l) as [|y0 t0] eqn:Hsort.
  - simpl in Hs. injection Hs as <- <-.
    assert (l = []) as ->.
    { apply Permutation_nil_r. by rewrite <- Hsort, ranking_sort_perm. }
    exists [], []. split; [done|].
    split; intros z Hz; by apply elem_of_nil in Hz.
  - destruct (IH y0 t0 eq_refl) as (before & after & -> & Hb & Ha).
    simpl in Hs.
    destruct (Qle_bool (Ranking.calculateOverallScore fl y0)
                (Ranking.calculateOverallScore fl x)) eqn:Hle.
    + injection Hs as <- <-. apply Qle_bool_iff in Hle.
      exists [], (before ++ y0 :: after). split; [done|]. split.
      * intros z Hz. by apply elem_of_nil in Hz.
      * intros z Hz. unfold ranksAbove. apply Qle_not_lt.
        apply elem_of_app in Hz as [Hz|Hz].
        -- eapply Qle_trans; [|exact Hle]. apply Qlt_le_weak. by apply Hb.
        -- apply elem_of_cons in Hz as [->|Hz]; [done|].
           eapply Qle_trans; [|exact Hle]. apply Qnot_lt_le. by apply Ha.
    + injection Hs as <- <-.
      exists (x :: before), after. split; [done|]. split; [|done].
      intros z Hz. apply elem_of_cons in Hz as [->|Hz]; [|by apply Hb].
      unfold ranksAbove. apply Qnot_le_lt. intros H.
      apply Qle_bool_iff in H. congruence.
Qed.

Lemma ranksAbove_unique l y1 y2 :
  firstBest (ranksAbove fl) l y1 → firstBest (ranksAbove fl) l y2 → y1 = y2.
Proof.
  apply firstBest_unique.
Qed.

Lemma reduce_ranking servers s :
  reduce (Ranking.betterScore fl) (healthyOf servers) = Some s →
  bestHealthy (ranksAbove fl) servers s.
Proof.
  intros H. apply firstBest_bestHealthy.
  - intros a b c H1 H2. unfold ranksAbove in *. by eapply Qlt_trans.
  - intros a. apply Qlt_irrefl.
  - by apply (reduce_max (Ranking.calculateOverallScore fl)).
Qed.

Lemma ranking_quality_best servers s :
  bestHealthy (ranksAbove fl) servers s →
  Ranking.selectQuality fl servers = nameOrNull (serverName s).
Proof.
  intros (Hin & _ & Hfirst & _). unfold Ranking.selectQuality.
  destruct servers as [|s0 servers0]; [by apply elem_of_nil in Hin|].
  destruct (Ranking.sortByScore fl (healthyOf (s0 :: servers0)))
    as [|y t] eqn:Hsort.
  - apply (firstBest_elem (ranksAbove fl)) in Hfirst.
    rewrite <- ranking_sort_perm, Hsort in Hfirst.
    by apply elem_of_nil in Hfirst.
  - apply ranking_sort_head in Hsort.
    by rewrite (ranksAbove_unique _ _ _ Hsort Hfirst).
Qed.

Lemma ranking_quality_Some servers selected :
  Ranking.selectQuality fl servers = Some selected →
  ∃ s, serverName s = selected ∧ bestHealthy (ranksAbove fl) servers s.
Proof.
  intros H. unfold Ranking.selectQuality in H.
  destruct servers as [|s0 servers0]; [done|].
  destruct (Ranking.sortByScore fl (healthyOf (s0 :: servers0)))
    as [|y t] eqn:Hsort; [done|].
  exists y. split.
  - destruct (serverName y); [done|]. by injection H.
  - apply firstBest_bestHealthy.
    + intros a b c H1 H2. unfold ranksAbove in *. by eapply Qlt_trans.
    + intros a. apply Qlt_irrefl.
    + by eapply ranking_sort_head.
Qed.

Lemma ranking_adaptive_eq request servers :
  Ranking.selectAdaptive fl request servers
  = match detectRequestType request with
    | PerformanceCritical => serverName <$> reduce faster (healthyOf servers)
    | ReliabilityCritical =>
        serverName <$> reduce moreReliable (healthyOf servers)
    | Balanced =>
        serverName <$> reduce (Ranking.betterScore fl) (healthyOf servers)
    end.
Proof.
  unfold Ranking.selectAdaptive. destruct (healthyOf servers); [|done].
  by destruct (detectRequestType request).
Qed.

End RankingFacts.

(** Without rounding the strategies are the ones of the selector. *)
Lemma ranking_without_rounding request servers :
  Ranking.selectQuality (λ q, q) servers = selectQuality servers
  ∧ Ranking.selectAdaptive (λ q, q) request servers
    = selectAdaptive request servers.
Proof.
  assert (∀ l, Ranking.sortByScore (λ q, q) l = sortByScore l) as Hsort.
  { induction l as [|x l IH]; simpl; [done|]. rewrite IH.
    generalize (sortByScore l). intros sorted.
    induction sorted as [|y sorted IHs]; simpl; [done|]. by rewrite IHs. }
  split.
  - unfold Ranking.selectQuality, selectQuality. by rewrite Hsort.
  - reflexivity.
Qed.

(** X2. The quality strategy sorts the healthy servers by the score the
    machine computes for them and takes the first: whatever the rounding
    of the arithmetic, that is the first healthy server that no healthy
    server ranks above, the one the adaptive strategy picks for a balanced
    request.  It returns no server when no server is healthy, and also
    when the server it picks has the empty name.  The rounding decides
    between servers whose exact scores are equal: of T1 and T2, which both
    score 0.9 exactly, the strategy picks T2 in doubles, where T1 scores
    0.8999999999999999, and would pick T1 in exact arithmetic. *)
Theorem quality_strategy_picks_best_score fl servers request :
  (healthyOf servers = [] → Ranking.selectQuality fl servers = None)
  ∧ (∀ selected, Ranking.selectQuality fl servers = Some selected →
       ∃ s, serverName s = selected ∧ bestHealthy (ranksAbove fl) servers s)
  ∧ (∀ s, bestHealthy (ranksAbove fl) servers s →
       Ranking.selectQuality fl servers = nameOrNull (serverName s))
  ∧ (detectRequestType request = Balanced →
       Ranking.selectQuality fl servers
       = Ranking.selectAdaptive fl request servers ≫= nameOrNull)
  ∧ Ranking.selectQuality binary64 [serverT1; serverT2] = Some "T2"
  ∧ ranksAbove binary64 serverT2 serverT1
  ∧ Ranking.selectQuality (λ q, q) [serverT1; serverT2] = Some "T1".
Proof.
  split.
  { intros Hnone. unfold Ranking.selectQuality. rewrite Hnone.
    by destruct servers. }
  split; [apply ranking_quality_Some|]. split; [apply ranking_quality_best|].
  split.
  { intros Hbal. rewrite ranking_adaptive_eq, Hbal.
    destruct (reduce (Ranking.betterScore fl) (healthyOf servers))
      as [s|] eqn:Hred; simpl.
    - apply ranking_quality_best. by apply reduce_ranking.
    - apply reduce_None in Hred. unfold Ranking.selectQuality. rewrite Hred.
      by destruct servers. }
  split; [vm_compute; reflexivity|]. split; [|vm_compute; reflexivity].
  unfold ranksAbove. vm_compute. reflexivity.
Qed.

(** X3. The adaptive strategy reads the request: with a timeout that is a
    number other than 0 and below 1000 it returns a fastest healthy server;
    otherwise, with priority 'high', a healthy server of the highest
    success rate; otherwise a healthy server that none ranks above by the
    score the machine computes, whatever the rounding of the arithmetic.
    In each case it is the first such server in the order given.  A
    timeout of 0 counts as no timeout.  It returns no server exactly when
    no server is healthy. *)
Theorem adaptive_strategy_dispatch fl request servers :
  (Ranking.selectAdaptive fl request servers = None ↔ healthyOf servers = [])
  ∧ (∀ selected, Ranking.selectAdaptive fl request servers = Some selected →
       ∃ s better, serverName s = selected
                   ∧ adaptiveOrder fl request better
                   ∧ bestHealthy better servers s).
Proof.
  rewrite ranking_adaptive_eq. split.
  { destruct (detectRequestType request); apply fmap_reduce_None. }
  intros selected H.
  pose proof (detectRequestType_spec request) as Hspec.
  destruct (detectRequestType request);
    apply fmap_Some_inv in H as (s & Hs & <-); exists s.
  - exists fasterThan. split; [done|]. split; [|by apply reduce_faster].
    split; [done|]. split; intros Hn; by destruct Hn.
  - destruct Hspec as [Hn Hp]. exists moreReliableThan. split; [done|].
    split; [|by apply reduce_moreReliable].
    split; [done|]. split; [done|]. intros _ Hne. by destruct Hne.
  - destruct Hspec as [Hn Hp]. exists (ranksAbove fl). split; [done|].
    split; [|by apply reduce_ranking].
    split; [done|]. split; [|done]. intros _ Hh. by destruct Hp.
Qed.

Lemma adaptive_strategy_dispatch_witness :
  Ranking.selectAdaptive binary64
    {| timeout := Some 0%Q; priority := Some "high" |}
    [serverZ; serverX; serverY] = Some "Y"
  ∧ Ranking.selectAdaptive binary64
      {| timeout := None; priority := None |} [serverT1; serverT2]
    = Some "T2"
  ∧ ∃ s better,
      serverName s = "Y"
      ∧ adaptiveOrder binary64
          {| timeout := Some 0%Q; priority := Some "high" |} better
      ∧ bestHealthy better [serverZ; serverX; serverY] s.
Proof.
  split; [reflexivity|]. split; [vm_compute; reflexivity|].
  exact (proj2 (adaptive_strategy_dispatch binary64
                  {| timeout := Some 0%Q; priority := Some "high" |}
                  [serverZ; serverX; serverY]) "Y" eq_refl).
Defined.

End SelectionFacts.

(** ** The round-robin strategy and the selector *)

Section SelectorFacts.

Import Selection.

Lemma selectRoundRobin_eq c servers :
  selectRoundRobin c servers
  = (serverName
       <$> healthyOf servers !! (c `mod` length (healthyOf servers))%nat,
     match healthyOf servers with
     | [] => c
     | h => ((c + 1) `mod` length h)%nat
     end).
Proof.
  unfold selectRoundRobin. by destruct (healthyOf servers).
Qed.

Lemma roundRobinRun_lookup servers calls :
  ∀ c j, (j < calls)%nat →
    (roundRobinRun calls c servers).1 !! j
    = Some (serverName
              <$> healthyOf servers
                    !! ((c + j) `mod` length (healthyOf servers))%nat).
Proof.
  induction calls as [|calls IH]; intros c j Hj; [lia|].
  simpl. destruct j as [|j]; simpl.
  { rewrite selectRoundRobin_eq. simpl. by rewrite Nat.add_0_r. }
  rewrite IH by lia.
  assert (healthyOf servers = []
          ∨ (selectRoundRobin c servers).2
            = ((c + 1) `mod` length (healthyOf servers))%nat) as [Hnil| ->].
  { rewrite selectRoundRobin_eq. simpl.
    destruct (healthyOf servers); [by left|by right]. }
  - by rewrite Hnil.
  - rewrite Nat.Div0.add_mod_idemp_l.
    by replace (c + 1 + j)%nat with (c + S j)%nat by lia.
Qed.

(** X4. The round-robin strategy cycles through the healthy servers in the
    order given: from index [c], the [j]-th selection on the same servers
    is the healthy server at position [(c + j) mod n], [n] the number of
    healthy servers, and no server when none is healthy.  So every healthy
    server is selected once in any [n] successive selections. *)
Theorem round_robin_cycles servers c :
  (∀ calls j, (j < calls)%nat →
     (roundRobinRun calls c servers).1 !! j
     = Some (serverName
               <$> healthyOf servers
                     !! ((c + j) `mod` length (healthyOf servers))%nat))
  ∧ (∀ s, s ∈ healthyOf servers →
       Some (serverName s)
       ∈ (roundRobinRun (length (healthyOf servers)) c servers).1)
  ∧ (healthyOf servers = [] →
       ∀ calls, (roundRobinRun calls c servers).1 = replicate calls None).
Proof.
  split; [intros calls j; apply roundRobinRun_lookup|]. split.
  - intros s Hs. apply list_elem_of_lookup_1 in Hs as [i Hi].
    pose proof (lookup_lt_Some _ _ _ Hi) as Hlt.
    set (n := length (healthyOf servers)) in *.
    set (j := ((i + (n - c `mod` n)) `mod` n)%nat).
    assert (j < n)%nat as Hj by (apply Nat.mod_upper_bound; lia).
    apply (list_elem_of_lookup_2 _ j).
    rewrite roundRobinRun_lookup by done. fold n.
    replace ((c + j) `mod` n)%nat with i; [by rewrite Hi|].
    unfold j. rewrite Nat.Div0.add_mod_idemp_r.
    pose proof (Nat.div_mod_eq c n) as Hc.
    pose proof (Nat.mod_upper_bound c n ltac:(lia)) as Hm.
    replace (c + (i + (n - c `mod` n)))%nat
      with (i + (c `div` n + 1) * n)%nat by lia.
    rewrite Nat.Div0.mod_add. symmetry. by apply Nat.mod_small.
  - intros Hnone calls. revert c.
    induction calls as [|calls IH]; intros c; [done|].
    simpl. rewrite IH. rewrite selectRoundRobin_eq, Hnone. done.
Qed.

(** *** The selector's result *)

Lemma findIndex_found {A} (p : A → bool) (xs : list A) :
  (∃ x, x ∈ xs ∧ p x = true) →
  0 ≤ findIndex p xs < Z.of_nat (length xs).
Proof.
  induction xs as [|x xs IH]; intros (y & Hy & Hp).
  { by apply elem_of_nil in Hy. }
  simpl. destruct (p x) eqn:Hpx; [lia|].
  apply elem_of_cons in Hy as [->|Hy]; [congruence|].
  specialize (IH (ex_intro _ y (conj Hy Hp))).
  destruct (Z.ltb_spec (findIndex p xs) 0); lia.
Qed.

Lemma rank_confidence (rank n : Z) :
  0 ≤ rank < n →
  (0 < Qmax 0 (1 - inject_Z rank / inject_Z n) <= 1)%Q.
Proof.
  intros [H0 Hn].
  assert (0 < inject_Z n)%Q as Hpos.
  { change 0%Q with (inject_Z 0). rewrite <- Zlt_Qlt. lia. }
  assert (0 <= inject_Z rank / inject_Z n)%Q as Hlo.
  { apply Qle_shift_div_l; [done|]. rewrite Qmult_0_l.
    change 0%Q with (inject_Z 0). rewrite <- Zle_Qle. lia. }
  assert (inject_Z rank / inject_Z n < 1)%Q as Hhi.
  { apply Qlt_shift_div_r; [done|]. rewrite Qmult_1_l.
    rewrite <- Zlt_Qlt. lia. }
  assert (0 < 1 - inject_Z rank / inject_Z n)%Q as Hgt.
  { rewrite <- (Qlt_minus_iff (inject_Z rank / inject_Z n) 1). done. }
  rewrite Q.max_r by (by apply Qlt_le_weak).
  split; [done|].
  apply Qle_minus_iff.
  assert (1 + - (1 - inject_Z rank / inject_Z n)
          == inject_Z rank / inject_Z n)%Q as -> by ring.
  done.
Qed.

Lemma runStrategy_healthy s c request servers selected :
  (runStrategy s c request servers).1 = Some selected →
  ∃ m, m ∈ servers ∧ isHealthy m = true ∧ serverName m = selected.
Proof.
  destruct s; simpl.
  - intros H. apply selectQuality_Some in H as (m & <- & Hin & Hh & _).
    eauto.
  - rewrite selectPerformance_eq. intros H.
    apply fmap_Some_inv in H as (m & Hm & <-).
    apply reduce_faster in Hm as (Hin & Hh & _). eauto.
  - rewrite selectLoadBalanced_eq. intros H.
    apply fmap_Some_inv in H as (m & Hm & <-).
    apply reduce_lessLoaded in Hm as (Hin & Hh & _). eauto.
  - rewrite selectRoundRobin_eq. simpl. intros H.
    apply fmap_Some_inv in H as (m & Hm & <-).
    apply list_elem_of_lookup_2 in Hm. apply healthyOf_elem in Hm as [Hin Hh].
    eauto.
  - rewrite selectAdaptive_eq. intros H.
    destruct (detectRequestType request);
      apply fmap_Some_inv in H as (m & Hm & <-).
    + apply reduce_faster in Hm as (Hin & Hh & _). eauto.
    + apply reduce_moreReliable in Hm as (Hin & Hh & _). eauto.
    + apply reduce_betterScore in Hm as (Hin & Hh & _). eauto.
Qed.

Lemma find_named servers m :
  m ∈ servers →
  ∃ m', find (λ x, String.eqb (serverName x) (serverName m)) servers = Some m'
        ∧ m' ∈ servers ∧ serverName m' = serverName m.
Proof.
  induction servers as [|x servers IH]; intros Hin.
  { by apply elem_of_nil in Hin. }
  simpl. destruct (String.eqb_spec (serverName x) (serverName m)) as [He|Hne].
  { exists x. split; [done|]. split; [left|done]. }
  apply elem_of_cons in Hin as [->|Hin]; [done|].
  destruct (IH Hin) as (m' & Hf & Hin' & Hn).
  exists m'. split; [done|]. split; [by right|done].
Qed.

Lemma bind_nameOrNull (o : option string) selected :
  o ≫= nameOrNull = Some selected → o = Some selected ∧ selected ≠ EmptyString.
Proof.
  destruct o as [n|]; [|done]. simpl. destruct n; [done|].
  intros [= <-]. done.
Qed.

Lemma calculateConfidence_range servers m m' :
  m ∈ servers → isHealthy m = true → serverName m' = serverName m →
  (0 < calculateConfidence (Some m') servers <= 1)%Q.
Proof.
  intros Hin Hh Hname. unfold calculateConfidence.
  assert (m ∈ healthyOf servers) as Hm by (by apply healthyOf_elem).
  destruct (healthyOf servers) as [|h0 h] eqn:Hhealthy.
  { by apply elem_of_nil in Hm. }
  apply rank_confidence.
  rewrite <- (Permutation_length (sortByScore_perm (h0 :: h))).
  apply findIndex_found. exists m. split.
  - by rewrite sortByScore_perm.
  - rewrite Hname. apply String.eqb_refl.
Qed.

Lemma getAlternatives_spec selected servers :
  (length (getAlternatives selected servers) ≤ 3)%nat
  ∧ ∀ a, a ∈ getAlternatives selected servers →
      a ≠ selected
      ∧ ∃ m, m ∈ servers ∧ isHealthy m = true ∧ serverName m = a.
Proof.
  unfold getAlternatives. split.
  - rewrite length_fmap, length_take. lia.
  - intros a Ha. apply list_elem_of_fmap in Ha as (m & -> & Hm).
    apply elem_of_take in Hm as (i & Hm & _).
    apply list_elem_of_lookup_2 in Hm.
    rewrite sortByScore_perm in Hm.
    apply list_elem_of_filter in Hm as [[Hh Hne] Hin]. eauto.
Qed.

Lemma selectServer_fields key c request servers :
  match selectedServer (selectServer key c request servers).1 with
  | Some selected =>
      selected ≠ EmptyString
      ∧ (∃ m, m ∈ servers ∧ isHealthy m = true ∧ serverName m = selected)
      ∧ (0 < confidence (selectServer key c request servers).1 <= 1)%Q
      ∧ (length (alternatives (selectServer key c request servers).1) ≤ 3)%nat
      ∧ (∀ a, a ∈ alternatives (selectServer key c request servers).1 →
           a ≠ selected
           ∧ ∃ m, m ∈ servers ∧ isHealthy m = true ∧ serverName m = a)
  | None =>
      confidence (selectServer key c request servers).1 = 0%Q
      ∧ alternatives (selectServer key c request servers).1 = []
      ∧ estimatedResponseTime (selectServer key c request servers).1 = 0%Q
  end.
Proof.
  unfold selectServer.
  destruct ((runStrategy (lookupStrategy key) c request servers).1
              ≫= nameOrNull) as [selected|] eqn:Hsel; simpl; [|done].
  apply bind_nameOrNull in Hsel as [Hsel Hne].
  apply runStrategy_healthy in Hsel as (m & Hin & Hh & <-).
  split; [done|]. split; [eauto|].
  destruct (find_named servers m Hin) as (m' & -> & Hin' & Hname).
  split; [by apply (calculateConfidence_range servers m)|].
  apply getAlternatives_spec.
Qed.

Lemma quality_confidence c request servers :
  is_Some (selectedServer (selectServer "quality" c request servers).1) →
  (confidence (selectServer "quality" c request servers).1 == 1)%Q.
Proof.
  unfold selectServer. cbn [lookupStrategy String.eqb Ascii.eqb Bool.eqb
    runStrategy fst snd].
  change (lookupStrategy "quality") with Quality. cbn [runStrategy fst snd].
  destruct (selectQuality servers ≫= nameOrNull) as [selected|] eqn:Hsel;
    cbn [selectedServer confidence fst]; [intros _|by intros [? ?]].
  apply bind_nameOrNull in Hsel as [Hsel Hne].
  destruct (selectQuality_head _ _ Hsel) as (y & t & Hsort & Hy).
  assert (y ∈ servers ∧ isHealthy y = true) as [Hin Hh].
  { apply healthyOf_elem. rewrite <- sortByScore_perm, Hsort. left. }
  destruct (find_named servers y Hin) as (m' & Hfind & _ & Hname).
  rewrite <- Hy, Hfind. unfold calculateConfidence.
  destruct (healthyOf servers) as [|h0 h] eqn:Hhealthy.
  { done. }
  rewrite Hsort. cbn [findIndex]. rewrite Hname, String.eqb_refl.
  assert (inject_Z 0 / inject_Z (Z.of_nat (length (h0 :: h))) == 0)%Q as ->.
  { unfold Qdiv. change (inject_Z 0) with 0%Q. ring. }
  rewrite Q.max_r by lra. lra.
Qed.

(** X5. The selector's result is well formed.  When it names a server, the
    name is not empty and is that of a healthy server among those given,
    the confidence lies in (0, 1], and there are at most three
    alternatives, each the name of a healthy server other than the selected
    one.  When it names none, confidence and estimated response time are 0
    and there are no alternatives.  A strategy key that is not registered
    selects as the key 'adaptive' does.  With the key 'quality' the
    confidence is 1 whenever a server is named, since the server selected
    is the one ranked first. *)
Theorem selector_result_well_formed key c request servers :
  match selectedServer (selectServer key c request servers).1 with
  | Some selected =>
      selected ≠ EmptyString
      ∧ (∃ m, m ∈ servers ∧ isHealthy m = true ∧ serverName m = selected)
      ∧ (0 < confidence (selectServer key c request servers).1 <= 1)%Q
      ∧ (length (alternatives (selectServer key c request servers).1) ≤ 3)%nat
      ∧ (∀ a, a ∈ alternatives (selectServer key c request servers).1 →
           a ≠ selected
           ∧ ∃ m, m ∈ servers ∧ isHealthy m = true ∧ serverName m = a)
  | None =>
      confidence (selectServer key c request servers).1 = 0%Q
      ∧ alternatives (selectServer key c request servers).1 = []
      ∧ estimatedResponseTime (selectServer key c request servers).1 = 0%Q
  end
  ∧ (key ∉ ["quality"; "performance"; "load-balanced"; "round-robin"] →
     selectServer key c request servers
     = selectServer "adaptive" c request servers)
  ∧ (is_Some (selectedServer (selectServer "quality" c request servers).1) →
     (confidence (selectServer "quality" c request servers).1 == 1)%Q).
Proof.
  split; [apply selectServer_fields|].
  split; [|apply quality_confidence].
  intros Hkey. unfold selectServer, lookupStrategy.
  destruct (String.eqb_spec key "quality") as [->|_]; [set_solver|].
  destruct (String.eqb_spec key "performance") as [->|_]; [set_solver|].
  destruct (String.eqb_spec key "load-balanced") as [->|_]; [set_solver|].
  destruct (String.eqb_spec key "round-robin") as [->|_]; [set_solver|].
  done.
Qed.

(** *** The selector on the records of the metrics manager *)

Lemma reachable_records (P : string → MCPServerMetrics → Prop) :
  (∀ now server,
     P server {| serverName := server; responseTime := 0; successRate := 1;
                 errorCount := 0; totalRequests := 0; lastUsed := now;
                 isHealthy := true; loadFactor := 0;
                 capabilityScore := 1 |}) →
  (∀ now elapsed success server m,
     P server m → P server (Metrics.recorded now elapsed success m)) →
  (∀ now later elapsed success server m,
     P server m →
     P server (LegacyMetrics.recorded now later elapsed success m)) →
  (∀ healthy server m, P server m → P server (Metrics.withHealth healthy m)) →
  (∀ score server m,
     P server m → P server (Metrics.withCapability score m)) →
  ∀ mm, ManagerReachable mm →
        ∀ server m, metrics mm !! server = Some m → P server m.
Proof.
  intros Hinit Hrec Hleg Hhealth Hcap.
  assert (∀ now server m' mm,
            (∀ n m, metrics mm !! n = Some m → P n m) → P server m' →
            ∀ n m,
              metrics (Metrics.updateQualityScore now server
                         (Metrics.setMetrics server m' mm)) !! n = Some m →
              P n m) as Hstore.
  { intros now server m' mm IH Hm' n m. rewrite updateQualityScore_metrics.
    simpl. destruct (decide (server = n)) as [->|Hne].
    - rewrite lookup_insert_eq. by intros [= <-].
    - rewrite lookup_insert_ne by done. apply IH. }
  induction 1 as [|now server mm _ IH|now server elapsed success mm _ IH
                  |now later server elapsed success mm _ IH
                  |now server mm _ IH|now server mm _ IH
                  |now server score mm _ IH|now mm _ IH].
  - intros n m. simpl. by rewrite lookup_empty.
  - apply Hstore; [done|apply Hinit].
  - unfold Metrics.recordRequest.
    destruct (metrics mm !! server) as [m|] eqn:Hm; simpl.
    + rewrite Hm. apply Hstore; [done|]. apply Hrec. by apply IH.
    + assert (∀ n m, metrics (Metrics.initializeServer now server mm) !! n
                     = Some m → P n m) as Hi
        by (apply Hstore; [done|apply Hinit]).
      destruct (metrics (Metrics.initializeServer now server mm) !! server)
        as [m|] eqn:Hm'; [|done].
      apply Hstore; [done|]. apply Hrec. by apply Hi.
  - unfold LegacyMetrics.recordRequest.
    destruct (metrics mm !! server) as [m|] eqn:Hm.
    + apply Hstore; [done|]. apply Hleg. by apply IH.
    + apply Hstore; [done|apply Hinit].
  - unfold Metrics.markServerUnhealthy.
    destruct (metrics mm !! server) as [m|] eqn:Hm; [|done].
    apply Hstore; [done|]. apply Hhealth. by apply IH.
  - unfold Metrics.markServerHealthy.
    destruct (metrics mm !! server) as [m|] eqn:Hm; [|done].
    apply Hstore; [done|]. apply Hhealth. by apply IH.
  - unfold Metrics.updateCapabilityScore.
    destruct (metrics mm !! server) as [m|] eqn:Hm; [|done].
    apply Hstore; [done|]. apply Hcap. by apply IH.
  - intros n m. unfold Metrics.cleanupOldData. simpl.
    rewrite map_lookup_filter_Some. intros [Hm _]. by apply IH.
Qed.

Lemma reachable_storedUnderName mm :
  ManagerReachable mm → storedUnderName mm.
Proof.
  intros H server m. revert mm H server m.
  by apply (reachable_records (λ server m, serverName m = server)).
Qed.

Lemma store_scored now server m' mm :
  scoredAsRanked mm →
  scoredAsRanked
    (Metrics.updateQualityScore now server (Metrics.setMetrics server m' mm)).
Proof.
  intros Hinv n m. unfold Metrics.updateQualityScore. simpl.
  rewrite lookup_insert_eq. simpl.
  destruct (decide (server = n)) as [->|Hne].
  - rewrite !lookup_insert_eq. intros [= <-].
    eexists; split; [reflexivity|]. simpl.
    unfold asScored, Metrics.calculateReliabilityScore.
    by destruct (isHealthy m').
  - rewrite !lookup_insert_ne by done. apply Hinv.
Qed.

Lemma reachable_scored mm : ManagerReachable mm → scoredAsRanked mm.
Proof.
  induction 1 as [|now server mm _ IH|now server elapsed success mm _ IH
                  |now later server elapsed success mm _ IH
                  |now server mm _ IH|now server mm _ IH
                  |now server score mm _ IH|now mm _ IH].
  - intros n m. simpl. by rewrite lookup_empty.
  - by apply store_scored.
  - unfold Metrics.recordRequest.
    destruct (metrics mm !! server) as [m|] eqn:Hm; simpl.
    + rewrite Hm. by apply store_scored.
    + destruct (metrics (Metrics.initializeServer now server mm) !! server)
        as [m|] eqn:Hm'; [|by apply store_scored].
      apply store_scored. by apply store_scored.
  - unfold LegacyMetrics.recordRequest.
    destruct (metrics mm !! server) as [m|] eqn:Hm; by apply store_scored.
  - unfold Metrics.markServerUnhealthy.
    destruct (metrics mm !! server) as [m|] eqn:Hm; [|done].
    by apply store_scored.
  - unfold Metrics.markServerHealthy.
    destruct (metrics mm !! server) as [m|] eqn:Hm; [|done].
    by apply store_scored.
  - unfold Metrics.updateCapabilityScore.
    destruct (metrics mm !! server) as [m|] eqn:Hm; [|done].
    by apply store_scored.
  - intros n m. unfold Metrics.cleanupOldData. simpl.
    rewrite map_lookup_filter_Some. simpl. intros [Hm Hexp].
    destruct (IH n m Hm) as (q & Hq & Hs).
    exists q. split; [|done].
    rewrite map_lookup_filter_Some. simpl. by rewrite Hm.
Qed.

(** X6. The selector and the metrics manager compute the overall score of
    a record by the same operations in the same order, except for the
    reliability term: the manager takes 0 for it when the record is marked
    unhealthy, the selector takes the success rate whatever the health
    bit.  So in every state of the manager the stored overall score of a
    healthy record is the very number the strategies rank it by, and the
    stored score of an unhealthy record is the number the strategies would
    compute for it if its success rate were 0. *)
Theorem selector_ranks_by_the_stored_score mm server m :
  ManagerReachable mm →
  metrics mm !! server = Some m →
  ∃ q, qualityScores mm !! server = Some q
       ∧ overallScore q = calculateOverallScore (asScored m)
       ∧ (isHealthy m = true → overallScore q = calculateOverallScore m)
       ∧ (isHealthy m = false →
          overallScore q
          = (Qmax 0 (1 - responseTime m / 5000) * 0.3 + 0 * 0.3
             + capabilityScore m * 0.2 + (1 - loadFactor m) * 0.2)%Q).
Proof.
  intros Hreach Hm.
  destruct (reachable_scored mm Hreach server m Hm) as (q & Hq & Ho).
  exists q. split; [done|]. split; [done|].
  rewrite Ho. unfold asScored. split; intros ->; reflexivity.
Qed.

Lemma selector_ranks_by_the_stored_score_witness :
  ∃ q, qualityScores oneServer !! "A" = Some q
       ∧ (overallScore q == 1)%Q.
Proof.
  destruct (selector_ranks_by_the_stored_score oneServer "A" _
              oneServer_reachable eq_refl) as (q & Hq & Ho & _).
  exists q. split; [done|]. rewrite Ho. reflexivity.
Defined.

Lemma connected_record (clients : list ConnectedClient) mm m :
  storedUnderName mm →
  m ∈ omap (λ client, metrics mm !! name client)
        (filter (λ client, isConnected client = true) clients) →
  (∃ client, client ∈ clients ∧ name client = serverName m
             ∧ isConnected client = true)
  ∧ metrics mm !! serverName m = Some m.
Proof.
  intros Hown Hm. apply list_elem_of_omap in Hm as (client & Hc & Hm).
  apply list_elem_of_filter in Hc as [Hcon Hc].
  pose proof (Hown _ _ Hm) as Hname. rewrite <- Hname in Hm.
  split; [|done]. exists client. by rewrite Hname.
Qed.

(** X7. [selectBestServer] selects among the connected clients that the
    metrics manager marks healthy: in every state of the manager, the
    server it names, and each alternative, is a client that is connected
    and whose metrics record says healthy.  With no connected client it
    names no server and echoes the strategy key. *)
Theorem best_server_is_connected_and_healthy key c request
  (clients : list ConnectedClient) mm :
  ManagerReachable mm →
  (∀ selected,
     selectedServer (selectBestServer key c request clients mm).1
     = Some selected →
     ∀ a, a = selected
          ∨ a ∈ alternatives (selectBestServer key c request clients mm).1 →
       (∃ client, client ∈ clients ∧ name client = a
                  ∧ isConnected client = true)
       ∧ ∃ m, metrics mm !! a = Some m ∧ isHealthy m = true)
  ∧ (filter (λ client, isConnected client = true) clients = [] →
     selectedServer (selectBestServer key c request clients mm).1 = None
     ∧ strategy (selectBestServer key c request clients mm).1 = key).
Proof.
  intros Hreach. apply reachable_storedUnderName in Hreach.
  unfold selectBestServer. split; [|by intros ->].
  destruct (filter (λ client, isConnected client = true) clients)
    as [|c0 cs] eqn:Hf; [done|]. rewrite <- Hf. clear Hf c0 cs.
  set (servers := omap _ _).
  pose proof (selectServer_fields key c request servers) as Hfields.
  intros selected Hsel. rewrite Hsel in Hfields.
  destruct Hfields as (_ & Hm & _ & _ & Halt).
  assert (∀ a, (∃ m, m ∈ servers ∧ isHealthy m = true ∧ serverName m = a) →
               (∃ client, client ∈ clients ∧ name client = a
                          ∧ isConnected client = true)
               ∧ ∃ m, metrics mm !! a = Some m ∧ isHealthy m = true) as Hok.
  { intros a (m & Hin & Hh & <-).
    destruct (connected_record clients mm m Hreach Hin) as [Hc Hrec].
    split; [done|eauto]. }
  intros a [->|Ha]; apply Hok; [done|]. by apply Halt.
Qed.

Lemma best_server_is_connected_and_healthy_witness :
  selectedServer
    (selectBestServer "adaptive" 0 {| timeout := None; priority := None |}
       [clientA] oneServer).1 = Some "A"
  ∧ ∃ m, metrics oneServer !! "A" = Some m ∧ isHealthy m = true.
Proof.
  split; [reflexivity|].
  exact (proj2 (proj1 (best_server_is_connected_and_healthy "adaptive" 0
                         {| timeout := None; priority := None |}
                         [clientA] oneServer oneServer_reachable)
                  "A" eq_refl "A" (or_introl eq_refl))).
Defined.

End SelectorFacts.

(** ** More on the metrics manager *)

Section MetricsRanges.

Lemma inject_Z_nonneg (z : Z) : 0 ≤ z → (0 <= inject_Z z)%Q.
Proof. intros H. change 0%Q with (inject_Z 0). by rewrite <- Zle_Qle. Qed.

Lemma inject_Z_pos (z : Z) : 0 < z → (0 < inject_Z z)%Q.
Proof. intros H. change 0%Q with (inject_Z 0). by rewrite <- Zlt_Qlt. Qed.

Lemma ratio_unit (a b : Z) :
  0 ≤ a ≤ b → 0 < b → unitInterval (1 - inject_Z a / inject_Z b).
Proof.
  intros H1 H2. pose proof (inject_Z_pos b H2) as Hb.
  pose proof (inject_Z_nonneg a ltac:(lia)) as Ha.
  assert (inject_Z a <= inject_Z b)%Q by (rewrite <- Zle_Qle; lia).
  assert (0 <= inject_Z a / inject_Z b)%Q
    by (apply Qle_shift_div_l; [done|lra]).
  assert (inject_Z a / inject_Z b <= 1)%Q
    by (apply Qle_shift_div_r; [done|lra]).
  unfold unitInterval. lra.
Qed.

Lemma Qmax_unit (x : Q) : (x <= 1)%Q → unitInterval (Qmax 0 x).
Proof.
  intros H. split; [apply Q.le_max_l|]. apply Q.max_lub; [lra|done].
Qed.

Lemma Qmin_unit (x : Q) : (0 <= x)%Q → unitInterval (Qmin 1 x).
Proof.
  intros H. split; [|apply Q.le_min_l]. apply Q.min_glb; [lra|done].
Qed.

Lemma nextLoadFactor_unit now total m :
  0 < total → lastUsed m ≤ now → unitInterval (loadFactor m) →
  unitInterval (Metrics.nextLoadFactor now total m).
Proof.
  intros Ht Hused [Hl0 Hl1]. unfold Metrics.nextLoadFactor.
  destruct (Z.eqb_spec total 0) as [|_]; [lia|].
  destruct (Z.ltb_spec (now - lastUsed m) 60000) as [Hwin|Hwin].
  - assert (unitInterval
              (if now - lastUsed m =? 0 then 1%Q
               else Qmin 1 (inject_Z total
                            / (inject_Z (now - lastUsed m) / inject_Z 60000)
                            / 100))) as [Hn0 Hn1].
    { destruct (Z.eqb_spec (now - lastUsed m) 0) as [|Hne].
      - unfold unitInterval. lra.
      - apply Qmin_unit.
        pose proof (inject_Z_pos total Ht) as Htot.
        pose proof (inject_Z_pos (now - lastUsed m) ltac:(lia)) as Hdt.
        assert (0 < inject_Z (now - lastUsed m) / inject_Z 60000)%Q as Hq.
        { apply Qlt_shift_div_l; [done|]. lra. }
        apply Qle_shift_div_l; [done|].
        apply Qle_shift_div_l; [done|]. lra. }
    destruct (total =? 1); [done|]. unfold unitInterval. lra.
  - apply Qmax_unit. lra.
Qed.

Lemma recorded_inRange now elapsed success m :
  (0 <= elapsed)%Q → recordInRange now m →
  recordInRange now (Metrics.recorded now elapsed success m).
Proof.
  intros He (Hc & Hused & Hrt & Hsr & Hlf & Hcap).
  assert (0 ≤ (if negb success then errorCount m + 1 else errorCount m)
          ≤ totalRequests m + 1) as Hc' by (destruct success; simpl; lia).
  unfold recordInRange. simpl. split; [done|]. split; [lia|]. split.
  { destruct (totalRequests m + 1 =? 1); [done|]. lra. }
  split; [apply ratio_unit; [done|lia]|].
  split; [|done]. apply nextLoadFactor_unit; [lia|done|done].
Qed.

Lemma recordInRange_later now now' m :
  now ≤ now' → recordInRange now m → recordInRange now' m.
Proof.
  intros Hle (Hc & Hused & Hrest). split; [done|]. split; [lia|done].
Qed.

Lemma store_inRange now server m' mm :
  managerInRange now mm → recordInRange now m' →
  managerInRange now
    (Metrics.updateQualityScore now server (Metrics.setMetrics server m' mm)).
Proof.
  intros [Hrec Hscore] Hm'. split.
  - intros n m. rewrite updateQualityScore_metrics. simpl.
    destruct (decide (server = n)) as [->|Hne].
    + rewrite lookup_insert_eq. by intros [= <-].
    + rewrite lookup_insert_ne by done. apply Hrec.
  - intros n q. unfold Metrics.updateQualityScore. simpl.
    rewrite lookup_insert_eq. simpl.
    destruct (decide (server = n)) as [->|Hne].
    + rewrite lookup_insert_eq. intros [= <-].
      destruct Hm' as (_ & _ & Hrt & [Hs0 Hs1] & [Hl0 Hl1] & [Hc0 Hc1]).
      assert (unitInterval (Metrics.calculatePerformanceScore m'))
        as [Hp0 Hp1].
      { apply Qmax_unit.
        assert (0 <= responseTime m' / 5000)%Q
          by (apply Qle_shift_div_l; lra). lra. }
      assert (unitInterval (Metrics.calculateReliabilityScore m'))
        as [Hr0 Hr1].
      { unfold Metrics.calculateReliabilityScore.
        destruct (isHealthy m'); simpl; unfold unitInterval; lra. }
      unfold scoreInRange, unitInterval, Metrics.calculateLoadScore. simpl.
      repeat split; lra.
    + rewrite lookup_insert_ne by done. apply Hscore.
Qed.

Lemma managerInRange_later now now' mm :
  now ≤ now' → managerInRange now mm → managerInRange now' mm.
Proof.
  intros Hle [Hrec Hscore]. split; [|done].
  intros server m Hm. eapply recordInRange_later; [done|]. by eapply Hrec.
Qed.

Lemma initial_inRange now server :
  recordInRange now
    {| serverName := server; responseTime := 0; successRate := 1;
       errorCount := 0; totalRequests := 0; lastUsed := now;
       isHealthy := true; loadFactor := 0; capabilityScore := 1 |}.
Proof. unfold recordInRange, unitInterval. simpl. repeat split; lra || lia. Qed.

Lemma ManagerAt_inRange now mm : ManagerAt now mm → managerInRange now mm.
Proof.
  induction 1 as [now|now now' mm _ IH Hle|now server mm _ IH
                  |now server elapsed success mm _ IH He
                  |now server mm _ IH|now server mm _ IH
                  |now server score mm _ IH|now mm _ IH].
  - split; intros server x; simpl; by rewrite lookup_empty.
  - by eapply managerInRange_later.
  - apply store_inRange; [done|apply initial_inRange].
  - unfold Metrics.recordRequest.
    destruct (metrics mm !! server) as [m|] eqn:Hm; simpl.
    + rewrite Hm. apply store_inRange; [done|].
      apply recorded_inRange; [done|]. by apply (proj1 IH server).
    + assert (managerInRange now (Metrics.initializeServer now server mm))
        as Hi by (apply store_inRange; [done|apply initial_inRange]).
      destruct (metrics (Metrics.initializeServer now server mm) !! server)
        as [m|] eqn:Hm'; [|done].
      apply store_inRange; [done|].
      apply recorded_inRange; [done|]. by apply (proj1 Hi server).
  - unfold Metrics.markServerUnhealthy.
    destruct (metrics mm !! server) as [m|] eqn:Hm; [|done].
    apply store_inRange; [done|]. exact (proj1 IH server m Hm).
  - unfold Metrics.markServerHealthy.
    destruct (metrics mm !! server) as [m|] eqn:Hm; [|done].
    apply store_inRange; [done|]. exact (proj1 IH server m Hm).
  - unfold Metrics.updateCapabilityScore.
    destruct (metrics mm !! server) as [m|] eqn:Hm; [|done].
    apply store_inRange; [done|].
    destruct (proj1 IH server m Hm) as (Hc & Hused & Hrt & Hsr & Hlf & _).
    unfold recordInRange. simpl.
    split; [done|]. split; [done|]. split; [done|]. split; [done|].
    split; [done|]. split; [apply Q.le_max_l|].
    apply Q.max_lub; [lra|apply Q.le_min_l].
  - destruct IH as [Hrec Hscore]. split.
    + intros server m. unfold Metrics.cleanupOldData. simpl.
      rewrite map_lookup_filter_Some. intros [Hm _]. by eapply Hrec.
    + intros server q. unfold Metrics.cleanupOldData. simpl.
      rewrite map_lookup_filter_Some. intros [Hq _]. by eapply Hscore.
Qed.

(** X8. Under a clock that does not run backwards and with durations that
    are not negative, the metrics manager keeps every number in range:
    success rate, load factor and capability score of every record, and all
    five scores of every quality score, lie in [0, 1]; no response time is
    negative; no record was last used in the future. *)
Theorem metrics_stay_in_range now mm :
  ManagerAt now mm →
  (∀ server m, metrics mm !! server = Some m → recordInRange now m)
  ∧ (∀ server q, qualityScores mm !! server = Some q → scoreInRange q).
Proof. apply ManagerAt_inRange. Qed.

Lemma metrics_stay_in_range_witness :
  ∃ m, metrics (Metrics.recordRequest 10 "A" 250 false oneServer) !! "A"
       = Some m
       ∧ recordInRange 10 m.
Proof.
  eexists. split; [reflexivity|].
  refine (proj1 (metrics_stay_in_range 10
                   (Metrics.recordRequest 10 "A" 250 false oneServer) _)
            "A" _ eq_refl).
  apply at_record; [|done].
  apply (at_later 0); [|done].
  apply at_initialize, at_empty.
Defined.

(** *** Dropping old records *)

Lemma cleanup_lookup now mm server m :
  metrics (Metrics.cleanupOldData now mm) !! server = Some m
  ↔ metrics mm !! server = Some m ∧ now - lastUsed m ≤ maxAge.
Proof.
  unfold Metrics.cleanupOldData, Metrics.expired, maxAge. simpl.
  rewrite map_lookup_filter_Some. simpl.
  destruct (Z.ltb_spec (24 * 60 * 60 * 1000) (now - lastUsed m));
    split; intros [? ?]; split; try done; lia.
Qed.

Lemma recordRequest_lastUsed now server elapsed success mm :
  ∃ m, metrics (Metrics.recordRequest now server elapsed success mm) !! server
       = Some m
       ∧ lastUsed m = now.
Proof.
  destruct (metrics mm !! server) as [m|] eqn:Hm.
  - rewrite (recordRequest_lookup _ _ _ _ _ _ Hm). eauto.
  - unfold Metrics.recordRequest. rewrite Hm.
    destruct (initializeServer_lookup now server mm) as (m0 & Hm0 & _).
    rewrite Hm0. rewrite updateQualityScore_metrics. simpl.
    rewrite lookup_insert_eq. eauto.
Qed.

(** X9. [cleanupOldData] drops exactly the records last used more than 24
    hours ago, each with its quality score, and leaves the other records
    and their scores as they are.  A record is last used when a request is
    recorded on it: after [recordRequest] at time [t] the record survives
    the cleanups up to [t] + 24 h and no later one, and marking the server
    healthy or unhealthy in between does not extend that. *)
Theorem cleanup_drops_the_stale now mm :
  (∀ server m,
     metrics (Metrics.cleanupOldData now mm) !! server = Some m
     ↔ metrics mm !! server = Some m ∧ now - lastUsed m ≤ maxAge)
  ∧ (∀ server,
       qualityScores (Metrics.cleanupOldData now mm) !! server
       = match metrics mm !! server with
         | Some m =>
             if decide (now - lastUsed m ≤ maxAge)
             then qualityScores mm !! server else None
         | None => qualityScores mm !! server
         end)
  ∧ (∀ t t' server elapsed success healthy,
       is_Some
         (metrics
            (Metrics.cleanupOldData now
               ((if healthy : bool then Metrics.markServerHealthy t' server
                 else Metrics.markServerUnhealthy t' server)
                  (Metrics.recordRequest t server elapsed success mm)))
          !! server)
       ↔ now - t ≤ maxAge).
Proof.
  split; [apply cleanup_lookup|]. split.
  - intros server. unfold Metrics.cleanupOldData, Metrics.expired, maxAge.
    simpl.
    destruct (qualityScores mm !! server) as [q|] eqn:Hq.
    + destruct (metrics mm !! server) as [m|] eqn:Hm.
      * destruct (decide (now - lastUsed m ≤ 86400000)) as [Hle|Hgt].
        -- apply map_lookup_filter_Some. simpl. rewrite Hm.
           split; [done|]. apply Z.ltb_ge. lia.
        -- apply map_lookup_filter_None. right. intros q' Hq'. simpl.
           rewrite Hm. intros Hf. apply Z.ltb_ge in Hf. lia.
      * apply map_lookup_filter_Some. simpl. by rewrite Hm.
    + assert (filter
                (λ kv : string * MCPQualityScore,
                   match metrics mm !! kv.1 with
                   | Some m => 24 * 60 * 60 * 1000 <? now - lastUsed m
                   | None => false
                   end = false) (qualityScores mm) !! server = None) as ->.
      { apply map_lookup_filter_None. by left. }
      destruct (metrics mm !! server) as [m|]; [|done].
      by destruct (decide _).
  - intros t t' server elapsed success healthy.
    destruct (recordRequest_lastUsed t server elapsed success mm)
      as (m & Hm & Hused).
    set (mm1 := Metrics.recordRequest t server elapsed success mm) in *.
    assert (healthFrame mm1
              ((if healthy then Metrics.markServerHealthy t' server
                else Metrics.markServerUnhealthy t' server) mm1)) as Hframe.
    { destruct healthy;
        [apply markServerHealthy_frame|apply markServerUnhealthy_frame]. }
    specialize (Hframe server). rewrite Hm in Hframe.
    destruct (metrics _ !! server) as [m'|] eqn:Hm' in Hframe; [|done].
    destruct Hframe as (_ & _ & _ & _ & _ & _ & Hused' & _).
    split.
    + intros [m2 Hm2]. apply cleanup_lookup in Hm2 as [Hm2 Hle].
      rewrite Hm' in Hm2. injection Hm2 as <-. lia.
    + intros Hle. exists m'. apply cleanup_lookup. split; [done|lia].
Qed.

End MetricsRanges.

(** ** The averages of the dashboard *)

Section DashboardFacts.

Import Dashboard.

Lemma foldl_sumZ {A} (f : A → Z) (l : list A) :
  ∀ a, foldl (λ sum x, sum + f x) a l = a + sumZ f l.
Proof.
  induction l as [|x l IH]; intros a; simpl; [lia|].
  rewrite IH. lia.
Qed.

Lemma withRequests_elem l m :
  m ∈ withRequests l ↔ m ∈ l ∧ 0 < totalRequests m.
Proof. unfold withRequests. rewrite list_elem_of_filter. tauto. Qed.

Lemma withRequests_idemp l : withRequests (withRequests l) = withRequests l.
Proof.
  unfold withRequests. induction l as [|x l IH]; [done|].
  rewrite filter_cons. destruct (decide (0 < totalRequests x)) as [Hx|Hx].
  - by rewrite filter_cons_True, IH.
  - exact IH.
Qed.

Lemma sum_requests_pos (l : list MCPServerMetrics) :
  l ≠ [] → (∀ m, m ∈ l → 0 < totalRequests m) → 0 < sumZ totalRequests l.
Proof.
  destruct l as [|x l]; [done|]. intros _ Hpos. simpl.
  assert (0 ≤ sumZ totalRequests l) as Hrest.
  { assert (∀ m, m ∈ l → 0 < totalRequests m) as Hl
      by (intros m Hm; apply Hpos; by right).
    clear Hpos. induction l as [|y l IH]; simpl; [lia|].
    pose proof (Hl y ltac:(left)) as Hy.
    assert (0 ≤ sumZ totalRequests l); [|lia].
    apply IH. intros m Hm. apply Hl. by right. }
  pose proof (Hpos x ltac:(left)). lia.
Qed.

Lemma rounded_above fl (lo x : Q) :
  monotone fl → exactAt fl lo → (lo <= x)%Q → (lo <= fl x)%Q.
Proof.
  intros Hmono Hlo Hx. eapply Qle_trans; [|apply Hmono, Hx].
  unfold exactAt in Hlo. rewrite Hlo. apply Qle_refl.
Qed.

Lemma rounded_below fl (hi x : Q) :
  monotone fl → exactAt fl hi → (x <= hi)%Q → (fl x <= hi)%Q.
Proof.
  intros Hmono Hhi Hx. eapply Qle_trans; [apply Hmono, Hx|].
  unfold exactAt in Hhi. rewrite Hhi. apply Qle_refl.
Qed.

Section Rounded.

Variable fl : Q → Q.

Lemma calculateAverageResponseTime_eq l :
  withRequests l ≠ [] →
  calculateAverageResponseTime fl l
  = fl (foldl (λ sum m,
                 fl (sum + fl (responseTime m * inject_Z (totalRequests m)))%Q)
              0%Q (withRequests l)
        / inject_Z (sumZ totalRequests (withRequests l)))%Q.
Proof.
  intros Hne. unfold calculateAverageResponseTime.
  destruct l as [|x l]; [done|]. fold (withRequests (x :: l)).
  destruct (withRequests (x :: l)) as [|y s] eqn:Hs; [done|].
  by rewrite foldl_sumZ, Z.add_0_l.
Qed.

Lemma calculateAverageResponseTime_none l :
  withRequests l = [] → calculateAverageResponseTime fl l = 0%Q.
Proof.
  intros Hnone. unfold calculateAverageResponseTime.
  destruct l as [|x l]; [done|]. fold (withRequests (x :: l)).
  by rewrite Hnone.
Qed.

Lemma calculateAverageSuccessRate_eq l :
  withRequests l ≠ [] →
  calculateAverageSuccessRate fl l
  = fl (inject_Z (sumZ (λ m, (totalRequests m - errorCount m)%Z)
                    (withRequests l))
        / inject_Z (sumZ totalRequests (withRequests l)))%Q.
Proof.
  intros Hne. unfold calculateAverageSuccessRate.
  destruct l as [|x l]; [done|]. fold (withRequests (x :: l)).
  destruct (withRequests (x :: l)) as [|y s] eqn:Hs; [done|].
  by rewrite !foldl_sumZ, !Z.add_0_l.
Qed.

Hypothesis fl_monotone : monotone fl.

Lemma weightedSum_mono l l' :
  Forall2 notFaster l l' →
  (∀ m, m ∈ l → 0 < totalRequests m) →
  ∀ a a', (a <= a')%Q →
    (foldl (λ sum m,
              fl (sum + fl (responseTime m * inject_Z (totalRequests m)))%Q)
           a l
     <= foldl (λ sum m,
                 fl (sum + fl (responseTime m * inject_Z (totalRequests m)))%Q)
              a' l')%Q.
Proof.
  induction 1 as [|m m' l l' [Ht Hr] _ IH]; intros Hpos a a' Ha; simpl;
    [done|].
  apply IH; [intros z Hz; apply Hpos; by right|].
  apply fl_monotone. apply Qplus_le_compat; [done|].
  apply fl_monotone. rewrite Ht.
  apply Qmult_le_compat_r; [done|].
  apply inject_Z_nonneg. pose proof (Hpos m ltac:(left)). lia.
Qed.

Lemma notFaster_withRequests l l' :
  Forall2 notFaster l l' →
  Forall2 notFaster (withRequests l) (withRequests l').
Proof.
  unfold withRequests.
  induction 1 as [|m m' l l' [Ht Hr] _ IH]; [constructor|].
  rewrite !filter_cons. rewrite Ht.
  destruct (decide (0 < totalRequests m)); [|done].
  constructor; [by split|done].
Qed.

Lemma notFaster_requests l l' :
  Forall2 notFaster l l' → sumZ totalRequests l' = sumZ totalRequests l.
Proof.
  induction 1 as [|m m' l l' [Ht Hr] _ IH]; [done|]. simpl. by rewrite Ht, IH.
Qed.

Hypothesis fl_zero : exactAt fl 0.

Lemma weightedSum_nonneg l :
  (∀ m, m ∈ l → 0 < totalRequests m ∧ (0 <= responseTime m)%Q) →
  ∀ a, (0 <= a)%Q →
    (0 <= foldl (λ sum m,
                   fl (sum
                       + fl (responseTime m * inject_Z (totalRequests m)))%Q)
                a l)%Q.
Proof.
  induction l as [|m l IH]; intros Hl a Ha; simpl; [done|].
  apply IH; [intros z Hz; apply Hl; by right|].
  destruct (Hl m ltac:(left)) as [Hpos Hr].
  assert (0 <= fl (responseTime m * inject_Z (totalRequests m)))%Q as Hterm.
  { apply rounded_above; [done|done|].
    apply Qmult_le_0_compat; [done|]. apply inject_Z_nonneg. lia. }
  apply rounded_above; [done|done|]. lra.
Qed.

End Rounded.

Lemma toGrid_monotone : monotone toGrid.
Proof.
  intros x y Hxy. unfold toGrid.
  apply Qmult_le_compat_r; [|done].
  rewrite <- Zle_Qle. apply Qfloor_resp_le. lra.
Qed.

(** X10. The dashboard's average response time is computed from the
    servers that have handled requests only: servers without requests do
    not count, and the average is 0 when no server has handled a request.
    The sum of the weighted response times and its quotient by the number
    of requests are rounded, so the average need not lie between the
    lowest and the highest response time; with the rounding of doubles,
    which keeps the order of the numbers it rounds and leaves 0 as it is,
    the average is not negative when no response time is, and it does not
    fall when response times rise.  For the one server R, with response
    time 0.72 and three requests, the average in doubles is
    0.7200000000000001. *)
Theorem average_response_time_over_servers_with_requests fl l :
  (withRequests l = [] → calculateAverageResponseTime fl l = 0%Q)
  ∧ calculateAverageResponseTime fl l
    = calculateAverageResponseTime fl (withRequests l)
  ∧ (monotone fl → exactAt fl 0 →
     (∀ m, m ∈ l → 0 < totalRequests m → (0 <= responseTime m)%Q) →
     (0 <= calculateAverageResponseTime fl l)%Q)
  ∧ (monotone fl →
     ∀ l', Forall2 notFaster l l' →
           (calculateAverageResponseTime fl l
            <= calculateAverageResponseTime fl l')%Q)
  ∧ (responseTime serverR < calculateAverageResponseTime binary64 [serverR])%Q
  ∧ calculateAverageResponseTime binary64 [serverR]
    = binary64 (binary64 (responseTime serverR * 3) / 3).
Proof.
  split; [apply calculateAverageResponseTime_none|].
  split.
  { destruct (decide (withRequests l = [])) as [Hnone|Hne].
    - rewrite Hnone. by apply calculateAverageResponseTime_none.
    - rewrite !calculateAverageResponseTime_eq; rewrite ?withRequests_idemp;
        done. }
  split.
  { intros Hmono Hzero Hl.
    destruct (decide (withRequests l = [])) as [Hnone|Hne].
    { by rewrite calculateAverageResponseTime_none. }
    rewrite calculateAverageResponseTime_eq by done.
    assert (0 < inject_Z (sumZ totalRequests (withRequests l)))%Q as Hpos.
    { apply inject_Z_pos, sum_requests_pos; [done|].
      intros m Hm. by apply withRequests_elem in Hm as [_ Hm]. }
    apply rounded_above; [done|done|].
    apply Qle_shift_div_l; [done|]. rewrite Qmult_0_l.
    apply weightedSum_nonneg; [done|done| |done].
    intros m Hm. apply withRequests_elem in Hm as [Hm Hp]. auto. }
  split.
  { intros Hmono l' Hl.
    pose proof (notFaster_withRequests l l' Hl) as Hw.
    destruct (decide (withRequests l = [])) as [Hnone|Hne].
    { rewrite Hnone in Hw. apply Forall2_nil_inv_l in Hw.
      rewrite !calculateAverageResponseTime_none by done. done. }
    assert (withRequests l' ≠ []) as Hne'.
    { intros Hnil. rewrite Hnil in Hw. by apply Forall2_nil_inv_r in Hw. }
    rewrite !calculateAverageResponseTime_eq by done.
    rewrite (notFaster_requests _ _ Hw).
    assert (0 < inject_Z (sumZ totalRequests (withRequests l)))%Q as Hpos.
    { apply inject_Z_pos, sum_requests_pos; [done|].
      intros m Hm. by apply withRequests_elem in Hm as [_ Hm]. }
    apply Hmono. apply Qmult_le_compat_r.
    - apply weightedSum_mono; [done|done| |done].
      intros m Hm. by apply withRequests_elem in Hm as [_ Hm].
    - apply Qlt_le_weak, Qinv_lt_0_compat, Hpos. }
  split; vm_compute; reflexivity.
Qed.

Lemma reachable_rateMatches mm server m :
  ManagerReachable mm → metrics mm !! server = Some m → rateMatches m.
Proof.
  intros H. revert mm H server m.
  apply (reachable_records (λ _ m, rateMatches m)); unfold rateMatches; simpl;
    try done; lia.
Qed.

Lemma successes_bounds (l : list MCPServerMetrics) :
  (∀ m, m ∈ l → 0 ≤ errorCount m ≤ totalRequests m) →
  0 ≤ sumZ (λ m, (totalRequests m - errorCount m)%Z) l ≤ sumZ totalRequests l.
Proof.
  induction l as [|x l IH]; intros Hl; simpl; [lia|].
  pose proof (Hl x ltac:(left)).
  assert (0 ≤ sumZ (λ m, (totalRequests m - errorCount m)%Z) l
          ≤ sumZ totalRequests l); [|lia].
  apply IH. intros m Hm. apply Hl. by right.
Qed.

(** X11. The dashboard's average success rate is the number of successful
    requests of the servers that have handled requests over the number of
    their requests, rounded once.  On records of the metrics manager, and
    with a rounding that keeps the order of the numbers it rounds and
    leaves 0 and 1 as they are, as the rounding of doubles does, it lies in
    [0, 1].  It is 1 when there are servers but none has handled a
    request, and 0 when there is no server. *)
Theorem average_success_rate_in_range fl mm l :
  monotone fl → exactAt fl 0 → exactAt fl 1 →
  ManagerReachable mm →
  (∀ m, m ∈ l → ∃ server, metrics mm !! server = Some m) →
  unitInterval (calculateAverageSuccessRate fl l)
  ∧ (withRequests l ≠ [] →
     calculateAverageSuccessRate fl l
     = fl (inject_Z (sumZ (λ m, (totalRequests m - errorCount m)%Z)
                       (withRequests l))
           / inject_Z (sumZ totalRequests (withRequests l)))%Q)
  ∧ (l ≠ [] → withRequests l = [] → calculateAverageSuccessRate fl l = 1%Q)
  ∧ (l = [] → calculateAverageSuccessRate fl l = 0%Q).
Proof.
  intros Hmono Hzero Hone Hreach Hl.
  assert (∀ m, m ∈ withRequests l →
               0 < totalRequests m
               ∧ 0 ≤ errorCount m ≤ totalRequests m) as Hrec.
  { intros m Hm. apply withRequests_elem in Hm as [Hm Hpos].
    destruct (Hl m Hm) as [server Hs]. split; [done|].
    by apply (reachable_invariant mm Hreach server m). }
  split; [|split; [|split]].
  - destruct (decide (withRequests l = [])) as [Hnone|Hne].
    + unfold calculateAverageSuccessRate. destruct l as [|x l].
      * unfold unitInterval. lra.
      * fold (withRequests (x :: l)). rewrite Hnone. unfold unitInterval. lra.
    + rewrite calculateAverageSuccessRate_eq by done.
      pose proof (successes_bounds (withRequests l)
                    (λ m Hm, proj2 (Hrec m Hm))) as [H0 H1].
      assert (0 < sumZ totalRequests (withRequests l)) as Hpos.
      { apply sum_requests_pos; [done|]. intros m Hm. by apply Hrec. }
      pose proof (inject_Z_pos _ Hpos) as Hq.
      split.
      * apply rounded_above; [done|done|].
        apply Qle_shift_div_l; [done|]. rewrite Qmult_0_l.
        by apply inject_Z_nonneg.
      * apply rounded_below; [done|done|].
        apply Qle_shift_div_r; [done|]. rewrite Qmult_1_l.
        by rewrite <- Zle_Qle.
  - intros Hne. by apply calculateAverageSuccessRate_eq.
  - intros Hne Hnone. unfold calculateAverageSuccessRate.
    destruct l as [|x l]; [done|]. fold (withRequests (x :: l)).
    by rewrite Hnone.
  - by intros ->.
Qed.

Lemma average_success_rate_in_range_witness :
  ∃ m, metrics (Metrics.recordRequest 10 "A" 250 false
                  (Metrics.recordRequest 5 "A" 250 true
                     (Metrics.recordRequest 1 "A" 250 true oneServer)))
         !! "A" = Some m
       ∧ unitInterval (calculateAverageSuccessRate toGrid [m])
       ∧ calculateAverageSuccessRate toGrid [m] = toGrid (2 / 3).
Proof.
  eexists. split; [reflexivity|]. split; [|reflexivity].
  refine (proj1 (average_success_rate_in_range toGrid
                   (Metrics.recordRequest 10 "A" 250 false
                      (Metrics.recordRequest 5 "A" 250 true
                         (Metrics.recordRequest 1 "A" 250 true oneServer)))
                   [_] toGrid_monotone _ _ _ _)).
  - reflexivity.
  - reflexivity.
  - repeat apply reach_record. apply oneServer_reachable.
  - intros m Hm. apply list_elem_of_singleton in Hm as ->.
    exists "A". reflexivity.
Defined.

End DashboardFacts.

(** ** Connecting to the configured servers *)

Section ClientFacts.

Import Client.

(** X12. The environment handed to a stdio transport holds one variable
    only, the last one listed, with its value in the environment of the
    proxy or the empty string: every other listed variable is missing.  It
    is empty for an empty list and absent when no list is configured. *)
Theorem stdio_env_keeps_the_last_variable env vars :
  stdioEnv env None = None
  ∧ stdioEnv env (Some vars)
    = Some match last vars with
           | Some v => {[ v := default EmptyString (env !! v) ]}
           | None => ∅
           end
  ∧ (∀ v w table,
       stdioEnv env (Some vars) = Some table →
       last vars = Some w → v ≠ w → table !! v = None).
Proof.
  assert (stdioEnv env (Some vars)
          = Some match last vars with
                 | Some v => {[ v := default EmptyString (env !! v) ]}
                 | None => ∅
                 end) as Heq.
  { unfold stdioEnv. simpl. f_equal.
    destruct vars as [|v vars _] using rev_ind; [done|].
    by rewrite foldl_snoc, last_snoc. }
  split; [done|]. split; [done|].
  intros v w table Htable Hlast Hne. rewrite Heq, Hlast in Htable.
  injection Htable as <-. by apply lookup_singleton_ne.
Qed.

(** *** [createClients] *)

Lemma connectLoop_retries host i server p :
  clients (connectLoop host retries 0 i server p)
  = clients p ++ option_list (connectedEntry host (i, server))
  ∧ time (connectLoop host retries 0 i server p)
    = time p + waitFor * waitsMade host (i, server)
  ∧ attempts (connectLoop host retries 0 i server p)
    = ((i,.) <$> reverse (seq 0 (attemptsMade host i server))) ++ attempts p.
Proof.
  unfold connectedEntry, waitsMade, attemptsMade, connectsAt. simpl.
  destruct (createClient host server) as [t|]; simpl.
  2: { rewrite app_nil_r. split; [done|]. split; [unfold waitFor; lia|done]. }
  destruct (connect host i 0) eqn:H0; simpl.
  { split; [done|]. split; [unfold waitFor; lia|done]. }
  destruct (connect host i 1) eqn:H1; simpl.
  { split; [done|]. split; [unfold waitFor; lia|done]. }
  destruct (connect host i 2) eqn:H2; simpl.
  { split; [done|]. split; [unfold waitFor; lia|done]. }
  rewrite app_nil_r. split; [done|]. split; [unfold waitFor; lia|done].
Qed.

Lemma connectLoop_fuel host fuel i server p :
  (retries ≤ fuel)%nat →
  connectLoop host fuel 0 i server p = connectLoop host retries 0 i server p.
Proof.
  intros Hfuel. unfold retries in *.
  destruct fuel as [|[|[|fuel]]]; try lia. simpl.
  destruct (createClient host server); [|done].
  destruct (connect host i 0); [done|].
  destruct (connect host i 1); [done|].
  by destruct (connect host i 2).
Qed.

Lemma createClients_fold host entries :
  ∀ p,
    let r := foldl (λ p (entry : nat * ServerConfig),
                      connectLoop host retries 0 entry.1 entry.2 p)
                   p entries in
    clients r = clients p ++ omap (connectedEntry host) entries
    ∧ time r = time p + waitFor * sumZ (waitsMade host) entries
    ∧ ∀ i k, (i, k) ∈ attempts r
             ↔ (i, k) ∈ attempts p
               ∨ ∃ server, (i, server) ∈ entries
                           ∧ (k < attemptsMade host i server)%nat.
Proof.
  induction entries as [|[i server] entries IH]; intros p;
    cbn [foldl fst snd omap list_omap].
  { change (sumZ (waitsMade host) []) with 0. rewrite app_nil_r. split; [done|]. split; [unfold waitFor; lia|].
    intros i k. split; [by left|]. intros [H|(s & Hs & _)]; [done|].
    by apply elem_of_nil in Hs. }
  destruct (connectLoop_retries host i server p) as (Hc & Ht & Ha).
  destruct (IH (connectLoop host retries 0 i server p)) as (IHc & IHt & IHa).
  cbn zeta in IHc, IHt, IHa.
  change (sumZ (waitsMade host) ((i, server) :: entries))
    with (waitsMade host (i, server) + sumZ (waitsMade host) entries).
  split; [|split].
  - rewrite IHc, Hc, <- app_assoc. f_equal.
    by destruct (connectedEntry host (i, server)).
  - rewrite IHt, Ht. unfold waitFor. lia.
  - intros j k. rewrite IHa, Ha. rewrite elem_of_app, list_elem_of_fmap.
    split.
    + intros [[(k' & [= -> ->] & Hk)|Hp]|(s & Hs & Hk)].
      * right. exists server. split; [left|].
        apply elem_of_reverse, elem_of_seq in Hk. lia.
      * by left.
      * right. exists s. split; [by right|done].
    + intros [Hp|(s & Hs & Hk)]; [by left; right|].
      apply elem_of_cons in Hs as [[= -> ->]|Hs].
      * left. left. exists k. split; [done|].
        apply elem_of_reverse, elem_of_seq. lia.
      * right. eauto.
Qed.

Lemma attemptsMade_bound host i server :
  (attemptsMade host i server ≤ retries)%nat.
Proof.
  unfold attemptsMade, connectsAt, retries. simpl.
  destruct (createClient host server); [|lia].
  destruct (connect host i 0); simpl; [lia|].
  destruct (connect host i 1); simpl; [lia|].
  destruct (connect host i 2); simpl; lia.
Qed.

Lemma waits_bound host (entries : list (nat * ServerConfig)) :
  0 ≤ sumZ (waitsMade host) entries ≤ 2 * Z.of_nat (length entries).
Proof.
  induction entries as [|[i server] entries IH]; simpl; [lia|].
  pose proof (attemptsMade_bound host i server) as Hb.
  unfold waitsMade, retries in *. simpl. lia.
Qed.

Lemma fmap_omap {A B C} (f : A → option B) (g : B → C) (l : list A) :
  g <$> omap f l = omap (λ x, g <$> f x) l.
Proof.
  induction l as [|x l IH]; [done|]. cbn [omap list_omap].
  destruct (f x); cbn [fmap option_fmap option_map]; [|done].
  by rewrite fmap_cons, IH.
Qed.

Lemma imap_pair_fmap {A B} (g : A → B) (l : list A) :
  g <$> l = (λ entry : nat * A, g entry.2) <$> imap pair l.
Proof. rewrite fmap_imap. exact (eq_sym (imap_const g l)). Qed.

Lemma omap_sublist {A B} (f : A → option B) (g : A → B) (l : list A) :
  (∀ x y, f x = Some y → y = g x) → omap f l `sublist_of` g <$> l.
Proof.
  intros Hfg. induction l as [|x l IH]; simpl; [done|].
  destruct (f x) as [y|] eqn:Hy.
  - rewrite (Hfg x y Hy). by apply sublist_skip.
  - by apply sublist_cons.
Qed.

(** X13. [createClients] returns, in the order of the configuration, one
    connected client for each server whose transport can be created and
    that accepts one of the first three connection attempts, and none for
    the others.  It makes at most three attempts per server and waits 2500
    ms after each failed attempt but the third, so at most 5000 ms per
    server.  The loop leaves by itself: more fuel changes nothing. *)
Theorem createClients_connects_within_three_attempts host start servers :
  let r := createClients host start servers in
  clients r = omap (connectedEntry host) (imap pair servers)
  ∧ name <$> clients r `sublist_of` sc_name <$> servers
  ∧ Forall (λ client, isConnected client = true ∧ lastError client = None)
      (clients r)
  ∧ time r = start + waitFor * sumZ (waitsMade host) (imap pair servers)
  ∧ start ≤ time r ≤ start + 5000 * Z.of_nat (length servers)
  ∧ (∀ i k, (i, k) ∈ attempts r →
       (k < retries)%nat ∧ is_Some (servers !! i))
  ∧ (∀ fuel i server p,
       (retries ≤ fuel)%nat →
       connectLoop host fuel 0 i server p
       = connectLoop host retries 0 i server p).
Proof.
  intros r. subst r. unfold createClients.
  destruct (createClients_fold host (imap pair servers)
              {| clients := []; time := start; attempts := [] |})
    as (Hc & Ht & Ha).
  cbn [clients time attempts app] in Hc, Ht, Ha.
  split; [done|]. split; [|split; [|split; [done|split; [|split]]]].
  - rewrite Hc.
    rewrite fmap_omap, imap_pair_fmap.
    apply omap_sublist. intros [i server] y. unfold connectedEntry. simpl.
    destruct (connectsAt host i server); simpl; [|done]. by intros [= <-].
  - rewrite Hc. apply Forall_forall. intros client Hin.
    apply list_elem_of_omap in Hin as ([i server] & _ & Hin).
    unfold connectedEntry in Hin. simpl in Hin.
    destruct (connectsAt host i server); [|done]. by injection Hin as <-.
  - rewrite Ht.
    pose proof (waits_bound host (imap pair servers)) as Hb.
    rewrite length_imap in Hb. unfold waitFor. lia.
  - intros i k Hin. apply Ha in Hin as [Hin|(server & Hs & Hk)].
    { by apply elem_of_nil in Hin. }
    pose proof (attemptsMade_bound host i server). split; [lia|].
    apply elem_of_lookup_imap in Hs as (j & y & [= -> ->] & Hj). eauto.
  - intros fuel i server p. apply connectLoop_fuel.
Qed.

End ClientFacts.

(** ** The periodic round of the health monitor *)

Section RoundFacts.

Lemma mark_metrics now server healthy mm other :
  metrics (if healthy : bool then Metrics.markServerHealthy now server mm
           else Metrics.markServerUnhealthy now server mm) !! other
  = if decide (other = server)
    then Metrics.withHealth healthy <$> metrics mm !! other
    else metrics mm !! other.
Proof.
  assert (∀ h,
            metrics (match metrics mm !! server with
                     | Some m =>
                         Metrics.updateQualityScore now server
                           (Metrics.setMetrics server (Metrics.withHealth h m)
                              mm)
                     | None => mm
                     end) !! other
            = if decide (other = server)
              then Metrics.withHealth h <$> metrics mm !! other
              else metrics mm !! other) as H.
  { intros h. destruct (decide (other = server)) as [->|Hne].
    - destruct (metrics mm !! server) as [m|] eqn:Hm; [|by rewrite Hm].
      rewrite updateQualityScore_metrics. simpl. by rewrite lookup_insert_eq.
    - destruct (metrics mm !! server) as [m|] eqn:Hm; [|done].
      rewrite updateQualityScore_metrics. simpl.
      by rewrite lookup_insert_ne. }
  destruct healthy; apply H.
Qed.

Lemma performHealthChecks_snoc now clients client checks mm :
  Health.performHealthChecks now (clients ++ [client]) checks mm
  = Health.checkServerHealth now client
      (Health.performHealthChecks now clients checks mm).1
      (Health.performHealthChecks now clients checks mm).2.
Proof. unfold Health.performHealthChecks. by rewrite foldl_snoc. Qed.

Lemma lastNamed_snoc server clients client :
  lastNamed server (clients ++ [client])
  = if decide (name client = server) then Some client
    else lastNamed server clients.
Proof.
  unfold lastNamed. rewrite filter_app, filter_cons, filter_nil.
  destruct (decide (name client = server)).
  - by rewrite last_snoc.
  - by rewrite app_nil_r.
Qed.

Lemma performHealthChecks_effect now clients checks mm server :
  (Health.performHealthChecks now clients checks mm).1 !! server
  = match lastNamed server clients with
    | Some client => Some (periodicRecord now client)
    | None => checks !! server
    end
  ∧ metrics (Health.performHealthChecks now clients checks mm).2 !! server
    = match lastNamed server clients with
      | Some client =>
          Metrics.withHealth (Health.periodicVerdict client).1
            <$> metrics mm !! server
      | None => metrics mm !! server
      end.
Proof.
  induction clients as [|client clients [IHc IHm]] using rev_ind; [done|].
  rewrite performHealthChecks_snoc, lastNamed_snoc.
  unfold Health.checkServerHealth, Health.conclude. simpl.
  rewrite mark_metrics.
  destruct (decide (name client = server)) as [<-|Hne].
  - rewrite lookup_insert_eq. split; [done|].
    rewrite decide_True by done. rewrite IHm.
    destruct (lastNamed (name client) clients); [|done].
    by destruct (metrics mm !! name client).
  - rewrite lookup_insert_ne by done. split; [done|].
    by rewrite decide_False.
Qed.

Lemma lastNamed_Some server clients client :
  lastNamed server clients = Some client →
  client ∈ clients ∧ name client = server.
Proof.
  unfold lastNamed. intros Hl. apply last_Some in Hl as [l Hl].
  assert (client ∈ filter (λ c, name c = server) clients) as Hf.
  { rewrite Hl. apply elem_of_app. right. by left. }
  apply list_elem_of_filter in Hf. tauto.
Qed.

Lemma lastNamed_is_Some server clients :
  server ∈ name <$> clients → is_Some (lastNamed server clients).
Proof.
  intros Hin. apply list_elem_of_fmap in Hin as (client & -> & Hin).
  unfold lastNamed. apply last_is_Some. intros Hnil.
  assert (client ∈ filter (λ c, name c = name client) clients) as Hf
    by (by apply list_elem_of_filter).
  rewrite Hnil in Hf. by apply elem_of_nil in Hf.
Qed.

(** X14. After the periodic round of the health monitor, the check record
    of every server that has a client is the verdict on the client of that
    name checked last, stamped with the time of the round, and the metrics
    record of the server, if it has one, carries the same health bit and is
    otherwise as before: monitor and manager agree on every server
    checked.  Servers without a client keep their check record and their
    metrics record. *)
Theorem round_leaves_monitor_and_manager_agreeing now clients checks mm server :
  (∀ client, lastNamed server clients = Some client →
     (Health.performHealthChecks now clients checks mm).1 !! server
     = Some (periodicRecord now client)
     ∧ metrics (Health.performHealthChecks now clients checks mm).2 !! server
       = Metrics.withHealth (Health.periodicVerdict client).1
           <$> metrics mm !! server)
  ∧ (server ∈ name <$> clients →
     ∃ h, (Health.performHealthChecks now clients checks mm).1 !! server
          = Some h
          ∧ hc_serverName h = server
          ∧ lastCheck h = now
          ∧ ∀ m, metrics (Health.performHealthChecks now clients checks mm).2
                   !! server = Some m →
                 isHealthy m = hc_isHealthy h)
  ∧ (server ∉ name <$> clients →
     (Health.performHealthChecks now clients checks mm).1 !! server
     = checks !! server
     ∧ metrics (Health.performHealthChecks now clients checks mm).2 !! server
       = metrics mm !! server).
Proof.
  destruct (performHealthChecks_effect now clients checks mm server)
    as [Hc Hm].
  split; [|split].
  - intros client Hl. by rewrite Hc, Hm, Hl.
  - intros Hin. apply lastNamed_is_Some in Hin as [client Hl].
    pose proof (lastNamed_Some _ _ _ Hl) as [_ Hn].
    rewrite Hc, Hm, Hl. exists (periodicRecord now client).
    split; [done|]. split; [done|]. split; [done|].
    intros m. destruct (metrics mm !! server); [|done].
    by intros [= <-].
  - intros Hnot. rewrite Hc, Hm.
    destruct (lastNamed server clients) as [client|] eqn:Hl; [|done].
    destruct Hnot. apply lastNamed_Some in Hl as [Hin <-].
    apply list_elem_of_fmap. eauto.
Qed.

Lemma getStrictlyHealthyClients_elem st i server :
  (i, server) ∈ getStrictlyHealthyClients st
  ↔ ∃ client, connectedClients st !! i = Some client
              ∧ isConnected client = true ∧ name client = server
              ∧ ∃ h, healthChecks st !! server = Some h
                     ∧ hc_isHealthy h = true.
Proof.
  unfold getStrictlyHealthyClients. rewrite list_elem_of_fmap. split.
  - intros ([j client] & [= -> ->] & H).
    apply list_elem_of_filter in H as [Hc H]. simpl in Hc.
    apply andb_true_iff in Hc as [Hc Hh].
    apply elem_of_lookup_imap in H as (k & c & [= -> ->] & Hk).
    exists c. repeat (split; [done|]).
    destruct (healthChecks st !! name c) as [h|]; [eauto|done].
  - intros (client & Hl & Hc & Hn & h & Hh & Hb). exists (i, client).
    split; [by rewrite <- Hn|].
    apply list_elem_of_filter. split.
    + simpl. rewrite Hc, Hn, Hh. done.
    + apply elem_of_lookup_imap. eauto.
Qed.

Lemma getHealthyClients_lookup st i server :
  (i, server) ∈ Proxy.getHealthyClients st
  ↔ ∃ client, connectedClients st !! i = Some client
              ∧ isConnected client = true ∧ name client = server.
Proof.
  unfold Proxy.getHealthyClients. rewrite list_elem_of_fmap. split.
  - intros ([j client] & [= -> ->] & H).
    apply list_elem_of_filter in H as [Hc H].
    apply elem_of_lookup_imap in H as (k & c & [= -> ->] & Hk). eauto.
  - intros (client & Hl & Hc & Hn). exists (i, client).
    split; [by rewrite <- Hn|].
    apply list_elem_of_filter. split; [done|].
    apply elem_of_lookup_imap. eauto.
Qed.

(** X15. The strictly healthy clients are among the clients the handlers
    fan out to, and right after a round of the health monitor they are
    exactly those of them for which the verdict on the client of the same
    name checked last is healthy.  So a connected client is left out when a
    later client of the same name is disconnected. *)
Theorem strictly_healthy_after_a_round st i server :
  ((i, server) ∈ getStrictlyHealthyClients st →
   (i, server) ∈ Proxy.getHealthyClients st)
  ∧ ((i, server) ∈ getStrictlyHealthyClients (Proxy.healthRound st)
     ↔ (i, server) ∈ Proxy.getHealthyClients st
       ∧ ∃ client, lastNamed server (connectedClients st) = Some client
                   ∧ (Health.periodicVerdict client).1 = true).
Proof.
  rewrite !getStrictlyHealthyClients_elem, !getHealthyClients_lookup.
  split.
  { intros (client & Hl & Hc & Hn & _). eauto. }
  unfold Proxy.healthRound.
  cbn [connectedClients healthChecks setHealthChecks setWorld].
  destruct (performHealthChecks_effect (now st) (connectedClients st)
              (healthChecks st) (metricsManager (world st)) server)
    as [Hchecks _].
  rewrite Hchecks. split.
  - intros (client & Hl & Hc & Hn & h & Hh & Hb). split; [eauto|].
    destruct (lastNamed_is_Some server (connectedClients st)) as [c Hlast].
    { apply list_elem_of_fmap. exists client. split; [done|].
      by eapply list_elem_of_lookup_2. }
    rewrite Hlast in Hh. injection Hh as <-. eauto.
  - intros [(client & Hl & Hc & Hn) (c & Hlast & Hv)].
    exists client. repeat (split; [done|]).
    rewrite Hlast. eauto.
Qed.

End RoundFacts.

(** ** What no step of the proxy does *)

Section StepFacts.

Import Proxy.

Lemma laterClient_refl c : laterClient c c.
Proof. by split. Qed.

Lemma laterClient_trans c1 c2 c3 :
  laterClient c1 c2 → laterClient c2 c3 → laterClient c1 c3.
Proof.
  intros [Hn1 Hc1] [Hn2 Hc2]. split; [congruence|].
  intros Hc. pose proof (Hc2 Hc) as ->. by apply Hc1.
Qed.

Lemma laterClients_refl l : Forall2 laterClient l l.
Proof. induction l; constructor; [apply laterClient_refl|done]. Qed.

Lemma alter_later (f : ConnectedClient → ConnectedClient) l :
  (∀ c, laterClient c (f c)) → ∀ i, Forall2 laterClient l (alter f i l).
Proof.
  intros Hf. induction l as [|c l IH]; intros [|i]; simpl;
    constructor; auto using laterClients_refl, laterClient_refl.
  apply IH.
Qed.

Section SettlesBy.

Variable M : MetricsManager → MetricsManager → Prop.
Hypothesis M_refl : ∀ mm, M mm mm.
Hypothesis M_trans : ∀ mm1 mm2 mm3, M mm1 mm2 → M mm2 mm3 → M mm1 mm3.
Hypothesis M_healthy :
  ∀ now server mm, M mm (Metrics.markServerHealthy now server mm).
Hypothesis M_unhealthy :
  ∀ now server mm, M mm (Metrics.markServerUnhealthy now server mm).

Lemma settles_refl st : settlesBy M st st.
Proof. split; [apply laterClients_refl|apply M_refl]. Qed.

Lemma settles_trans st1 st2 st3 :
  settlesBy M st1 st2 → settlesBy M st2 st3 → settlesBy M st1 st3.
Proof.
  intros [Hc1 Hm1] [Hc2 Hm2]. split; [|by eapply M_trans].
  eapply Forall2_trans; [|exact Hc1|exact Hc2]. apply laterClient_trans.
Qed.

Lemma settles_frame st st' :
  connectedClients st' = connectedClients st →
  metricsManager (world st') = metricsManager (world st) →
  settlesBy M st st'.
Proof.
  intros Hc Hm. split; [rewrite Hc; apply laterClients_refl|].
  rewrite Hm. apply M_refl.
Qed.

Lemma settles_manager st mm' :
  M (metricsManager (world st)) mm' →
  settlesBy M st (setWorld (setManager mm' (world st)) st).
Proof. intros H. split; [apply laterClients_refl|done]. Qed.

Lemma settles_clients st f i :
  (∀ c, laterClient c (f c)) →
  settlesBy M st (setClients (alter f i (connectedClients st)) st).
Proof. intros Hf. split; [by apply alter_later|apply M_refl]. Qed.

Lemma demote_settles i message st : settlesBy M st (demote i message st).
Proof. apply settles_clients. intros c. by split. Qed.

Lemma conclude_moves now client verdict checks mm :
  M mm (Health.conclude now client verdict checks mm).2.
Proof.
  unfold Health.conclude. simpl.
  destruct verdict.1; [apply M_healthy|apply M_unhealthy].
Qed.

Lemma triggerHealthCheck_settles i st :
  settlesBy M st (triggerHealthCheck i st).
Proof.
  unfold triggerHealthCheck.
  destruct (connectedClients st !! i) as [client|]; [|apply settles_refl].
  split; [apply laterClients_refl|]. cbn [world setHealthChecks setWorld
    setManager metricsManager].
  unfold Health.triggerHealthCheck. apply conclude_moves.
Qed.

Lemma noteFailure_settles server method attempt errorMessage st :
  settlesBy M st (noteFailure server method attempt errorMessage st).
Proof.
  unfold noteFailure.
  destruct (isConnectionError errorMessage); [|by apply settles_frame].
  destruct (Health.shouldMarkUnhealthy _ _ _); [|by apply settles_frame].
  split; [apply laterClients_refl|]. simpl. apply M_unhealthy.
Qed.

Lemma attemptLoop_settles operation (Htame : tameBy M operation) retriesLeft :
  ∀ attempt server method st,
    settlesBy M st
      (attemptLoop retriesLeft attempt server method operation st).1.
Proof.
  induction retriesLeft as [|k IH]; intros attempt server method st;
    rewrite attemptLoop_eq; cbn zeta;
    (assert (settlesBy M st (setWorld (operation (world st)).1 st)) as Hop
       by (split; [apply laterClients_refl|apply Htame]));
    destruct (operation (world st)) as [w [result|errorMessage]];
    cbn [fst snd] in *.
  - eapply settles_trans; [exact Hop|]. by apply settles_frame.
  - eapply settles_trans; [exact Hop|]. apply noteFailure_settles.
  - eapply settles_trans; [exact Hop|]. by apply settles_frame.
  - eapply settles_trans; [exact Hop|].
    eapply settles_trans; [apply noteFailure_settles|].
    destruct (isConnectionError errorMessage); cbn [negb fst];
      [|apply settles_refl].
    eapply settles_trans; [|apply IH]. by apply settles_frame.
Qed.

Lemma request_tame i timeoutMs : tameBy M (request i timeoutMs).
Proof. intros w. apply M_refl. Qed.

Lemma executeWithRetry_settles server method operation maxRetries st :
  tameBy M operation →
  settlesBy M st (executeWithRetry server method operation maxRetries st).1.
Proof. intros H. by apply attemptLoop_settles. Qed.

Lemma foldl_settles {A} (f : State → A → State) (xs : list A) st :
  (∀ s x, settlesBy M s (f s x)) → settlesBy M st (foldl f st xs).
Proof.
  intros Hf. revert st. induction xs as [|x xs IH]; intros st; simpl.
  - apply settles_refl.
  - eapply settles_trans; [apply Hf|apply IH].
Qed.

Local Ltac run_then :=
  match goal with
  | |- context [executeWithRetry ?s ?m ?op ?k ?st] =>
      let Hrun := fresh "Hrun" in
      assert (settlesBy M st (executeWithRetry s m op k st).1) as Hrun
        by (apply executeWithRetry_settles;
            first [apply request_tame|done]);
      destruct (executeWithRetry s m op k st) as [st1 [result|message]];
      cbn [fst snd] in *;
      (eapply settles_trans; [exact Hrun|])
  end.

Local Ltac finish :=
  first
    [ apply settles_refl
    | by apply settles_frame
    | apply foldl_settles; intros; by apply settles_frame
    | eapply settles_trans;
        [apply demote_settles|apply triggerHealthCheck_settles] ].

Lemma listToolsTask_settles i server st :
  settlesBy M st (listToolsTask i server st).1.
Proof.
  unfold listToolsTask. run_then.
  - destruct (entriesOf result); cbn [fst]; finish.
  - destruct (isConnectionError message); cbn [fst]; finish.
Qed.

Lemma rebuildToolsTask_settles i server st :
  settlesBy M st (rebuildToolsTask i server st).1.
Proof.
  unfold rebuildToolsTask. run_then; [|finish].
  destruct (entriesOf result); cbn [fst]; finish.
Qed.

Lemma listPromptsTask_settles i server st :
  settlesBy M st (listPromptsTask i server st).1.
Proof.
  unfold listPromptsTask. run_then; [|finish].
  destruct (entriesOf result); cbn [fst]; finish.
Qed.

Lemma rebuildPromptsTask_settles i server st :
  settlesBy M st (rebuildPromptsTask i server st).1.
Proof.
  unfold rebuildPromptsTask. run_then; [|finish].
  destruct (entriesOf result); cbn [fst]; finish.
Qed.

Lemma listResourcesTask_settles i server st :
  settlesBy M st (listResourcesTask i server st).1.
Proof.
  unfold listResourcesTask. run_then; [|finish].
  destruct (entriesOf result); cbn [fst]; finish.
Qed.

Lemma rebuildResourcesTask_settles i server st :
  settlesBy M st (rebuildResourcesTask i server st).1.
Proof.
  unfold rebuildResourcesTask. run_then; [|finish].
  destruct (entriesOf result); cbn [fst]; finish.
Qed.

Lemma listTemplatesTask_settles i server st :
  settlesBy M st (listTemplatesTask i server st).1.
Proof.
  unfold listTemplatesTask. run_then; [|finish].
  destruct (entriesOf result); cbn [fst]; finish.
Qed.

Lemma runTasks_settles (task : Task) start order :
  (∀ i server st, settlesBy M st (task i server st).1) →
  ∀ finish results st,
    settlesBy M st (runTasks task start finish order results st).1.
Proof.
  intros Htask. induction order as [|[i server] order IH];
    intros finish results st; simpl.
  - by apply settles_frame.
  - eapply settles_trans; [|apply IH].
    eapply settles_trans; [|apply Htask]. by apply settles_frame.
Qed.

Lemma allSettled_settles (task : Task) order st :
  (∀ i server st, settlesBy M st (task i server st).1) →
  settlesBy M st (allSettled task order st).1.
Proof. intros Ht. unfold allSettled. by apply runTasks_settles. Qed.

Lemma listTools_settles order st : settlesBy M st (listTools order st).1.
Proof.
  unfold listTools. destruct (getHealthyClients (setTools ∅ st)); simpl.
  - by apply settles_frame.
  - eapply settles_trans; [|apply allSettled_settles, listToolsTask_settles].
    by apply settles_frame.
Qed.

Lemma callTool_settles order tool st :
  (∀ i server, tameBy M (toolCallOperation i server)) →
  settlesBy M st (callTool order tool st).1.
Proof.
  intros Hcall. unfold callTool.
  set (st0 := match toolToClientMap st !! tool with
              | Some _ => st
              | None => (allSettled rebuildToolsTask order (setTools ∅ st)).1
              end).
  assert (settlesBy M st st0) as Hg.
  { subst st0. destruct (toolToClientMap st !! tool); [apply settles_refl|].
    eapply settles_trans; [|apply allSettled_settles,
                              rebuildToolsTask_settles].
    by apply settles_frame. }
  eapply settles_trans; [exact Hg|].
  destruct (resolve st0 (toolToClientMap st0 !! tool)) as [[i client]|];
    simpl; [|apply settles_refl].
  run_then; [finish|].
  destruct (isToolNotFound message); cbn [fst]; [finish|].
  destruct (isConnectionError message); cbn [fst]; finish.
Qed.

Lemma listPrompts_settles order cursor st :
  settlesBy M st (listPrompts order cursor st).1.
Proof.
  unfold listPrompts. destruct (getHealthyClients (setPrompts ∅ st)); simpl.
  - by apply settles_frame.
  - eapply settles_trans; [|apply allSettled_settles,
                              listPromptsTask_settles].
    by apply settles_frame.
Qed.

Lemma getPrompt_settles order prompt st :
  settlesBy M st (getPrompt order prompt st).1.
Proof.
  unfold getPrompt.
  set (st0 := match promptToClientMap st !! prompt with
              | Some _ => st
              | None =>
                  (allSettled rebuildPromptsTask order (setPrompts ∅ st)).1
              end).
  assert (settlesBy M st st0) as Hg.
  { subst st0. destruct (promptToClientMap st !! prompt);
      [apply settles_refl|].
    eapply settles_trans; [|apply allSettled_settles,
                              rebuildPromptsTask_settles].
    by apply settles_frame. }
  eapply settles_trans; [exact Hg|].
  destruct (resolve st0 (promptToClientMap st0 !! prompt))
    as [[i client]|]; simpl; [|apply settles_refl].
  run_then; finish.
Qed.

Lemma listResources_settles order st :
  settlesBy M st (listResources order st).1.
Proof.
  unfold listResources.
  destruct (getHealthyClients (setResources ∅ st)); simpl.
  - by apply settles_frame.
  - eapply settles_trans; [|apply allSettled_settles,
                              listResourcesTask_settles].
    by apply settles_frame.
Qed.

Lemma readResource_settles order uri st :
  settlesBy M st (readResource order uri st).1.
Proof.
  unfold readResource.
  set (st0 := match resourceToClientMap st !! uri with
              | Some _ => st
              | None =>
                  (allSettled rebuildResourcesTask order
                     (setResources ∅ st)).1
              end).
  assert (settlesBy M st st0) as Hg.
  { subst st0. destruct (resourceToClientMap st !! uri);
      [apply settles_refl|].
    eapply settles_trans; [|apply allSettled_settles,
                              rebuildResourcesTask_settles].
    by apply settles_frame. }
  eapply settles_trans; [exact Hg|].
  destruct (resolve st0 (resourceToClientMap st0 !! uri))
    as [[i client]|]; simpl; [|apply settles_refl].
  run_then; finish.
Qed.

Lemma listResourceTemplates_settles order cursor st :
  settlesBy M st (listResourceTemplates order cursor st).1.
Proof.
  unfold listResourceTemplates. destruct (getHealthyClients st); simpl.
  - apply settles_refl.
  - apply allSettled_settles, listTemplatesTask_settles.
Qed.

Lemma handle_settles order request st :
  (∀ i server, tameBy M (toolCallOperation i server)) →
  settlesBy M st (handle order request st).
Proof.
  intros Hcall.
  destruct request as [|tool|cursor|prompt| |uri|cursor]; simpl.
  - apply listTools_settles.
  - by apply callTool_settles.
  - apply listPrompts_settles.
  - apply getPrompt_settles.
  - apply listResources_settles.
  - apply readResource_settles.
  - apply listResourceTemplates_settles.
Qed.

Lemma performHealthChecks_moves now clients :
  ∀ checks mm, M mm (Health.performHealthChecks now clients checks mm).2.
Proof.
  unfold Health.performHealthChecks.
  induction clients as [|client clients IH]; intros checks mm;
    [apply M_refl|].
  simpl. rewrite (surjective_pairing (Health.checkServerHealth _ _ _ _)).
  eapply M_trans; [|apply IH]. apply conclude_moves.
Qed.

Lemma healthRound_settles st : settlesBy M st (healthRound st).
Proof.
  split; [apply laterClients_refl|]. simpl. apply performHealthChecks_moves.
Qed.

End SettlesBy.

(** *** Through its methods only *)

Lemma byMethods_refl mm : byMethods mm mm.
Proof. by intros H. Qed.

Lemma byMethods_trans mm1 mm2 mm3 :
  byMethods mm1 mm2 → byMethods mm2 mm3 → byMethods mm1 mm3.
Proof. unfold byMethods. auto. Qed.

Lemma byMethods_healthy now server mm :
  byMethods mm (Metrics.markServerHealthy now server mm).
Proof. intros H. by apply reach_healthy. Qed.

Lemma byMethods_unhealthy now server mm :
  byMethods mm (Metrics.markServerUnhealthy now server mm).
Proof. intros H. by apply reach_unhealthy. Qed.

Lemma toolCallOperation_byMethods i server :
  tameBy byMethods (toolCallOperation i server).
Proof.
  intros w H. unfold toolCallOperation. simpl. by apply reach_record.
Qed.

Lemma applyTransport_later ev c : laterClient c (applyTransport ev c).
Proof.
  destruct ev as [message| |readyState]; simpl; try by split.
  unfold checkSSEConnection.
  destruct (isConnected c && (readyState =? 2)); by split.
Qed.

Local Ltac by_methods :=
  first [ exact byMethods_refl | exact byMethods_trans
        | exact byMethods_healthy | exact byMethods_unhealthy
        | exact toolCallOperation_byMethods ].

Lemma Step_settles st st' : Step st st' → settlesBy byMethods st st'.
Proof.
  destruct 1 as [order request st _|st|i st|i ev st|st|dt st _].
  - apply handle_settles; by_methods.
  - apply healthRound_settles; by_methods.
  - apply triggerHealthCheck_settles; by_methods.
  - apply settles_clients; [by_methods|apply applyTransport_later].
  - apply settles_manager. intros H. by apply reach_cleanup.
  - apply settles_frame; [by_methods|done|done].
Qed.

Lemma Steps_settles st st' : rtc Step st st' → settlesBy byMethods st st'.
Proof.
  induction 1 as [st|st1 st2 st3 Hstep _ IH];
    [apply settles_refl; by_methods|].
  eapply settles_trans; [by_methods|by apply Step_settles|done].
Qed.

(** X16. The proxy never reconnects a client.  Whatever requests it
    handles, whatever the health monitor and the transports report and
    however much time passes, the clients stay the same in number, order
    and name, and a client that is connected afterwards was connected
    before, with nothing of it changed.  So the servers a fan-out asks can
    only become fewer. *)
Theorem no_step_reconnects_a_client st st' :
  rtc Step st st' →
  name <$> connectedClients st' = name <$> connectedClients st
  ∧ (∀ i client,
       connectedClients st' !! i = Some client →
       isConnected client = true →
       connectedClients st !! i = Some client)
  ∧ (∀ i server,
       (i, server) ∈ getHealthyClients st' →
       (i, server) ∈ getHealthyClients st).
Proof.
  intros Hsteps. apply Steps_settles in Hsteps as [Hclients _].
  assert (∀ i client,
            connectedClients st' !! i = Some client →
            isConnected client = true →
            connectedClients st !! i = Some client) as Hsame.
  { intros i client Hl Hc.
    destruct (Forall2_lookup_r _ _ _ _ _ Hclients Hl) as (c & Hlc & _ & Heq).
    by rewrite (Heq Hc). }
  split; [|split; [done|]].
  - clear Hsame. induction Hclients as [|c c' l l' [Hn _] _ IH]; [done|].
    by rewrite !fmap_cons, Hn, IH.
  - intros i server Hin. apply getHealthyClients_lookup in Hin
      as (client & Hl & Hc & Hn).
    apply getHealthyClients_lookup. exists client. auto.
Qed.

Lemma no_step_reconnects_a_client_witness :
  getHealthyClients afterThreeCalls = []
  ∧ name <$> connectedClients afterThreeCalls = ["A"].
Proof.
  split; [vm_compute; reflexivity|].
  refine (proj1 (no_step_reconnects_a_client started afterThreeCalls _)).
  unfold afterThreeCalls.
  eapply rtc_l; [apply (step_handle [(0%nat, "A")] ListToolsRequest)|].
  { vm_compute. reflexivity. }
  eapply rtc_l; [apply (step_handle [(0%nat, "A")] (CallToolRequest "t1"))|].
  { vm_compute. reflexivity. }
  eapply rtc_l; [apply (step_handle [] (CallToolRequest "t1"))|].
  { vm_compute. reflexivity. }
  eapply rtc_l; [apply (step_handle [] (CallToolRequest "t1"))|].
  { vm_compute. reflexivity. }
  apply rtc_refl.
Defined.

Lemma createServer_reachable start clients scripts :
  ManagerReachable (metricsManager (world (createServer start clients scripts))).
Proof.
  simpl. induction clients as [|client clients IH] using rev_ind.
  - apply reach_empty.
  - rewrite foldl_snoc. by apply reach_initialize.
Qed.

Lemma Reachable_manager st :
  Reachable st → ManagerReachable (metricsManager (world st)).
Proof.
  induction 1 as [start clients scripts|order request st _ IH Hp|st _ IH
                  |i st _ IH|i ev st _ IH|st _ IH|dt st _ IH Hdt].
  - apply createServer_reachable.
  - by apply (proj2 (Step_settles _ _ (step_handle order request st Hp))).
  - by apply (proj2 (Step_settles _ _ (step_round st))).
  - by apply (proj2 (Step_settles _ _ (step_trigger i st))).
  - done.
  - by apply reach_cleanup.
  - done.
Qed.

(** X17. In every state the proxy can reach, the handlers, the health
    monitor and the cleanup have changed the metrics manager through its
    methods only, so every metrics record is consistent: it is stored
    under its own server name, its error count lies between 0 and its
    request count, its success rate is the one these counters give, and it
    has a quality score derived from it. *)
Theorem proxy_keeps_metrics_consistent st server m :
  Reachable st →
  metrics (metricsManager (world st)) !! server = Some m →
  serverName m = server
  ∧ 0 ≤ errorCount m ≤ totalRequests m
  ∧ rateMatches m
  ∧ ∃ q, qualityScores (metricsManager (world st)) !! server = Some q
         ∧ scoreMatches m q.
Proof.
  intros Hreach Hm. apply Reachable_manager in Hreach.
  split; [by apply (reachable_storedUnderName _ Hreach)|].
  destruct (reachable_invariant _ Hreach server m Hm) as [Hc Hq].
  split; [done|]. split; [|done].
  by eapply reachable_rateMatches.
Qed.

Lemma proxy_keeps_metrics_consistent_witness :
  ∃ m, metrics (metricsManager (world afterThreeCalls)) !! "A" = Some m
       ∧ errorCount m = 6 ∧ totalRequests m = 6 ∧ rateMatches m.
Proof.
  eexists. split; [vm_compute; reflexivity|].
  split; [reflexivity|]. split; [reflexivity|].
  refine (proj1 (proj2 (proj2 (proxy_keeps_metrics_consistent afterThreeCalls
                                 "A" _ afterThreeCalls_reachable _)))).
  vm_compute. reflexivity.
Defined.

(** X18. Only tool calls are measured.  Listing tools, prompts, resources
    or templates, getting a prompt and reading a resource record no
    request in the metrics manager: they add and drop no record, and leave
    the counters, the success rate, the response time, the load factor,
    the time of last use and the capability score of every record as they
    are.  The health bit is all they can change.  The same holds for the
    round of the health monitor. *)
Theorem only_tool_calls_are_measured order cursor n st :
  healthFrame (metricsManager (world st))
    (metricsManager (world (handle order ListToolsRequest st)))
  ∧ healthFrame (metricsManager (world st))
      (metricsManager (world (handle order (ListPromptsRequest cursor) st)))
  ∧ healthFrame (metricsManager (world st))
      (metricsManager (world (handle order (GetPromptRequest n) st)))
  ∧ healthFrame (metricsManager (world st))
      (metricsManager (world (handle order ListResourcesRequest st)))
  ∧ healthFrame (metricsManager (world st))
      (metricsManager (world (handle order (ReadResourceRequest n) st)))
  ∧ healthFrame (metricsManager (world st))
      (metricsManager
         (world (handle order (ListResourceTemplatesRequest cursor) st)))
  ∧ healthFrame (metricsManager (world st))
      (metricsManager (world (healthRound st))).
Proof.
  pose proof healthFrame_refl as Hr.
  pose proof healthFrame_trans as Ht.
  pose proof markServerHealthy_frame as Hh.
  pose proof markServerUnhealthy_frame as Hu.
  split; [apply (proj2 (listTools_settles healthFrame Hr Ht Hh Hu order st))|].
  split; [apply (proj2 (listPrompts_settles healthFrame Hr Ht Hh Hu
                          order cursor st))|].
  split; [apply (proj2 (getPrompt_settles healthFrame Hr Ht Hh Hu
                          order n st))|].
  split; [apply (proj2 (listResources_settles healthFrame Hr Ht Hh Hu
                          order st))|].
  split; [apply (proj2 (readResource_settles healthFrame Hr Ht Hh Hu
                          order n st))|].
  split; [apply (proj2 (listResourceTemplates_settles healthFrame Hr Ht Hh Hu
                          order cursor st))|].
  apply (proj2 (healthRound_settles healthFrame Hr Ht Hh Hu st)).
Qed.

End StepFacts.

(** ** Calls are routed by the table alone *)

Section RoutingFacts.

Import Proxy.

Lemma noteFailure_setClients cs server method attempt errorMessage st :
  noteFailure server method attempt errorMessage (setClients cs st)
  = setClients cs (noteFailure server method attempt errorMessage st).
Proof.
  unfold noteFailure.
  destruct (isConnectionError errorMessage); [|done].
  change (failureCount
            (logEvent (EvFailure server method attempt errorMessage)
               (setClients cs st)) server)
    with (failureCount
            (logEvent (EvFailure server method attempt errorMessage) st)
            server).
  cbn [healthChecks setFailureCounts logEvent setClients].
  by destruct (Health.shouldMarkUnhealthy _ _ _).
Qed.

Lemma attemptLoop_setClients cs operation retriesLeft :
  ∀ attempt server method st,
    attemptLoop retriesLeft attempt server method operation (setClients cs st)
    = (setClients cs
         (attemptLoop retriesLeft attempt server method operation st).1,
       (attemptLoop retriesLeft attempt server method operation st).2).
Proof.
  induction retriesLeft as [|k IH]; intros attempt server method st;
    rewrite !attemptLoop_eq; cbn zeta;
    change (world (setClients cs st)) with (world st);
    destruct (operation (world st)) as [w [result|errorMessage]];
    cbn [fst snd]; try done.
  - change (setWorld w (setClients cs st)) with (setClients cs (setWorld w st)).
    by rewrite noteFailure_setClients.
  - change (setWorld w (setClients cs st)) with (setClients cs (setWorld w st)).
    rewrite noteFailure_setClients.
    destruct (isConnectionError errorMessage); cbn [negb]; [|done].
    set (st2 := noteFailure server method attempt errorMessage
                  (setWorld w st)).
    change (setWorld
              (setClock (now (setClients cs st2) + backoffMs attempt)
                 (world (setClients cs st2)))
              (logEvent (EvBackoff server attempt (backoffMs attempt))
                 (setClients cs st2)))
      with (setClients cs
              (setWorld (setClock (now st2 + backoffMs attempt) (world st2))
                 (logEvent (EvBackoff server attempt (backoffMs attempt))
                    st2))).
    apply IH.
Qed.

Lemma disconnected_twice message message' (l : list ConnectedClient)
  (i : nat) :
  alter (disconnected message') i (alter (disconnected message) i l)
  = alter (disconnected message') i l.
Proof.
  rewrite list_alter_alter_eq. by apply list_alter_ext.
Qed.

Section Routed.

Variable order : list (nat * string).
Variable i : nat.
Variable message : string.
Variable st : State.

Lemma resolve_disconnected entry :
  resolve (withDisconnected i message st) (Some entry)
  = (λ ic : nat * ConnectedClient,
       (ic.1, if decide (entry = i) then disconnected message ic.2 else ic.2))
      <$> resolve st (Some entry).
Proof.
  unfold resolve, withDisconnected. simpl.
  destruct (decide (entry = i)) as [->|Hne].
  - rewrite list_lookup_alter_eq.
    by destruct (connectedClients st !! i).
  - rewrite list_lookup_alter_ne by done.
    by destruct (connectedClients st !! entry).
Qed.

Lemma run_disconnected server method operation maxRetries :
  executeWithRetry server method operation maxRetries
    (withDisconnected i message st)
  = (withDisconnected i message
       (executeWithRetry server method operation maxRetries st).1,
     (executeWithRetry server method operation maxRetries st).2).
Proof.
  unfold executeWithRetry, withDisconnected.
  rewrite attemptLoop_setClients. f_equal.
  destruct (attemptLoop_frame maxRetries 0 server method operation st)
    as (Hc & _). cbn zeta in Hc. by rewrite Hc.
Qed.

Lemma demote_disconnected entry errorMessage st1 :
  connectedClients st1 = connectedClients st →
  forgetClients
    (triggerHealthCheck entry
       (demote entry errorMessage (withDisconnected i message st1)))
  = forgetClients (triggerHealthCheck entry (demote entry errorMessage st1)).
Proof.
  intros Hc. unfold triggerHealthCheck, demote, withDisconnected.
  cbn [connectedClients setClients].
  destruct (decide (entry = i)) as [->|Hne].
  - by rewrite disconnected_twice.
  - rewrite !list_lookup_alter_eq.
    rewrite list_lookup_alter_ne by done.
    by destruct (connectedClients st1 !! entry).
Qed.

(** X19. The three call handlers route by their table alone and never look
    at [isConnected]: when the name asked for is routed, disconnecting the
    client at any position beforehand changes neither the result of
    [tools/call], [prompts/get] or [resources/read] nor what the handler
    does to the clock, the upstreams, the metrics, the routing tables, the
    failure counters, the health checks and the log.  A request for a
    routed name is sent to its upstream even if that client is marked
    disconnected. *)
Theorem calls_ignore_the_connection_flag tool prompt uri :
  (is_Some (toolToClientMap st !! tool) →
   (callTool order tool (withDisconnected i message st)).2
   = (callTool order tool st).2
   ∧ forgetClients (callTool order tool (withDisconnected i message st)).1
     = forgetClients (callTool order tool st).1)
  ∧ (is_Some (promptToClientMap st !! prompt) →
     (getPrompt order prompt (withDisconnected i message st)).2
     = (getPrompt order prompt st).2
     ∧ forgetClients (getPrompt order prompt (withDisconnected i message st)).1
       = forgetClients (getPrompt order prompt st).1)
  ∧ (is_Some (resourceToClientMap st !! uri) →
     (readResource order uri (withDisconnected i message st)).2
     = (readResource order uri st).2
     ∧ forgetClients (readResource order uri (withDisconnected i message st)).1
       = forgetClients (readResource order uri st).1).
Proof.
  split; [|split].
  - intros [entry Hentry]. unfold callTool. cbv zeta.
    change (toolToClientMap (withDisconnected i message st))
      with (toolToClientMap st).
    rewrite !Hentry. cbv iota.
    change (toolToClientMap (withDisconnected i message st))
      with (toolToClientMap st).
    rewrite !Hentry, resolve_disconnected.
    destruct (resolve st (Some entry)) as [[j client]|]; cbn [fmap option_fmap
      option_map fst snd]; [|done].
    assert (name (if decide (entry = i) then disconnected message client
                  else client) = name client) as ->
      by (by destruct (decide (entry = i))).
    rewrite run_disconnected.
    destruct (attemptLoop_frame 1 0 (name client) ToolsCall
                (toolCallOperation j (name client)) st) as (Hc & _).
    cbn zeta in Hc. fold (executeWithRetry (name client) ToolsCall
                            (toolCallOperation j (name client)) 1 st) in Hc.
    destruct (executeWithRetry (name client) ToolsCall
                (toolCallOperation j (name client)) 1 st)
      as [st1 [result|errorMessage]]; cbn [fst snd] in *; [done|].
    destruct (isToolNotFound errorMessage); [done|].
    destruct (isConnectionError errorMessage); [|done].
    split; [done|]. by apply demote_disconnected.
  - intros [entry Hentry]. unfold getPrompt. cbv zeta.
    change (promptToClientMap (withDisconnected i message st))
      with (promptToClientMap st).
    rewrite !Hentry. cbv iota.
    change (promptToClientMap (withDisconnected i message st))
      with (promptToClientMap st).
    rewrite !Hentry, resolve_disconnected.
    destruct (resolve st (Some entry)) as [[j client]|]; cbn [fmap option_fmap
      option_map fst snd]; [|done].
    assert (name (if decide (entry = i) then disconnected message client
                  else client) = name client) as ->
      by (by destruct (decide (entry = i))).
    rewrite run_disconnected.
    destruct (attemptLoop_frame defaultMaxRetries 0 (name client) PromptsGet
                (request j 15000) st) as (Hc & _).
    cbn zeta in Hc. fold (executeWithRetry (name client) PromptsGet
                            (request j 15000) defaultMaxRetries st) in Hc.
    destruct (executeWithRetry (name client) PromptsGet
                (request j 15000) defaultMaxRetries st)
      as [st1 [result|errorMessage]]; cbn [fst snd] in *; [done|].
    split; [done|]. by apply demote_disconnected.
  - intros [entry Hentry]. unfold readResource. cbv zeta.
    change (resourceToClientMap (withDisconnected i message st))
      with (resourceToClientMap st).
    rewrite !Hentry. cbv iota.
    change (resourceToClientMap (withDisconnected i message st))
      with (resourceToClientMap st).
    rewrite !Hentry, resolve_disconnected.
    destruct (resolve st (Some entry)) as [[j client]|]; cbn [fmap option_fmap
      option_map fst snd]; [|done].
    assert (name (if decide (entry = i) then disconnected message client
                  else client) = name client) as ->
      by (by destruct (decide (entry = i))).
    rewrite run_disconnected.
    destruct (attemptLoop_frame defaultMaxRetries 0 (name client)
                ResourcesRead (request j 15000) st) as (Hc & _).
    cbn zeta in Hc. fold (executeWithRetry (name client) ResourcesRead
                            (request j 15000) defaultMaxRetries st) in Hc.
    destruct (executeWithRetry (name client) ResourcesRead
                (request j 15000) defaultMaxRetries st)
      as [st1 [result|errorMessage]]; cbn [fst snd] in *; [done|].
    split; [done|]. by apply demote_disconnected.
Qed.

End Routed.

End RoutingFacts.

(** ** Calls for a name no upstream lists *)

Section UnlistedFacts.

Import Proxy.

Lemma runTasks_clients (task : Task) start order :
  (∀ i server st, connectedClients (task i server st).1 = connectedClients st) →
  ∀ finish results st,
    connectedClients (runTasks task start finish order results st).1
    = connectedClients st.
Proof.
  intros Htask. induction order as [|[i server] order IH];
    intros finish results st; simpl; [done|].
  by rewrite IH, Htask.
Qed.

Lemma foldl_clients {A} (f : State → A → State) (xs : list A) :
  (∀ s x, connectedClients (f s x) = connectedClients s) →
  ∀ st, connectedClients (foldl f st xs) = connectedClients st.
Proof.
  intros Hf. induction xs as [|x xs IH]; intros st; simpl; [done|].
  by rewrite IH, Hf.
Qed.

Lemma foldl_log {A} (f : State → A → State) (xs : list A) :
  (∀ s x, log (f s x) = log s) →
  ∀ st, log (foldl f st xs) = log st.
Proof.
  intros Hf. induction xs as [|x xs IH]; intros st; simpl; [done|].
  by rewrite IH, Hf.
Qed.

(** Every attempt a run of the wrapper logs is an attempt of the method
    the run was started for. *)
Lemma attemptLoop_asks retriesLeft :
  ∀ attempt server method operation st,
    ∃ new,
      log (attemptLoop retriesLeft attempt server method operation st).1
      = new ++ log st
      ∧ Forall (asksFor method) new.
Proof.
  induction retriesLeft as [|k IH];
    intros attempt server method operation st;
    rewrite attemptLoop_eq; simpl;
    destruct (operation (world st)) as [w [result|errorMessage]]; simpl.
  - exists [EvSuccess server method attempt]. split; [done|].
    by repeat constructor.
  - exists (marksFor server errorMessage (setWorld w st)
            ++ [EvFailure server method attempt errorMessage]).
    rewrite noteFailure_log. split; [by rewrite <- app_assoc|].
    apply Forall_app. split.
    + unfold marksFor. destruct (_ && _); by repeat constructor.
    + by repeat constructor.
  - exists [EvSuccess server method attempt]. split; [done|].
    by repeat constructor.
  - assert (Forall (asksFor method)
              (marksFor server errorMessage (setWorld w st)
               ++ [EvFailure server method attempt errorMessage])) as Hhere.
    { apply Forall_app. split.
      - unfold marksFor. destruct (_ && _); by repeat constructor.
      - by repeat constructor. }
    destruct (isConnectionError errorMessage); simpl.
    + match goal with |- context [attemptLoop k (S attempt) _ _ _ ?s] =>
        destruct (IH (S attempt) server method operation s)
          as (new & Hlog & Hnew) end.
      simpl in Hlog. rewrite noteFailure_log in Hlog.
      exists (new ++ EvBackoff server attempt (backoffMs attempt)
                  :: marksFor server errorMessage (setWorld w st)
                  ++ [EvFailure server method attempt errorMessage]).
      split.
      { rewrite Hlog. rewrite <- !app_assoc. simpl. by rewrite <- app_assoc. }
      apply Forall_app. split; [done|]. by constructor.
    + eexists. rewrite noteFailure_log. split; [|exact Hhere].
      by rewrite <- app_assoc.
Qed.

Lemma runTasks_asks method (task : Task) start order :
  (∀ i server st,
     ∃ new, log (task i server st).1 = new ++ log st
            ∧ Forall (asksFor method) new) →
  ∀ finish results st,
    ∃ new, log (runTasks task start finish order results st).1 = new ++ log st
           ∧ Forall (asksFor method) new.
Proof.
  intros Htask. induction order as [|[i server] order IH];
    intros finish results st; simpl.
  - exists []. split; [done|constructor].
  - match goal with |- context [runTasks task start ?f order ?r ?s] =>
      destruct (IH f r s) as (more & Hmore & Hm) end.
    destruct (Htask i server (setWorld (setClock start (world st)) st))
      as (new & Hnew & Hn).
    exists (more ++ new). rewrite Hmore, Hnew.
    split; [by rewrite app_assoc|]. by apply Forall_app.
Qed.

Lemma listTask_asks method store decorate onError i server st :
  (∀ i entries s, log (store i entries s) = log s) →
  (∀ i message s, log (onError i message s) = log s) →
  ∃ new,
    log (listTask method store decorate onError i server st).1 = new ++ log st
    ∧ Forall (asksFor method) new.
Proof.
  intros Hstore Herror. unfold listTask, executeWithRetry.
  destruct (attemptLoop_asks defaultMaxRetries 0 server method
              (request i 10000) st) as (new & Hlog & Hnew).
  exists new. split; [|done].
  destruct (attemptLoop _ _ _ _ _ _) as [st1 [result|message]];
    cbn [fst snd] in *.
  - destruct (entriesOf result); cbn [fst]; [|done]. by rewrite Hstore.
  - by rewrite Herror.
Qed.

Lemma storeTools_log i entries st : log (storeTools i entries st) = log st.
Proof. by apply foldl_log. Qed.

Lemma storePrompts_log i entries st : log (storePrompts i entries st) = log st.
Proof. by apply foldl_log. Qed.

Lemma storeResources_log i entries st :
  log (storeResources i entries st) = log st.
Proof. by apply foldl_log. Qed.

Lemma not_asked order (healthy : list (nat * string)) (j : nat) :
  order ≡ₚ healthy → j ∉ healthy.*1 → j ∉ order.*1.
Proof. intros Hp Hj. by rewrite Hp. Qed.

Lemma rebuiltFrom_unlisted key st healthy table n :
  rebuiltFrom key st healthy table →
  (∀ i server, (i, server) ∈ healthy → n ∉ key <$> returned st i) →
  table !! n = None.
Proof.
  intros [Hsound _] Hnot. destruct (table !! n) as [i|] eqn:Hl; [|done].
  destruct (Hsound n i Hl) as (server & Hin & Hn). by destruct (Hnot i server).
Qed.

Lemma rebuildToolsTask_shape i server st :
  rebuildToolsTask i server st
  = listTask ToolsList storeTools asListed ignoreError i server st.
Proof.
  unfold rebuildToolsTask, listTask, asListed, ignoreError, storeTools.
  destruct (executeWithRetry _ _ _ _ _) as [st1 [result|message]];
    cbn [fst snd]; [|done].
  destruct (entriesOf result); [|done]. by rewrite list_fmap_id.
Qed.

Lemma rebuildToolsTask_clients i server st :
  connectedClients (rebuildToolsTask i server st).1 = connectedClients st.
Proof.
  unfold rebuildToolsTask.
  destruct (attemptLoop_frame defaultMaxRetries 0 server ToolsList
              (request i 10000) st) as (Hc & _).
  cbn zeta in Hc.
  fold (executeWithRetry server ToolsList (request i 10000)
          defaultMaxRetries st) in Hc.
  destruct (executeWithRetry _ _ _ _ _) as [st1 [result|message]];
    cbn [fst snd] in *; [|done].
  destruct (entriesOf result); cbn [fst]; [|done].
  rewrite <- Hc. by apply foldl_clients.
Qed.

Lemma rebuild_tools order st :
  order ≡ₚ getHealthyClients st →
  let after := (allSettled rebuildToolsTask order (setTools ∅ st)).1 in
  rebuiltFrom d_name st (getHealthyClients st) (toolToClientMap after)
  ∧ connectedClients after = connectedClients st
  ∧ (∃ new, log after = new ++ log st ∧ Forall (asksFor ToolsList) new)
  ∧ healthFrame (metricsManager (world st)) (metricsManager (world after))
  ∧ (∀ j, j ∉ (getHealthyClients st).*1 → scriptOf after j = scriptOf st j).
Proof.
  intros Hp after. subst after.
  pose proof (getHealthyClients_NoDup st) as Hnd.
  unfold allSettled.
  destruct (runTasks_effect ToolsList storeTools asListed
              ignoreError toolToClientMap (routed d_name)
              ltac:(done)
              ltac:(intros; apply storeTools_effect)
              ltac:(intros; apply storeTools_effect)
              ltac:(done)
              ltac:(done)
              ltac:(done)
              (now (setTools ∅ st)) order
              (Permutation_NoDup_fst _ _ Hp Hnd)
              (now (setTools ∅ st)) ∅ (setTools ∅ st))
    as (Ht & _ & Hscripts).
  rewrite <- (runTasks_ext _ _ _ _ rebuildToolsTask_shape) in Ht, Hscripts.
  split; [|split; [|split; [|split]]].
  - rewrite Ht.
    by apply (rebuiltFrom_fold d_name st order (getHealthyClients st)).
  - by rewrite (runTasks_clients _ _ _ rebuildToolsTask_clients).
  - refine (runTasks_asks ToolsList rebuildToolsTask _ order _ _ ∅
              (setTools ∅ st)).
    intros i server s.
    rewrite rebuildToolsTask_shape.
    apply listTask_asks; [apply storeTools_log|done].
  - apply (allSettled_settles healthFrame healthFrame_refl healthFrame_trans
             rebuildToolsTask order (setTools ∅ st)).
    apply (rebuildToolsTask_settles healthFrame healthFrame_refl
             healthFrame_trans markServerUnhealthy_frame).
  - intros j Hj. apply Hscripts. by apply (not_asked _ _ _ Hp).
Qed.

Lemma rebuildPromptsTask_shape i server st :
  rebuildPromptsTask i server st
  = listTask PromptsList storePrompts asListed ignoreError i server st.
Proof.
  unfold rebuildPromptsTask, listTask, asListed, ignoreError, storePrompts.
  destruct (executeWithRetry _ _ _ _ _) as [st1 [result|message]];
    cbn [fst snd]; [|done].
  destruct (entriesOf result); [|done]. by rewrite list_fmap_id.
Qed.

Lemma rebuildPromptsTask_clients i server st :
  connectedClients (rebuildPromptsTask i server st).1 = connectedClients st.
Proof.
  unfold rebuildPromptsTask.
  destruct (attemptLoop_frame defaultMaxRetries 0 server PromptsList
              (request i 10000) st) as (Hc & _).
  cbn zeta in Hc.
  fold (executeWithRetry server PromptsList (request i 10000)
          defaultMaxRetries st) in Hc.
  destruct (executeWithRetry _ _ _ _ _) as [st1 [result|message]];
    cbn [fst snd] in *; [|done].
  destruct (entriesOf result); cbn [fst]; [|done].
  rewrite <- Hc. by apply foldl_clients.
Qed.

Lemma rebuild_prompts order st :
  order ≡ₚ getHealthyClients st →
  let after := (allSettled rebuildPromptsTask order (setPrompts ∅ st)).1 in
  rebuiltFrom d_name st (getHealthyClients st) (promptToClientMap after)
  ∧ connectedClients after = connectedClients st
  ∧ (∃ new, log after = new ++ log st ∧ Forall (asksFor PromptsList) new)
  ∧ healthFrame (metricsManager (world st)) (metricsManager (world after))
  ∧ (∀ j, j ∉ (getHealthyClients st).*1 → scriptOf after j = scriptOf st j).
Proof.
  intros Hp after. subst after.
  pose proof (getHealthyClients_NoDup st) as Hnd.
  unfold allSettled.
  destruct (runTasks_effect PromptsList storePrompts asListed
              ignoreError promptToClientMap (routed d_name)
              ltac:(done)
              ltac:(intros; apply storePrompts_effect)
              ltac:(intros; apply storePrompts_effect)
              ltac:(done)
              ltac:(done)
              ltac:(done)
              (now (setPrompts ∅ st)) order
              (Permutation_NoDup_fst _ _ Hp Hnd)
              (now (setPrompts ∅ st)) ∅ (setPrompts ∅ st))
    as (Ht & _ & Hscripts).
  rewrite <- (runTasks_ext _ _ _ _ rebuildPromptsTask_shape) in Ht, Hscripts.
  split; [|split; [|split; [|split]]].
  - rewrite Ht.
    by apply (rebuiltFrom_fold d_name st order (getHealthyClients st)).
  - by rewrite (runTasks_clients _ _ _ rebuildPromptsTask_clients).
  - refine (runTasks_asks PromptsList rebuildPromptsTask _ order _ _ ∅
              (setPrompts ∅ st)).
    intros i server s.
    rewrite rebuildPromptsTask_shape.
    apply listTask_asks; [apply storePrompts_log|done].
  - apply (allSettled_settles healthFrame healthFrame_refl healthFrame_trans
             rebuildPromptsTask order (setPrompts ∅ st)).
    apply (rebuildPromptsTask_settles healthFrame healthFrame_refl
             healthFrame_trans markServerUnhealthy_frame).
  - intros j Hj. apply Hscripts. by apply (not_asked _ _ _ Hp).
Qed.

Lemma rebuildResourcesTask_shape i server st :
  rebuildResourcesTask i server st
  = listTask ResourcesList storeResources asListed ignoreError i server st.
Proof.
  unfold rebuildResourcesTask, listTask, asListed, ignoreError, storeResources.
  destruct (executeWithRetry _ _ _ _ _) as [st1 [result|message]];
    cbn [fst snd]; [|done].
  destruct (entriesOf result); [|done]. by rewrite list_fmap_id.
Qed.

Lemma rebuildResourcesTask_clients i server st :
  connectedClients (rebuildResourcesTask i server st).1 = connectedClients st.
Proof.
  unfold rebuildResourcesTask.
  destruct (attemptLoop_frame defaultMaxRetries 0 server ResourcesList
              (request i 10000) st) as (Hc & _).
  cbn zeta in Hc.
  fold (executeWithRetry server ResourcesList (request i 10000)
          defaultMaxRetries st) in Hc.
  destruct (executeWithRetry _ _ _ _ _) as [st1 [result|message]];
    cbn [fst snd] in *; [|done].
  destruct (entriesOf result); cbn [fst]; [|done].
  rewrite <- Hc. by apply foldl_clients.
Qed.

Lemma rebuild_resources order st :
  order ≡ₚ getHealthyClients st →
  let after := (allSettled rebuildResourcesTask order (setResources ∅ st)).1 in
  rebuiltFrom d_uri st (getHealthyClients st) (resourceToClientMap after)
  ∧ connectedClients after = connectedClients st
  ∧ (∃ new, log after = new ++ log st ∧ Forall (asksFor ResourcesList) new)
  ∧ healthFrame (metricsManager (world st)) (metricsManager (world after))
  ∧ (∀ j, j ∉ (getHealthyClients st).*1 → scriptOf after j = scriptOf st j).
Proof.
  intros Hp after. subst after.
  pose proof (getHealthyClients_NoDup st) as Hnd.
  unfold allSettled.
  destruct (runTasks_effect ResourcesList storeResources asListed
              ignoreError resourceToClientMap (routed d_uri)
              ltac:(done)
              ltac:(intros; apply storeResources_effect)
              ltac:(intros; apply storeResources_effect)
              ltac:(done)
              ltac:(done)
              ltac:(done)
              (now (setResources ∅ st)) order
              (Permutation_NoDup_fst _ _ Hp Hnd)
              (now (setResources ∅ st)) ∅ (setResources ∅ st))
    as (Ht & _ & Hscripts).
  rewrite <- (runTasks_ext _ _ _ _ rebuildResourcesTask_shape) in Ht, Hscripts.
  split; [|split; [|split; [|split]]].
  - rewrite Ht.
    by apply (rebuiltFrom_fold d_uri st order (getHealthyClients st)).
  - by rewrite (runTasks_clients _ _ _ rebuildResourcesTask_clients).
  - refine (runTasks_asks ResourcesList rebuildResourcesTask _ order _ _ ∅
              (setResources ∅ st)).
    intros i server s.
    rewrite rebuildResourcesTask_shape.
    apply listTask_asks; [apply storeResources_log|done].
  - apply (allSettled_settles healthFrame healthFrame_refl healthFrame_trans
             rebuildResourcesTask order (setResources ∅ st)).
    apply (rebuildResourcesTask_settles healthFrame healthFrame_refl
             healthFrame_trans markServerUnhealthy_frame).
  - intros j Hj. apply Hscripts. by apply (not_asked _ _ _ Hp).
Qed.

(** X20. A call for a name the proxy has no route for first rebuilds the
    routing table from the listings of the connected upstreams.  If none of
    them lists the name, the handler answers that the name is not
    available on any connected server and sends the call to no upstream:
    the state it leaves is the one the rebuild leaves, every attempt it
    logs is an attempt of the list request, it records no request in the
    metrics manager (the health bits are all it can change there), and an
    upstream that is not connected is sent nothing.  The rebuild leaves
    every client as it is, also those whose listing failed, and the table
    it leaves holds exactly what the upstreams listed.  This holds for
    [tools/call], [prompts/get] and [resources/read] alike. *)
Theorem unlisted_name_is_not_available order st n :
  order ≡ₚ getHealthyClients st →
  (toolToClientMap st !! n = None →
   (∀ i server, (i, server) ∈ getHealthyClients st →
                n ∉ d_name <$> returned st i) →
   (callTool order n st).2
   = Err ("Tool '" +:+ n +:+ "' is not available on any connected server. Please check if the tool exists and the server is running.")
   ∧ (callTool order n st).1
     = (allSettled rebuildToolsTask order (setTools ∅ st)).1
   ∧ (∃ new, log (callTool order n st).1 = new ++ log st
             ∧ Forall (asksFor ToolsList) new)
   ∧ healthFrame (metricsManager (world st))
       (metricsManager (world (callTool order n st).1))
   ∧ (∀ j, j ∉ (getHealthyClients st).*1 →
           scriptOf (callTool order n st).1 j = scriptOf st j)
   ∧ connectedClients (callTool order n st).1 = connectedClients st
   ∧ rebuiltFrom d_name st (getHealthyClients st)
       (toolToClientMap (callTool order n st).1))
  ∧ (promptToClientMap st !! n = None →
     (∀ i server, (i, server) ∈ getHealthyClients st →
                  n ∉ d_name <$> returned st i) →
     (getPrompt order n st).2
     = Err ("Prompt '" +:+ n +:+ "' is not available on any connected server. Please check if the prompt exists and the server is running.")
     ∧ (getPrompt order n st).1
       = (allSettled rebuildPromptsTask order (setPrompts ∅ st)).1
     ∧ (∃ new, log (getPrompt order n st).1 = new ++ log st
               ∧ Forall (asksFor PromptsList) new)
     ∧ healthFrame (metricsManager (world st))
         (metricsManager (world (getPrompt order n st).1))
     ∧ (∀ j, j ∉ (getHealthyClients st).*1 →
             scriptOf (getPrompt order n st).1 j = scriptOf st j)
     ∧ connectedClients (getPrompt order n st).1 = connectedClients st
     ∧ rebuiltFrom d_name st (getHealthyClients st)
         (promptToClientMap (getPrompt order n st).1))
  ∧ (resourceToClientMap st !! n = None →
     (∀ i server, (i, server) ∈ getHealthyClients st →
                  n ∉ d_uri <$> returned st i) →
     (readResource order n st).2
     = Err ("Resource '" +:+ n +:+ "' is not available on any connected server. Please check if the resource exists and the server is running.")
     ∧ (readResource order n st).1
       = (allSettled rebuildResourcesTask order (setResources ∅ st)).1
     ∧ (∃ new, log (readResource order n st).1 = new ++ log st
               ∧ Forall (asksFor ResourcesList) new)
     ∧ healthFrame (metricsManager (world st))
         (metricsManager (world (readResource order n st).1))
     ∧ (∀ j, j ∉ (getHealthyClients st).*1 →
             scriptOf (readResource order n st).1 j = scriptOf st j)
     ∧ connectedClients (readResource order n st).1 = connectedClients st
     ∧ rebuiltFrom d_uri st (getHealthyClients st)
         (resourceToClientMap (readResource order n st).1)).
Proof.
  intros Hp. split; [|split].
  - intros Hnone Hnot.
    destruct (rebuild_tools order st Hp) as (Hr & Hc & Hlog & Hframe & Hs).
    pose proof (rebuiltFrom_unlisted _ _ _ _ n Hr Hnot) as Hmiss.
    assert (callTool order n st
            = ((allSettled rebuildToolsTask order (setTools ∅ st)).1,
               Err ("Tool '" +:+ n +:+ "' is not available on any connected server. Please check if the tool exists and the server is running.")))
      as ->.
    { unfold callTool. cbv zeta. rewrite !Hnone. cbv iota.
      rewrite !Hmiss. by cbn [resolve mbind option_bind fst snd]. }
    cbn [fst snd]. split; [done|]. split; [done|]. split; [exact Hlog|].
    split; [exact Hframe|]. split; [exact Hs|]. split; [exact Hc|exact Hr].
  - intros Hnone Hnot.
    destruct (rebuild_prompts order st Hp) as (Hr & Hc & Hlog & Hframe & Hs).
    pose proof (rebuiltFrom_unlisted _ _ _ _ n Hr Hnot) as Hmiss.
    assert (getPrompt order n st
            = ((allSettled rebuildPromptsTask order (setPrompts ∅ st)).1,
               Err ("Prompt '" +:+ n +:+ "' is not available on any connected server. Please check if the prompt exists and the server is running.")))
      as ->.
    { unfold getPrompt. cbv zeta. rewrite !Hnone. cbv iota.
      rewrite !Hmiss. by cbn [resolve mbind option_bind fst snd]. }
    cbn [fst snd]. split; [done|]. split; [done|]. split; [exact Hlog|].
    split; [exact Hframe|]. split; [exact Hs|]. split; [exact Hc|exact Hr].
  - intros Hnone Hnot.
    destruct (rebuild_resources order st Hp) as (Hr & Hc & Hlog & Hframe & Hs).
    pose proof (rebuiltFrom_unlisted _ _ _ _ n Hr Hnot) as Hmiss.
    assert (readResource order n st
            = ((allSettled rebuildResourcesTask order (setResources ∅ st)).1,
               Err ("Resource '" +:+ n +:+ "' is not available on any connected server. Please check if the resource exists and the server is running.")))
      as ->.
    { unfold readResource. cbv zeta. rewrite !Hnone. cbv iota.
      rewrite !Hmiss. by cbn [resolve mbind option_bind fst snd]. }
    cbn [fst snd]. split; [done|]. split; [done|]. split; [exact Hlog|].
    split; [exact Hframe|]. split; [exact Hs|]. split; [exact Hc|exact Hr].
Qed.

Lemma unlisted_name_is_not_available_witness :
  (callTool [(0%nat, "A")] "t2" started).2
  = Err "Tool 't2' is not available on any connected server. Please check if the tool exists and the server is running."
  ∧ toolToClientMap (callTool [(0%nat, "A")] "t2" started).1
    = {[ "t1" := 0%nat ]}
  ∧ log (callTool [(0%nat, "A")] "t2" started).1
    = [EvSuccess "A" ToolsList 0]
  ∧ scriptOf (callTool [(0%nat, "A")] "t2" started).1 0 = refusing.
Proof.
  split; [|repeat split; vm_compute; reflexivity].
  refine (proj1 (proj1 (unlisted_name_is_not_available [(0%nat, "A")] started
                          "t2" _) _ _)).
  - vm_compute. reflexivity.
  - reflexivity.
  - intros i server Hin. vm_compute in Hin.
    apply list_elem_of_singleton in Hin. injection Hin as -> ->.
    vm_compute. intros Hin. apply list_elem_of_singleton in Hin. discriminate.
Defined.

End UnlistedFacts.

(** ** Every attempt of a tool call counts as a request *)

Section CountedFacts.

Import Proxy.

Lemma healthFrame_counts mm mm' server :
  healthFrame mm mm' →
  requestsOf mm' server = requestsOf mm server
  ∧ errorsOf mm' server = errorsOf mm server.
Proof.
  intros H. specialize (H server). unfold requestsOf, errorsOf.
  destruct (metrics mm !! server) as [m|], (metrics mm' !! server) as [m'|];
    try done.
  destruct H as (_ & He & Ht & _). simpl. by rewrite He, Ht.
Qed.

Lemma recordRequest_counts now server elapsed success mm :
  requestsOf (Metrics.recordRequest now server elapsed success mm) server
  = requestsOf mm server + 1
  ∧ errorsOf (Metrics.recordRequest now server elapsed success mm) server
    = errorsOf mm server + (if success then 0 else 1)
  ∧ ∀ other, other ≠ server →
      metrics (Metrics.recordRequest now server elapsed success mm) !! other
      = metrics mm !! other.
Proof.
  unfold requestsOf, errorsOf, Metrics.recordRequest.
  destruct (metrics mm !! server) as [m|] eqn:Hm; simpl.
  - rewrite Hm. rewrite updateQualityScore_metrics. simpl.
    rewrite lookup_insert_eq. simpl.
    split; [done|]. split; [destruct success; simpl; lia|].
    intros other Hne. by rewrite lookup_insert_ne.
  - assert (metrics (Metrics.initializeServer now server mm) !! server
            = Some {| serverName := server; responseTime := 0;
                      successRate := 1; errorCount := 0; totalRequests := 0;
                      lastUsed := now; isHealthy := true; loadFactor := 0;
                      capabilityScore := 1 |}) as Hinit.
    { unfold Metrics.initializeServer. rewrite updateQualityScore_metrics.
      simpl. apply lookup_insert_eq. }
    rewrite Hinit. rewrite updateQualityScore_metrics. simpl.
    rewrite lookup_insert_eq. simpl.
    split; [done|]. split; [destruct success; simpl; lia|].
    intros other Hne. rewrite lookup_insert_ne by done.
    unfold Metrics.initializeServer. rewrite updateQualityScore_metrics.
    simpl. by rewrite lookup_insert_ne.
Qed.

Lemma toolCallOperation_manager i server w :
  ∃ now elapsed,
    metricsManager (toolCallOperation i server w).1
    = Metrics.recordRequest now server elapsed
        match (toolCallOperation i server w).2 with
        | Ok _ => true
        | Err _ => false
        end (metricsManager w).
Proof. unfold toolCallOperation. simpl. eauto. Qed.

Lemma noteFailure_healthFrame server method attempt errorMessage st :
  healthFrame (metricsManager (world st))
    (metricsManager (world (noteFailure server method attempt errorMessage st))).
Proof.
  apply (noteFailure_settles healthFrame);
    auto using healthFrame_refl, markServerUnhealthy_frame.
Qed.

Lemma failuresIn_snoc attempts attempt message :
  failuresIn (attempts ++ [(attempt, Some message)])
  = S (failuresIn attempts).
Proof.
  unfold failuresIn.
  rewrite filter_app, length_app, filter_cons_True by (by eexists).
  simpl. lia.
Qed.

Lemma failuresIn_success attempt : failuresIn [(attempt, None)] = 0%nat.
Proof. reflexivity. Qed.

Lemma failuresIn_failure attempt message :
  failuresIn [(attempt, Some message)] = 1%nat.
Proof. reflexivity. Qed.

Lemma toolCall_run_counts i server retriesLeft :
  ∀ attempt st,
    ∃ new,
      log (attemptLoop retriesLeft attempt server ToolsCall
             (toolCallOperation i server) st).1 = new ++ log st
      ∧ (1 ≤ length (attemptsOf new) ≤ S retriesLeft)%nat
      ∧ requestsOf
          (metricsManager
             (world (attemptLoop retriesLeft attempt server ToolsCall
                       (toolCallOperation i server) st).1)) server
        = requestsOf (metricsManager (world st)) server
          + Z.of_nat (length (attemptsOf new))
      ∧ errorsOf
          (metricsManager
             (world (attemptLoop retriesLeft attempt server ToolsCall
                       (toolCallOperation i server) st).1)) server
        = errorsOf (metricsManager (world st)) server
          + Z.of_nat (failuresIn (attemptsOf new))
      ∧ ∀ other, other ≠ server →
          requestsOf
            (metricsManager
               (world (attemptLoop retriesLeft attempt server ToolsCall
                         (toolCallOperation i server) st).1)) other
          = requestsOf (metricsManager (world st)) other
          ∧ errorsOf
              (metricsManager
                 (world (attemptLoop retriesLeft attempt server ToolsCall
                           (toolCallOperation i server) st).1)) other
            = errorsOf (metricsManager (world st)) other.
Proof.
  induction retriesLeft as [|k IH]; intros attempt st;
    rewrite attemptLoop_eq; cbn zeta;
    destruct (toolCallOperation_manager i server (world st))
      as (t & elapsed & Hmm);
    destruct (toolCallOperation i server (world st))
      as [w [result|errorMessage]]; cbn [fst snd] in *;
    destruct (recordRequest_counts t server elapsed
                match @Ok Payload result with Ok _ => true | Err _ => false end
                (metricsManager (world st))) as (Hreq & Herr & Hother)
    || destruct (recordRequest_counts t server elapsed false
                   (metricsManager (world st))) as (Hreq & Herr & Hother).
  all: rewrite <- Hmm in Hreq, Herr, Hother.
  all: assert (∀ other, other ≠ server →
                 requestsOf (metricsManager w) other
                 = requestsOf (metricsManager (world st)) other
                 ∧ errorsOf (metricsManager w) other
                   = errorsOf (metricsManager (world st)) other) as Hrest
         by (intros other Hne; unfold requestsOf, errorsOf;
             by rewrite (Hother other Hne)).
  - exists [EvSuccess server ToolsCall attempt]. simpl.
    rewrite failuresIn_success.
    split; [done|]. split; [lia|]. split; [lia|]. split; [lia|done].
  - destruct (healthFrame_counts _ _ server
                (noteFailure_healthFrame server ToolsCall attempt
                   errorMessage (setWorld w st))) as [Hq He].
    exists (marksFor server errorMessage (setWorld w st)
            ++ [EvFailure server ToolsCall attempt errorMessage]).
    rewrite noteFailure_log, attemptsOf_app, attemptsOf_marksFor. simpl.
    split; [by rewrite <- app_assoc|]. split; [lia|].
    simpl in Hq, He. rewrite Hq, He, Hreq, Herr.
    rewrite ?failuresIn_failure. split; [lia|]. split; [lia|].
    intros other Hne.
    destruct (healthFrame_counts _ _ other
                (noteFailure_healthFrame server ToolsCall attempt
                   errorMessage (setWorld w st))) as [Hq' He'].
    simpl in Hq', He'. rewrite Hq', He'. by apply Hrest.
  - exists [EvSuccess server ToolsCall attempt]. simpl.
    rewrite failuresIn_success.
    split; [done|]. split; [lia|]. split; [lia|]. split; [lia|done].
  - set (st2 := noteFailure server ToolsCall attempt errorMessage
                  (setWorld w st)).
    assert (∀ s, requestsOf (metricsManager (world st2)) s
                 = requestsOf (metricsManager w) s
                 ∧ errorsOf (metricsManager (world st2)) s
                   = errorsOf (metricsManager w) s) as Hst2.
    { intros s. apply (healthFrame_counts (metricsManager w)).
      apply (noteFailure_healthFrame server ToolsCall attempt errorMessage
               (setWorld w st)). }
    assert (log st2
            = marksFor server errorMessage (setWorld w st)
              ++ EvFailure server ToolsCall attempt errorMessage :: log st)
      as Hlog
      by exact (noteFailure_log server ToolsCall attempt errorMessage
                  (setWorld w st)).
    destruct (isConnectionError errorMessage); cbn [negb fst].
    + match goal with
      | |- context [attemptLoop k (S attempt) _ _ _ ?s] =>
          destruct (IH (S attempt) s)
            as (new & Hnew & Hlen & Hq & He & Ho)
      end.
      cbn [log world setWorld logEvent metricsManager setClock] in *.
      exists (new ++ EvBackoff server attempt (backoffMs attempt)
                :: marksFor server errorMessage (setWorld w st)
                ++ [EvFailure server ToolsCall attempt errorMessage]).
      rewrite Hnew, Hlog.
      split; [by rewrite <- !app_assoc; simpl; rewrite <- app_assoc|].
      rewrite attemptsOf_app. simpl.
      rewrite attemptsOf_app, attemptsOf_marksFor. simpl.
      rewrite length_app, failuresIn_snoc. simpl.
      destruct (Hst2 server) as [Hq2 He2].
      split; [lia|]. split; [lia|]. split; [lia|].
      intros other Hne. destruct (Ho other Hne) as [Hq' He'].
      destruct (Hst2 other) as [Hq3 He3].
      destruct (Hrest other Hne). lia.
    + exists (marksFor server errorMessage (setWorld w st)
              ++ [EvFailure server ToolsCall attempt errorMessage]).
      rewrite Hlog, attemptsOf_app, attemptsOf_marksFor. simpl.
      split; [by rewrite <- app_assoc|]. split; [lia|].
      destruct (Hst2 server) as [Hq2 He2].
      rewrite ?failuresIn_failure. split; [lia|]. split; [lia|].
      intros other Hne. destruct (Hst2 other) as [Hq3 He3].
      destruct (Hrest other Hne). lia.
Qed.

Lemma demoted_counts i errorMessage st server :
  requestsOf
    (metricsManager (world (triggerHealthCheck i (demote i errorMessage st))))
    server
  = requestsOf (metricsManager (world st)) server
  ∧ errorsOf
      (metricsManager
         (world (triggerHealthCheck i (demote i errorMessage st)))) server
    = errorsOf (metricsManager (world st)) server.
Proof.
  apply healthFrame_counts.
  apply (settles_trans healthFrame healthFrame_trans st
           (demote i errorMessage st)).
  - apply demote_settles, healthFrame_refl.
  - apply triggerHealthCheck_settles;
      auto using healthFrame_refl, markServerHealthy_frame,
        markServerUnhealthy_frame.
Qed.

(** X21. Every attempt of a tool call counts as one request in the
    metrics.  When [tools/call] is asked for a routed tool, the call is
    attempted once or twice, and the [totalRequests] of the routed server
    (0 if it has no record) grows by the number of attempts, its
    [errorCount] by the number of attempts that failed; the counters of the
    other servers stay as they are.  So a call that succeeds at its retry
    counts as two requests and one error. *)
Theorem tool_call_attempts_are_counted order tool st i client :
  toolToClientMap st !! tool = Some i →
  connectedClients st !! i = Some client →
  ∃ new,
    log (callTool order tool st).1 = new ++ log st
    ∧ (1 ≤ length (attemptsOf new) ≤ 2)%nat
    ∧ requestsOf (metricsManager (world (callTool order tool st).1))
        (name client)
      = requestsOf (metricsManager (world st)) (name client)
        + Z.of_nat (length (attemptsOf new))
    ∧ errorsOf (metricsManager (world (callTool order tool st).1))
        (name client)
      = errorsOf (metricsManager (world st)) (name client)
        + Z.of_nat (failuresIn (attemptsOf new))
    ∧ ∀ other, other ≠ name client →
        requestsOf (metricsManager (world (callTool order tool st).1)) other
        = requestsOf (metricsManager (world st)) other
        ∧ errorsOf (metricsManager (world (callTool order tool st).1)) other
          = errorsOf (metricsManager (world st)) other.
Proof.
  intros Htool Hclient. unfold callTool. cbv zeta.
  rewrite !Htool. cbv iota. rewrite ?Htool.
  unfold resolve. cbn [mbind option_bind]. rewrite Hclient.
  cbn [mbind option_bind fst snd].
  destruct (toolCall_run_counts i (name client) 1 0 st)
    as (new & Hlog & Hlen & Hq & He & Ho).
  fold (executeWithRetry (name client) ToolsCall
          (toolCallOperation i (name client)) 1 st) in *.
  destruct (executeWithRetry (name client) ToolsCall
              (toolCallOperation i (name client)) 1 st)
    as [st1 [result|errorMessage]]; cbn [fst snd] in *.
  { exists new. auto. }
  destruct (isToolNotFound errorMessage); cbn [fst].
  { exists new. auto. }
  destruct (isConnectionError errorMessage); cbn [fst].
  2: { exists new. auto. }
  exists new.
  assert (log (triggerHealthCheck i (demote i errorMessage st1)) = log st1)
    as ->.
  { destruct (triggerHealthCheck_silent i (demote i errorMessage st1))
      as [-> _]. done. }
  split; [done|]. split; [done|].
  pose proof (demoted_counts i errorMessage st1) as Hd.
  destruct (Hd (name client)) as [-> ->].
  split; [done|]. split; [done|].
  intros other Hne. destruct (Hd other) as [-> ->]. by apply Ho.
Qed.

Lemma tool_call_attempts_are_counted_witness :
  requestsOf
    (metricsManager (world (callTool [] "t1" routedToRefusing).1)) "A" = 2
  ∧ errorsOf
      (metricsManager (world (callTool [] "t1" routedToRefusing).1)) "A" = 2
  ∧ ∃ new,
      log (callTool [] "t1" routedToRefusing).1
      = new ++ log routedToRefusing
      ∧ (1 ≤ length (attemptsOf new) ≤ 2)%nat.
Proof.
  split; [vm_compute; reflexivity|]. split; [vm_compute; reflexivity|].
  destruct (tool_call_attempts_are_counted [] "t1" routedToRefusing 0%nat
              clientA eq_refl eq_refl) as (new & Hlog & Hlen & _).
  exists new. split; [exact Hlog|exact Hlen].
Defined.

End CountedFacts.

(** ** The routing tables after a listing *)

Section TableFacts.

Import Proxy.

Lemma elem_of_concat {A} (x : A) (ls : list (list A)) :
  x ∈ concat ls ↔ ∃ l, x ∈ l ∧ l ∈ ls.
Proof.
  induction ls as [|l0 ls IH]; simpl.
  - split; [by intros H%elem_of_nil|]. intros (l & _ & H).
    by apply elem_of_nil in H.
  - rewrite elem_of_app, IH. split.
    + intros [H|(l & Hx & Hl)]; [exists l0; split; [done|left]|].
      exists l. split; [done|by right].
    + intros (l & Hx & Hl). apply elem_of_cons in Hl as [->|Hl]; [by left|].
      right. eauto.
Qed.

Lemma merged_names (key : Descriptor → string) decorate st healthy n :
  (∀ server d, key (decorate server d) = key d) →
  n ∈ key <$> merged decorate st healthy
  ↔ ∃ i server, (i, server) ∈ healthy ∧ n ∈ key <$> returned st i.
Proof.
  intros Hkey. unfold merged. rewrite list_elem_of_fmap. split.
  - intros (d & -> & Hd). apply elem_of_concat in Hd as (l & Hd & Hl).
    apply list_elem_of_fmap in Hl as ([i server] & -> & Hin).
    apply list_elem_of_fmap in Hd as (d0 & -> & Hd0).
    exists i, server. split; [done|]. rewrite Hkey.
    apply list_elem_of_fmap. eauto.
  - intros (i & server & Hin & Hn).
    apply list_elem_of_fmap in Hn as (d & -> & Hd).
    exists (decorate server d). split; [by rewrite Hkey|].
    apply elem_of_concat. exists (decorate server <$> returned st i).
    split; [apply list_elem_of_fmap; eauto|].
    apply list_elem_of_fmap. by exists (i, server).
Qed.

Lemma rebuiltFrom_keys key decorate st healthy table n :
  (∀ server d, key (decorate server d) = key d) →
  rebuiltFrom key st healthy table →
  is_Some (table !! n) ↔ n ∈ key <$> merged decorate st healthy.
Proof.
  intros Hkey [Hsound Hcomplete]. rewrite merged_names by done. split.
  - intros [i Hi]. destruct (Hsound n i Hi) as (server & Hin & Hn). eauto.
  - intros (i & server & Hin & Hn). by eapply Hcomplete.
Qed.

(** X22. After [tools/list], [prompts/list] and [resources/list] the proxy
    can route exactly what it has just listed: a name is a key of the tool
    (prompt) routing table if and only if a listed tool (prompt) has that
    name, and a URI is a key of the resource routing table if and only if
    a listed resource has that URI.  The prefix the listing puts on
    descriptions and resource names does not touch the keys. *)
Theorem listed_names_are_the_routed_names order cursor st n :
  order ≡ₚ getHealthyClients st →
  (is_Some (toolToClientMap (listTools order st).1 !! n)
   ↔ n ∈ d_name <$> listed (listTools order st).2)
  ∧ (is_Some (promptToClientMap (listPrompts order cursor st).1 !! n)
     ↔ n ∈ d_name <$> listed (listPrompts order cursor st).2)
  ∧ (is_Some (resourceToClientMap (listResources order st).1 !! n)
     ↔ n ∈ d_uri <$> listed (listResources order st).2).
Proof.
  intros Hp.
  destruct (listTools_rebuilt order st Hp) as [Ht ->].
  destruct (listPrompts_rebuilt order cursor st Hp) as [Hpr ->].
  destruct (listResources_rebuilt order st Hp) as [Hr ->].
  split; [|split]; by apply rebuiltFrom_keys.
Qed.

Lemma listed_names_are_the_routed_names_witness :
  toolToClientMap (listTools [(0%nat, "A")] started).1 !! "t1" = Some 0%nat
  ∧ "t1" ∈ d_name <$> listed (listTools [(0%nat, "A")] started).2.
Proof.
  split; [vm_compute; reflexivity|].
  refine (proj1 (proj1 (listed_names_are_the_routed_names [(0%nat, "A")]
                          None started "t1" _)) _).
  - vm_compute. reflexivity.
  - vm_compute. eauto.
Defined.

(** *** Who wins a name that two upstreams list *)

Section Winner.

Variable key : Descriptor → string.
Variable ret : nat → list Descriptor.

Lemma rebuilt_lookup_not order :
  ∀ t n,
    (∀ j server, (j, server) ∈ order → n ∉ key <$> ret j) →
    foldl (λ t (ic : nat * string), routed key ic.1 (ret ic.1) t) t order !! n
    = t !! n.
Proof.
  induction order as [|[i server] order IH]; intros t n Hnot; simpl; [done|].
  rewrite IH by (intros j s Hin; apply (Hnot j s); by right).
  apply routed_lookup_not. apply (Hnot i server). left.
Qed.

Lemma rebuilt_last before i server after t n :
  n ∈ key <$> ret i →
  (∀ j s, (j, s) ∈ after → n ∉ key <$> ret j) →
  foldl (λ t (ic : nat * string), routed key ic.1 (ret ic.1) t) t
    (before ++ (i, server) :: after) !! n
  = Some i.
Proof.
  intros Hin Hafter. rewrite foldl_app. simpl.
  rewrite rebuilt_lookup_not by done. by apply routed_lookup_elem.
Qed.

End Winner.

Lemma listTools_table order st :
  order ≡ₚ getHealthyClients st →
  toolToClientMap (listTools order st).1
  = foldl (λ t (ic : nat * string), routed d_name ic.1 (returned st ic.1) t)
      ∅ order.
Proof.
  intros Hp. unfold listTools.
  change (getHealthyClients (setTools ∅ st)) with (getHealthyClients st).
  pose proof (getHealthyClients_NoDup st) as Hnd.
  destruct (getHealthyClients st) as [|ic healthy] eqn:Hh; simpl.
  - apply Permutation_nil_r in Hp as ->. done.
  - unfold allSettled.
    rewrite (runTasks_ext _ _ _ _ listToolsTask_shape).
    by destruct (runTasks_effect ToolsList storeTools withDescription
                   demoteOnConnectionError toolToClientMap (routed d_name)
                   ltac:(done)
                   ltac:(intros; apply storeTools_effect)
                   ltac:(intros; apply storeTools_effect)
                   ltac:(intros; apply demoteOnConnectionError_frame)
                   ltac:(intros; apply demoteOnConnectionError_frame)
                   ltac:(done)
                   (now (setTools ∅ st)) order
                   (Permutation_NoDup_fst _ _ Hp Hnd)
                   (now (setTools ∅ st)) ∅ (setTools ∅ st))
      as (-> & _ & _).
Qed.

Lemma listPrompts_table order cursor st :
  order ≡ₚ getHealthyClients st →
  promptToClientMap (listPrompts order cursor st).1
  = foldl (λ t (ic : nat * string), routed d_name ic.1 (returned st ic.1) t)
      ∅ order.
Proof.
  intros Hp. unfold listPrompts.
  change (getHealthyClients (setPrompts ∅ st)) with (getHealthyClients st).
  pose proof (getHealthyClients_NoDup st) as Hnd.
  destruct (getHealthyClients st) as [|ic healthy] eqn:Hh; simpl.
  - apply Permutation_nil_r in Hp as ->. done.
  - unfold allSettled.
    rewrite (runTasks_ext _ _ _ _ listPromptsTask_shape).
    by destruct (runTasks_effect PromptsList storePrompts withDescription
                   demoteAlways promptToClientMap (routed d_name)
                   ltac:(done)
                   ltac:(intros; apply storePrompts_effect)
                   ltac:(intros; apply storePrompts_effect)
                   ltac:(intros; apply demoteAlways_frame)
                   ltac:(intros; apply demoteAlways_frame)
                   ltac:(done)
                   (now (setPrompts ∅ st)) order
                   (Permutation_NoDup_fst _ _ Hp Hnd)
                   (now (setPrompts ∅ st)) ∅ (setPrompts ∅ st))
      as (-> & _ & _).
Qed.

Lemma listResources_table order st :
  order ≡ₚ getHealthyClients st →
  resourceToClientMap (listResources order st).1
  = foldl (λ t (ic : nat * string), routed d_uri ic.1 (returned st ic.1) t)
      ∅ order.
Proof.
  intros Hp. unfold listResources.
  change (getHealthyClients (setResources ∅ st)) with (getHealthyClients st).
  pose proof (getHealthyClients_NoDup st) as Hnd.
  destruct (getHealthyClients st) as [|ic healthy] eqn:Hh; simpl.
  - apply Permutation_nil_r in Hp as ->. done.
  - unfold allSettled.
    rewrite (runTasks_ext _ _ _ _ listResourcesTask_shape).
    by destruct (runTasks_effect ResourcesList storeResources withName
                   demoteAlways resourceToClientMap (routed d_uri)
                   ltac:(done)
                   ltac:(intros; apply storeResources_effect)
                   ltac:(intros; apply storeResources_effect)
                   ltac:(intros; apply demoteAlways_frame)
                   ltac:(intros; apply demoteAlways_frame)
                   ltac:(done)
                   (now (setResources ∅ st)) order
                   (Permutation_NoDup_fst _ _ Hp Hnd)
                   (now (setResources ∅ st)) ∅ (setResources ∅ st))
      as (-> & _ & _).
Qed.

(** X23. When several connected upstreams list the same name, the routing
    table sends it to the one whose list request settled last: the order
    in which the promises of the fan-out settle, not the order of the
    clients, decides who serves a name that is listed twice.  This holds
    for tools and prompts by name and for resources by URI. *)
Theorem last_to_settle_wins_the_name order cursor st before i server after n :
  order ≡ₚ getHealthyClients st →
  order = before ++ (i, server) :: after →
  (n ∈ d_name <$> returned st i →
   (∀ j s, (j, s) ∈ after → n ∉ d_name <$> returned st j) →
   toolToClientMap (listTools order st).1 !! n = Some i
   ∧ promptToClientMap (listPrompts order cursor st).1 !! n = Some i)
  ∧ (n ∈ d_uri <$> returned st i →
     (∀ j s, (j, s) ∈ after → n ∉ d_uri <$> returned st j) →
     resourceToClientMap (listResources order st).1 !! n = Some i).
Proof.
  intros Hp Horder.
  rewrite (listTools_table order st Hp), (listPrompts_table order cursor st Hp),
    (listResources_table order st Hp), Horder.
  split.
  - intros Hin Hafter. split; by apply rebuilt_last.
  - intros Hin Hafter. by apply rebuilt_last.
Qed.

Lemma last_to_settle_wins_the_name_witness :
  toolToClientMap (listTools [(1%nat, "B"); (0%nat, "A")] bothListT1).1 !! "t1"
  = Some 0%nat
  ∧ toolToClientMap (listTools [(0%nat, "A"); (1%nat, "B")] bothListT1).1
      !! "t1"
    = Some 1%nat.
Proof.
  split.
  - refine (proj1 (proj1 (last_to_settle_wins_the_name
                            [(1%nat, "B"); (0%nat, "A")] None bothListT1
                            [(1%nat, "B")] 0%nat "A" [] "t1" _ eq_refl) _ _)).
    + vm_compute. apply Permutation_swap.
    + vm_compute. apply list_elem_of_singleton. reflexivity.
    + intros j s Hin. by apply elem_of_nil in Hin.
  - vm_compute. reflexivity.
Defined.

End TableFacts.

(** ** The functional health monitor *)

Section FunctionalFacts.

Import Functional.

Lemma executeWithTimeout_answer i timeoutMs w :
  (executeWithTimeout i timeoutMs w).2
  = answer timeoutMs (default [] (upstream w !! i))
  ∧ default [] (upstream (executeWithTimeout i timeoutMs w).1 !! i)
    = tail (default [] (upstream w !! i))
  ∧ metricsManager (executeWithTimeout i timeoutMs w).1 = metricsManager w
  ∧ ∀ j, j ≠ i →
         upstream (executeWithTimeout i timeoutMs w).1 !! j = upstream w !! j.
Proof.
  unfold executeWithTimeout, answer. simpl.
  split; [|split; [|split; [done|]]].
  - destruct (default [] (upstream w !! i)) as [|outcome rest]; [done|].
    destruct (Z.leb_spec (latency outcome) timeoutMs);
      destruct (decide (latency outcome ≤ timeoutMs)); try done; lia.
  - by rewrite lookup_insert_eq.
  - intros j Hne. by rewrite lookup_insert_ne.
Qed.

Lemma blamesConnection_isConnectionError errorMessage :
  blamesConnection errorMessage = true → isConnectionError errorMessage = true.
Proof.
  unfold blamesConnection, isConnectionError.
  intros H. apply orb_true_iff in H as [->| ->]; [done|].
  by rewrite orb_true_r.
Qed.

Lemma testToolsFunctionality_success config i w :
  success (testToolsFunctionality config i w).2 = true
  ↔ toolsPass (timeoutMs config) (default [] (upstream w !! i)).
Proof.
  unfold testToolsFunctionality, toolsPass. cbv zeta.
  destruct (executeWithTimeout_answer i (timeoutMs config) w) as (Ha & Ht & _).
  destruct (executeWithTimeout_answer i (timeoutMs config)
              (executeWithTimeout i (timeoutMs config) w).1) as (Ha' & _).
  rewrite Ht in Ha'. rewrite Ha.
  destruct (answer (timeoutMs config) (default [] (upstream w !! i)))
    as [toolsResult|message]; cbn [snd fst failed passed success].
  2: { split; [done|]. by intros (? & ? & ? & ? & _). }
  destruct (entriesOf toolsResult) as [[|firstTool more]|] eqn:Hentries;
    cbn [snd fst failed passed success].
  1,3: split; [done|]; intros (r & f & m & [= <-] & He & _); congruence.
  destruct (d_name firstTool) as [|c name] eqn:Hname;
    cbn [snd fst failed passed success].
  { split; [|done]. intros _. exists toolsResult, firstTool, more. auto. }
  rewrite Ha'.
  destruct (answer (timeoutMs config) (tail (default [] (upstream w !! i))))
    as [result|errorMessage]; cbn [snd fst failed passed success].
  { split; [|done]. intros _. exists toolsResult, firstTool, more.
    split; [done|]. split; [done|]. right. left. eauto. }
  rewrite <- negb_orb. fold (blamesConnection errorMessage).
  destruct (blamesConnection errorMessage) eqn:Hb;
    cbn [negb snd fst failed passed success].
  - split; [done|].
    intros (r & f & m & [= <-] & He & [Hn|[[r' Hr]|(e & [= <-] & Hbe)]]);
      rewrite He in Hentries; injection Hentries as <- <-; congruence.
  - split; [|done]. intros _. exists toolsResult, firstTool, more.
    split; [done|]. split; [done|]. right. right. eauto.
Qed.

(** X24. The tools test of the functional health monitor passes exactly
    when the upstream answers its list request in time with at least one
    tool and then either the first tool has no name, or the call of the
    first tool is answered in time, or it fails with a message that
    contains neither 'Connection' nor 'timeout'.  In time means within
    [timeoutMs] ms, that bound included: the monitor starts its timer after
    the request is sent, so an answer that takes exactly [timeoutMs] ms
    passes, where a handler of the proxy, which starts its timer first,
    would report a timeout.  A timeout of either request fails the test;
    and the monitor reads fewer errors as connection errors than the retry
    wrapper of the proxy does: every error it blames is a connection error
    for the proxy, but a call refused with 'ECONNREFUSED' passes the test.
    The test sends at most two requests, to that upstream only, and does
    not touch the metrics. *)
Theorem functional_tools_test_verdict config i w :
  (success (testToolsFunctionality config i w).2 = true
   ↔ toolsPass (timeoutMs config) (default [] (upstream w !! i)))
  ∧ (∀ errorMessage,
       blamesConnection errorMessage = true →
       isConnectionError errorMessage = true)
  ∧ success (testToolsFunctionality defaultConfig 0 (answersAfter 10000)).2
    = true
  ∧ success (testToolsFunctionality defaultConfig 0 (answersAfter 10001)).2
    = false
  ∧ (request 0 10000 (answersAfter 10000)).2 = Err "Request timeout"
  ∧ blamesConnection "Request timeout" = true
  ∧ blamesConnection "connect ECONNREFUSED 127.0.0.1:3000" = false
  ∧ isConnectionError "connect ECONNREFUSED 127.0.0.1:3000" = true
  ∧ metricsManager (testToolsFunctionality config i w).1 = metricsManager w
  ∧ (∀ j, j ≠ i →
       upstream (testToolsFunctionality config i w).1 !! j = upstream w !! j)
  ∧ (default [] (upstream (testToolsFunctionality config i w).1 !! i)
     = tail (default [] (upstream w !! i))
     ∨ default [] (upstream (testToolsFunctionality config i w).1 !! i)
       = tail (tail (default [] (upstream w !! i)))).
Proof.
  split; [apply testToolsFunctionality_success|].
  split; [apply blamesConnection_isConnectionError|].
  split; [vm_compute; reflexivity|]. split; [vm_compute; reflexivity|].
  split; [vm_compute; reflexivity|].
  split; [reflexivity|]. split; [reflexivity|]. split; [reflexivity|].
  destruct (executeWithTimeout_answer i (timeoutMs config) w) as (_ & Ht & Hm & Ho).
  destruct (executeWithTimeout_answer i (timeoutMs config)
              (executeWithTimeout i (timeoutMs config) w).1) as (_ & Ht' & Hm' & Ho').
  rewrite Ht in Ht'.
  assert (∀ j, j ≠ i →
            upstream (executeWithTimeout i (timeoutMs config)
                        (executeWithTimeout i (timeoutMs config) w).1).1 !! j
            = upstream w !! j) as Ho2
    by (intros j Hne; by rewrite Ho', Ho).
  rewrite Hm in Hm'.
  unfold testToolsFunctionality. cbv zeta.
  destruct (executeWithTimeout i (timeoutMs config) w).2 as [toolsResult|message];
    cbn [fst snd failed passed]; [|auto].
  destruct (entriesOf toolsResult) as [[|firstTool more]|];
    cbn [fst snd failed passed]; [auto| |auto].
  destruct (d_name firstTool); cbn [fst snd failed passed]; [auto|].
  destruct (executeWithTimeout i (timeoutMs config)
              (executeWithTimeout i (timeoutMs config) w).1).2 as [result|errorMessage];
    cbn [fst snd failed passed]; [auto|].
  destruct (negb _ && negb _); cbn [fst snd failed passed]; auto.
Qed.

Local Opaque testToolsFunctionality testListFunctionality.

(** X25. [testServerFunctionality] runs the enabled tests in the order
    tools, prompts, resources and stops at the first that fails: the server
    is healthy exactly when no test that ran failed, a test after a failed
    one is not run, and the error message blames the test that failed.
    With the configuration the monitor starts from, only the tools test
    runs and the verdict is its result. *)
Theorem functional_tests_stop_at_the_first_failure config i server w :
  (ft_isHealthy (testServerFunctionality config i server w).2
   = default true
       (success <$> tools (testServerFunctionality config i server w).2)
     && default true
          (success <$> prompts (testServerFunctionality config i server w).2)
     && default true
          (success
             <$> resources (testServerFunctionality config i server w).2))
  ∧ (success <$> tools (testServerFunctionality config i server w).2
     = Some false →
     prompts (testServerFunctionality config i server w).2 = None
     ∧ resources (testServerFunctionality config i server w).2 = None)
  ∧ (success <$> prompts (testServerFunctionality config i server w).2
     = Some false →
     resources (testServerFunctionality config i server w).2 = None)
  ∧ (ft_isHealthy (testServerFunctionality config i server w).2 = true
     ↔ ft_errorMessage (testServerFunctionality config i server w).2 = None)
  ∧ (tools (testServerFunctionality defaultConfig i server w).2
     = Some (testToolsFunctionality defaultConfig i w).2
     ∧ ft_isHealthy (testServerFunctionality defaultConfig i server w).2
       = success (testToolsFunctionality defaultConfig i w).2
     ∧ (testServerFunctionality defaultConfig i server w).1
       = (testToolsFunctionality defaultConfig i w).1).
Proof.
  unfold testServerFunctionality, testPromptsFunctionality,
    testResourcesFunctionality, blame. cbv zeta.
  split; [|split; [|split; [|split]]].
  - destruct (enableToolsTest config), (enablePromptsTest config),
      (enableResourcesTest config); simpl;
      repeat match goal with
             | |- context [success ?t] => destruct (success t); simpl
             end; done.
  - destruct (enableToolsTest config); simpl; [|done].
    intros [= ->]. simpl. by rewrite !andb_false_r.
  - destruct (enableToolsTest config), (enablePromptsTest config); simpl;
      try done;
      repeat match goal with
             | |- context [success ?t] => destruct (success t); simpl
             end; try done; by rewrite ?andb_false_r.
  - destruct (enableToolsTest config), (enablePromptsTest config),
      (enableResourcesTest config); simpl;
      repeat match goal with
             | |- context [success ?t] => destruct (success t); simpl
             end; done.
  - simpl. by destruct (success (testToolsFunctionality defaultConfig i w).2).
Qed.

End FunctionalFacts.

(** ** Which errors take a server out of rotation *)

Section DemotionFacts.

Import Proxy.

Lemma trigger_demote_effect i errorMessage st client :
  connectedClients st !! i = Some client →
  connectedClients (triggerHealthCheck i (demote i errorMessage st)) !! i
  = Some (disconnected errorMessage client)
  ∧ hc_isHealthy
      <$> healthChecks (triggerHealthCheck i (demote i errorMessage st))
          !! name client
    = Some false
  ∧ ∀ j, j ≠ i →
      connectedClients (triggerHealthCheck i (demote i errorMessage st)) !! j
      = connectedClients st !! j.
Proof.
  intros Hclient. unfold triggerHealthCheck, demote.
  cbn [connectedClients setClients].
  rewrite list_lookup_alter_eq, Hclient.
  cbn [fmap option_fmap option_map connectedClients healthChecks
         setHealthChecks setWorld setClients].
  split; [by rewrite list_lookup_alter_eq, Hclient|]. split.
  - unfold Health.triggerHealthCheck, Health.conclude. simpl.
    by rewrite lookup_insert_eq.
  - intros j Hne. by rewrite list_lookup_alter_ne.
Qed.

(** X26. [prompts/get] and [resources/read] disconnect the routed client
    on every error, also when the upstream only rejected the request: the
    client gets [isConnected] false and the error as [lastError], and its
    health check record says unhealthy; on success no client changes.
    [tools/call] disconnects the routed client only when the call ended on
    a connection error that is not a 'Tool ... not found'; after any other
    outcome all clients are as before. *)
Theorem call_handlers_disconnect_on_error order n st i client :
  connectedClients st !! i = Some client →
  (promptToClientMap st !! n = Some i →
   match (getPrompt order n st).2 with
   | Ok _ => connectedClients (getPrompt order n st).1 = connectedClients st
   | Err e =>
       connectedClients (getPrompt order n st).1 !! i
       = Some (disconnected e client)
       ∧ hc_isHealthy <$> healthChecks (getPrompt order n st).1 !! name client
         = Some false
   end)
  ∧ (resourceToClientMap st !! n = Some i →
     match (readResource order n st).2 with
     | Ok _ =>
         connectedClients (readResource order n st).1 = connectedClients st
     | Err e =>
         connectedClients (readResource order n st).1 !! i
         = Some (disconnected e client)
         ∧ hc_isHealthy
             <$> healthChecks (readResource order n st).1 !! name client
           = Some false
     end)
  ∧ (toolToClientMap st !! n = Some i →
     connectedClients (callTool order n st).1 = connectedClients st
     ∨ ∃ e, (callTool order n st).2 = Err e
            ∧ isConnectionError e = true
            ∧ isToolNotFound e = false
            ∧ connectedClients (callTool order n st).1 !! i
              = Some (disconnected e client)
            ∧ hc_isHealthy
                <$> healthChecks (callTool order n st).1 !! name client
              = Some false).
Proof.
  intros Hclient. split; [|split].
  - intros Htable. unfold getPrompt. cbv zeta.
    rewrite !Htable. cbv iota. rewrite ?Htable.
    unfold resolve. cbn [mbind option_bind]. rewrite Hclient.
    cbn [mbind option_bind fst snd].
    destruct (attemptLoop_frame defaultMaxRetries 0 (name client) PromptsGet
                (request i 15000) st) as (Hc & _).
    cbn zeta in Hc.
    fold (executeWithRetry (name client) PromptsGet (request i 15000)
            defaultMaxRetries st) in Hc.
    destruct (executeWithRetry (name client) PromptsGet (request i 15000)
                defaultMaxRetries st) as [st1 [result|e]];
      cbn [fst snd] in *; [done|].
    rewrite <- Hc in Hclient.
    destruct (trigger_demote_effect i e st1 client Hclient) as (H1 & H2 & _).
    done.
  - intros Htable. unfold readResource. cbv zeta.
    rewrite !Htable. cbv iota. rewrite ?Htable.
    unfold resolve. cbn [mbind option_bind]. rewrite Hclient.
    cbn [mbind option_bind fst snd].
    destruct (attemptLoop_frame defaultMaxRetries 0 (name client)
                ResourcesRead (request i 15000) st) as (Hc & _).
    cbn zeta in Hc.
    fold (executeWithRetry (name client) ResourcesRead (request i 15000)
            defaultMaxRetries st) in Hc.
    destruct (executeWithRetry (name client) ResourcesRead (request i 15000)
                defaultMaxRetries st) as [st1 [result|e]];
      cbn [fst snd] in *; [done|].
    rewrite <- Hc in Hclient.
    destruct (trigger_demote_effect i e st1 client Hclient) as (H1 & H2 & _).
    done.
  - intros Htable. unfold callTool. cbv zeta.
    rewrite !Htable. cbv iota. rewrite ?Htable.
    unfold resolve. cbn [mbind option_bind]. rewrite Hclient.
    cbn [mbind option_bind fst snd].
    destruct (attemptLoop_frame 1 0 (name client) ToolsCall
                (toolCallOperation i (name client)) st) as (Hc & _).
    cbn zeta in Hc.
    fold (executeWithRetry (name client) ToolsCall
            (toolCallOperation i (name client)) 1 st) in Hc.
    destruct (executeWithRetry (name client) ToolsCall
                (toolCallOperation i (name client)) 1 st)
      as [st1 [result|e]]; cbn [fst snd] in *; [by left|].
    destruct (isToolNotFound e) eqn:Hnf; cbn [fst snd]; [by left|].
    destruct (isConnectionError e) eqn:Hce; cbn [fst snd]; [|by left].
    right. exists e. rewrite <- Hc in Hclient.
    destruct (trigger_demote_effect i e st1 client Hclient) as (H1 & H2 & _).
    done.
Qed.

Lemma call_handlers_disconnect_on_error_witness :
  (getPrompt [] "p1" rejectsPrompt).2 = Err "Invalid parameters"
  ∧ isConnectionError "Invalid parameters" = false
  ∧ connectedClients (getPrompt [] "p1" rejectsPrompt).1 !! 0%nat
    = Some (disconnected "Invalid parameters" clientA)
  ∧ connectedClients (callTool [] "t1" rejectsPrompt).1 = [clientA].
Proof.
  assert ((getPrompt [] "p1" rejectsPrompt).2 = Err "Invalid parameters")
    as Hresult by (vm_compute; reflexivity).
  split; [exact Hresult|]. split; [reflexivity|].
  split; [|vm_compute; reflexivity].
  pose proof (proj1 (call_handlers_disconnect_on_error [] "p1" rejectsPrompt
                       0%nat clientA eq_refl) eq_refl) as H.
  rewrite Hresult in H. exact (proj1 H).
Defined.

End DemotionFacts.

(** ** The decision of the health checks *)

Section CheckFacts.

Import Proxy.






End CheckFacts.
